(** * Miscue-tolerant prompt language model: the graph construction engine

    A shallow embedding of [prompt_lmfst.py] (the [PromptLMFST] class, the
    homophone table) and of the path recipes of
    [make_one_miscue_tolerant_lm.py], followed by the properties of the
    construction.

    Python objects are mutated in place; here the graph is threaded through a
    small state-and-exception monad.  The [states] attribute is a Python
    dict, whose iteration order is the order in which its keys were first
    inserted: it is kept as an association list with unique keys. *)

From stdpp Require Import base option list strings gmap pretty.
From Stdlib Require Import ZArith QArith Reals Lra.

Local Open Scope string_scope.
Local Open Scope list_scope.
Local Open Scope nat_scope.

(** ** Data model *)

(** Labels are the words as written; states are numbered. *)
Abbreviation Label := string (only parsing).
Abbreviation StateId := nat (only parsing).

(** The Python exceptions the code can raise. *)
Inductive exn := KeyError | IndexError | RuntimeError | AttributeError.

Inductive result (A : Type) :=
| Ok (a : A)
| Raise (e : exn).
Arguments Ok {A} a.
Arguments Raise {A} e.

(** The weight table holds Python ints and one float literal.  The code never
    computes with a weight, it stores and prints it; a float is kept as the
    rational its literal denotes. *)
Inductive number :=
| PyInt (z : Z)
| PyFloat (q : Q).

(** [class Word]: [next_start] and [prev_final] are set from [final] and
    [start] by the constructor and never reassigned. *)
Record Word := mkWord { label : Label; start : StateId; final : StateId }.

Definition next_start (w : Word) : StateId := final w.
Definition prev_final (w : Word) : StateId := start w.

(** [Arc] and [FinalState] named tuples; a state's list holds both. *)
Inductive Leaf :=
| Arc (from_state to_state : StateId) (in_label out_label : Label) (weight : number)
| FinalState (state : StateId) (weight : number).

(** [getattr(item, "in_label", None)] *)
Definition getattr_in_label (item : Leaf) : option Label :=
  match item with
  | Arc _ _ l _ _ => Some l
  | FinalState _ _ => None
  end.

(** The homophone table is a [defaultdict(set)] keyed by words.  Reading it
    at a key that is absent gives the empty set, and stores that empty set
    under the key.  The guard of [addArc] reads it at the labels of a state's
    list ([None] for a final-state marker) in the order in which Python
    iterates over a set, and stops at the first hit: which empty entries a
    call leaves behind depends on that order and is no function of the
    graph.  The table is therefore kept up to these entries: [homophones]
    gives every word its set, a word without entry the empty set, and says
    nothing of the keys the object holds; no property below speaks of them.
    The object and its reads as Python has them are [defaultdict_getitem]
    and [any_stored] further down, where the guard is shown to answer the
    same for every order of iteration and every entry earlier reads have
    stored.  [None] is never a key of a table built by [readHomophones], and
    a read stores nothing but the empty set under it. *)
Abbreviation Homophones := (gmap string (gset string)) (only parsing).

Definition defaultdict_get (homophones : Homophones) (k : option Label) : gset Label :=
  match k with
  | Some l => default ∅ (homophones !! l)
  | None => ∅
  end.

(** [readHomophones]: the file is given by its lines, already stripped and
    split at white space; [None] is the absent file path. *)
Definition readHomophones (file : option (list (list Label))) : Homophones :=
  match file with
  | None => ∅
  | Some lines_split =>
      foldl (λ hs line,
               foldl (λ hs' word,
                        <[word := list_to_set line ∪ defaultdict_get hs' (Some word)]> hs')
                     hs line)
            ∅ lines_split
  end.

(** *** Insertion-ordered dictionaries keyed by state numbers *)

Fixpoint dict_get {V : Type} (d : list (nat * V)) (k : nat) : option V :=
  match d with
  | [] => None
  | (k', v) :: d' => if decide (k = k') then Some v else dict_get d' k
  end.

(** [d[k] = v]: an existing key keeps its place, a new key goes last. *)
Fixpoint dict_set {V : Type} (d : list (nat * V)) (k : nat) (v : V) : list (nat * V) :=
  match d with
  | [] => [(k, v)]
  | (k', v') :: d' =>
      if decide (k = k') then (k, v) :: d' else (k', v') :: dict_set d' k v
  end.

Definition dict_values {V : Type} (d : list (nat * V)) : list V := snd <$> d.
Definition dict_keys {V : Type} (d : list (nat * V)) : list nat := fst <$> d.

(** [class PromptLMFST].  The attribute [labels_by_state] is set to an empty
    dict by the constructor and never touched again; it is left out. *)
Record PromptLMFST := mkFST {
  ID : option string;
  words : list Word;
  states : list (StateId * list Leaf);
  state_counter : nat;
  initialised : bool;
  homophones : gmap string (gset string)
}.

(** [PromptLMFST(homophones, ID)] *)
Definition init (hs : Homophones) (id : option string) : PromptLMFST :=
  mkFST id [] [] 0 false hs.

(** ** The state-and-exception monad *)

Definition M (A : Type) : Type := PromptLMFST → result (A * PromptLMFST).

Global Instance M_ret : MRet M := λ A a g, Ok (a, g).
Global Instance M_bind : MBind M := λ A B k m g,
  match m g with
  | Ok (a, g') => k a g'
  | Raise e => Raise e
  end.

Definition raise {A : Type} (e : exn) : M A := λ _, Raise e.
Definition gets {A : Type} (f : PromptLMFST → A) : M A := λ g, Ok (f g, g).
Definition modify (f : PromptLMFST → PromptLMFST) : M unit := λ g, Ok ((), f g).

(** The graph a computation leaves behind. *)
Definition exec {A : Type} (m : M A) (g : PromptLMFST) : result PromptLMFST :=
  match m g with
  | Ok (_, g') => Ok g'
  | Raise e => Raise e
  end.

Fixpoint forM_ {A : Type} (l : list A) (f : A → M unit) : M unit :=
  match l with
  | [] => mret ()
  | x :: l' => f x ;; forM_ l' f
  end.

Definition set_states (d : list (StateId * list Leaf)) (g : PromptLMFST) : PromptLMFST :=
  mkFST (ID g) (words g) d (state_counter g) (initialised g) (homophones g).
Definition set_state_counter (c : nat) (g : PromptLMFST) : PromptLMFST :=
  mkFST (ID g) (words g) (states g) c (initialised g) (homophones g).
Definition set_initialised (b : bool) (g : PromptLMFST) : PromptLMFST :=
  mkFST (ID g) (words g) (states g) (state_counter g) b (homophones g).
Definition words_append (w : Word) (g : PromptLMFST) : PromptLMFST :=
  mkFST (ID g) (words g ++ [w]) (states g) (state_counter g) (initialised g) (homophones g).

(** [self.states[k] = []] *)
Definition states_set_empty (k : StateId) : M unit :=
  modify (λ g, set_states (dict_set (states g) k []) g).

(** [self.states[k]], a [KeyError] when the key is absent. *)
Definition states_get (k : StateId) : M (list Leaf) :=
  d ← gets states;
  match dict_get d k with
  | Some items => mret items
  | None => raise KeyError
  end.

(** [self.states[k].append(item)] *)
Definition states_append (k : StateId) (item : Leaf) : M unit :=
  items ← states_get k;
  modify (λ g, set_states (dict_set (states g) k (items ++ [item])) g).

(** [l[-1]] *)
Definition list_last {A : Type} (l : list A) : M A :=
  match last l with
  | Some x => mret x
  | None => raise IndexError
  end.

(** ** Methods of [PromptLMFST] *)

Definition newState : M StateId :=
  c ← gets state_counter;
  modify (set_state_counter (S c));;
  c' ← gets state_counter;
  states_set_empty c';;
  gets state_counter.

Definition curr_word : M Word :=
  i ← gets initialised;
  if negb i then raise RuntimeError
  else ws ← gets words; list_last ws.

Definition addNextWord (lbl : Label) : M unit :=
  i ← gets initialised;
  if negb i then
    c ← gets state_counter;
    states_set_empty c;;
    s ← gets state_counter;
    f ← newState;
    modify (words_append (mkWord lbl s f));;
    modify (set_initialised true)
  else
    w ← curr_word;
    f ← newState;
    modify (words_append (mkWord lbl (final w) f)).

(** The labels are collected in a Python set; the answer of [any] over it
    does not depend on the order, and the set is kept as the list of its
    distinct elements.  The reads of the table are kept as lookups (see
    [defaultdict_get] above). *)
Definition labels_from_state (items : list Leaf) : list (option Label) :=
  remove_dups (getattr_in_label <$> items).

Definition any_homophone (hs : Homophones) (lbl : Label)
    (labels : list (option Label)) : bool :=
  existsb (λ other_label, bool_decide (lbl ∈ defaultdict_get hs other_label)) labels.

Definition homophoneArcExists (from_state : StateId) (lbl : Label) : M bool :=
  items ← states_get from_state;
  hs ← gets homophones;
  mret (any_homophone hs lbl (labels_from_state items)).

Definition addArc (from_state to_state : StateId) (in_label out_label : Label)
    (weight : number) : M unit :=
  ex ← homophoneArcExists from_state in_label;
  if negb ex
  then states_append from_state (Arc from_state to_state in_label out_label weight)
  else mret ().

Definition addFinalState (state : StateId) (weight : number) : M unit :=
  states_append state (FinalState state weight).

Definition addWordSequence (sequence : list Label) : M unit :=
  forM_ sequence addNextWord.

(** [str] of the fields of a leaf.  Python's printing of a float is not
    modelled: it is the argument [str_float]. *)
Definition str_number (str_float : Q → string) (x : number) : string :=
  match x with
  | PyInt z => pretty z
  | PyFloat q => str_float q
  end.

Definition str_leaf (str_float : Q → string) (leaf : Leaf) : list string :=
  match leaf with
  | Arc f t i o w => [pretty f; pretty t; i; o; str_number str_float w]
  | FinalState s w => [pretty s; str_number str_float w]
  end.

(** [" ".join(fields)] *)
Fixpoint join (sep : string) (fields : list string) : string :=
  match fields with
  | [] => ""
  | [x] => x
  | x :: rest => x +:+ sep +:+ join sep rest
  end.

(** The leaves in the order [inText] prints them. *)
Definition leaves (g : PromptLMFST) : list Leaf := concat (dict_values (states g)).

Definition newline : string := String (Ascii.ascii_of_nat 10) EmptyString.

Definition inText (str_float : Q → string) (g : PromptLMFST) : string :=
  foldl (λ res leaf, res +:+ join " " (str_leaf str_float leaf) +:+ newline)
        (match ID g with None => "" | Some id => id +:+ newline end)
        (leaves g).

(** [isDeterministic].  The inner loop over one state's list: [Ok true] when
    the loop runs to its end, [Ok false] when the method returns [False].
    For a final-state marker the test reads [getattr(item, "in_label", None)],
    which is [None] and is never among the seen labels, and the other branch
    then reads [item.in_label], an attribute the marker does not have. *)
Fixpoint scan_state (seen_labels : gset Label) (items : list Leaf) : result bool :=
  match items with
  | [] => Ok true
  | item :: rest =>
      match getattr_in_label item with
      | Some l =>
          if bool_decide (l ∈ seen_labels) then Ok false
          else scan_state ({[ l ]} ∪ seen_labels) rest
      | None => Raise AttributeError
      end
  end.

Fixpoint scan_states (sts : list (list Leaf)) : result bool :=
  match sts with
  | [] => Ok true
  | items :: rest =>
      match scan_state ∅ items with
      | Ok true => scan_states rest
      | Ok false => Ok false
      | Raise e => Raise e
      end
  end.

Definition isDeterministic (g : PromptLMFST) : result bool :=
  scan_states (dict_values (states g)).

(** ** The recipes of [make_one_miscue_tolerant_lm.py] *)

(** The [weights] dict.  The recipes read it with constant keys; it is a
    record with one field per key ([FinalStateW] is the key ["FinalState"]). *)
Record Weights := mkWeights {
  Correct : number;
  Rubbish : number;
  Skip : number;
  Repeat : number;
  JumpForward : number;
  JumpBackward : number;
  Truncation : number;
  PrematureEnd : number;
  FinalStateW : number
}.

Definition weights : Weights :=
  {| Correct := PyInt 100;
     Rubbish := PyInt 5;
     Skip := PyInt 10;
     Repeat := PyInt 30;
     JumpForward := PyInt 5;
     JumpBackward := PyInt 5;
     Truncation := PyInt 5;
     PrematureEnd := PyInt 3;
     FinalStateW := PyFloat 0 |}.

(** The [special_labels] dict.  The source lacks the comma after the
    ["Epsilon"] entry; the three entries it spells are taken as meant. *)
Module special_labels.
Definition Epsilon : Label := "<eps>".
Definition Rubbish : Label := "[RUB]".
Definition Skip : Label := "[SKP]".
End special_labels.

Definition addCorrectPaths (weights : Weights) : M unit :=
  ws ← gets words;
  forM_ ws (λ word,
    addArc (start word) (final word) (label word) (label word) (Correct weights));;
  ws' ← gets words;
  lastw ← list_last ws';
  addFinalState (final lastw) (FinalStateW weights).

Definition addRubbishPaths (weights : Weights) : M unit :=
  ws ← gets words;
  forM_ ws (λ word,
    addArc (start word) (start word)
           special_labels.Rubbish special_labels.Rubbish (Rubbish weights));;
  ws' ← gets words;
  lastw ← list_last ws';
  addArc (final lastw) (final lastw)
         special_labels.Rubbish special_labels.Rubbish (Rubbish weights).

(** [zip(p_fst.words, p_fst.words[1:])] *)
Definition adjacent_pairs (ws : list Word) : list (Word * Word) := zip ws (tail ws).

Definition addSkipPaths (weights : Weights) : M unit :=
  ws ← gets words;
  forM_ (adjacent_pairs ws) (λ '(word, next_word),
    if bool_decide (label word ≠ label next_word) then
      skip_state ← newState;
      addArc (start word) skip_state
             (label next_word) special_labels.Skip (Skip weights);;
      addArc skip_state (final next_word)
             special_labels.Epsilon (label next_word) (Correct weights)
    else mret ());;
  ws' ← gets words;
  lastw ← list_last ws';
  addArc (start lastw) (final lastw)
         special_labels.Epsilon special_labels.Skip (Skip weights).

Definition addRepeatPaths (weights : Weights) : M unit :=
  ws ← gets words;
  forM_ (adjacent_pairs ws) (λ '(word, next_word),
    if bool_decide (label word ≠ label next_word) then
      addArc (final word) (final word) (label word) (label word) (Repeat weights)
    else mret ());;
  ws' ← gets words;
  lastw ← list_last ws';
  addArc (final lastw) (final lastw) (label lastw) (label lastw) (Repeat weights).

(** The whole construction for one prompt.  The script breaks off right
    after it creates the graph; the calls are taken in the order in which
    the script defines the recipes: the word chain, then the correct,
    rubbish, skip and repeat paths. *)
Definition construct (weights : Weights) (prompt : list Label) : M unit :=
  addWordSequence prompt;;
  addCorrectPaths weights;;
  addRubbishPaths weights;;
  addSkipPaths weights;;
  addRepeatPaths weights.

Definition build (hs : Homophones) (prompt : list Label) : result PromptLMFST :=
  exec (construct weights prompt) (init hs None).

(** ** Vocabulary of the properties *)

(** The guard of [addArc] on a state's list. *)
Definition blocked (hs : Homophones) (items : list Leaf) (lbl : Label) : bool :=
  any_homophone hs lbl (labels_from_state items).

(** A dictionary whose keys are [n], [n+1], ... in this order: what [states]
    is once the first word has been added to a new graph. *)
Fixpoint dense_from {V : Type} (n : nat) (L : list V) : list (nat * V) :=
  match L with
  | [] => []
  | x :: L' => (n, x) :: dense_from (S n) L'
  end.

Definition dense {V : Type} (L : list V) : list (nat * V) := dense_from 0 L.

(** The words of a prompt as [addWordSequence] numbers them on a new graph. *)
Fixpoint chain_from (n : nat) (prompt : list Label) : list Word :=
  match prompt with
  | [] => []
  | l :: rest => mkWord l n (S n) :: chain_from (S n) rest
  end.

Definition chain_words (prompt : list Label) : list Word := chain_from 0 prompt.

(** A graph that carries the word chain of [prompt]: the shape every stage of
    the construction has, whatever its states' lists hold. *)
Definition chain_graph (prompt : list Label) (g : PromptLMFST) : Prop :=
  words g = chain_words prompt ∧
  states g = dense (dict_values (states g)) ∧
  length (states g) = S (state_counter g) ∧
  length prompt ≤ state_counter g ∧
  initialised g = true.

(** What one guarded insertion does to the lists of a dense dictionary:
    [addArc] for an arc, [addFinalState] for a marker. *)
Definition leaf_from (a : Leaf) : StateId :=
  match a with
  | Arc f _ _ _ _ => f
  | FinalState s _ => s
  end.

Definition leaf_blocked (hs : Homophones) (items : list Leaf) (a : Leaf) : bool :=
  match a with
  | Arc _ _ i _ _ => blocked hs items i
  | FinalState _ _ => false
  end.

Definition try_leaf (hs : Homophones) (L : list (list Leaf)) (a : Leaf) : list (list Leaf) :=
  match L !! leaf_from a with
  | Some items =>
      if leaf_blocked hs items a then L else <[leaf_from a := items ++ [a]]> L
  | None => L
  end.

Definition addLeaf (a : Leaf) : M unit :=
  match a with
  | Arc f t i o w => addArc f t i o w
  | FinalState s w => addFinalState s w
  end.

(** The graph [addWordSequence] leaves when it is run on a new graph. *)
Definition chain_init (hs : Homophones) (id : option string)
    (prompt : list Label) : PromptLMFST :=
  match prompt with
  | [] => init hs id
  | _ => mkFST id (chain_words prompt)
               (dense (replicate (S (length prompt)) [])) (length prompt) true hs
  end.

(** The leaves each recipe asks the graph to insert, in the order of the
    calls.  The skip recipe allocates states as it goes; its leaves come
    with [skip_states] below. *)
Definition last_leaf (ws : list Word) (mk : Word → Leaf) : list Leaf :=
  match last ws with
  | Some w => [mk w]
  | None => []
  end.

Definition distinct_pair (pr : Word * Word) : Prop := label pr.1 ≠ label pr.2.

Global Instance distinct_pair_dec pr : Decision (distinct_pair pr).
Proof. unfold distinct_pair. apply _. Defined.

Definition correct_arc (W : Weights) (word : Word) : Leaf :=
  Arc (start word) (final word) (label word) (label word) (Correct W).

Definition final_marker (W : Weights) (word : Word) : Leaf :=
  FinalState (final word) (FinalStateW W).

Definition correct_leaves (W : Weights) (ws : list Word) : list Leaf :=
  (correct_arc W <$> ws) ++ last_leaf ws (final_marker W).

Definition rubbish_arc (W : Weights) (s : StateId) : Leaf :=
  Arc s s special_labels.Rubbish special_labels.Rubbish (Rubbish W).

Definition rubbish_leaves (W : Weights) (ws : list Word) : list Leaf :=
  ((λ w, rubbish_arc W (start w)) <$> ws) ++ last_leaf ws (λ w, rubbish_arc W (final w)).

Definition repeat_arc (W : Weights) (word : Word) : Leaf :=
  Arc (final word) (final word) (label word) (label word) (Repeat W).

Definition repeat_leaves (W : Weights) (ws : list Word) : list Leaf :=
  ((λ pr, repeat_arc W pr.1) <$> filter distinct_pair (adjacent_pairs ws))
  ++ last_leaf ws (repeat_arc W).

(** The two arcs of the skip recipe for a pair, [s] being the new state. *)
Definition skip_in_arc (W : Weights) (s : StateId) (pr : Word * Word) : Leaf :=
  Arc (start pr.1) s (label pr.2) special_labels.Skip (Skip W).

Definition skip_out_arc (W : Weights) (s : StateId) (pr : Word * Word) : Leaf :=
  Arc s (final pr.2) special_labels.Epsilon (label pr.2) (Correct W).

Definition skip_last_arc (W : Weights) (word : Word) : Leaf :=
  Arc (start word) (final word) special_labels.Epsilon special_labels.Skip (Skip W).

(** The pairs that get a skip state, each with the number of its state when
    [s] is the first free number. *)
Fixpoint skip_states (s : StateId) (pairs : list (Word * Word))
    : list (StateId * (Word * Word)) :=
  match pairs with
  | [] => []
  | pr :: rest =>
      if decide (distinct_pair pr) then (s, pr) :: skip_states (S s) rest
      else skip_states s rest
  end.

(** The number of places in a prompt where the next word differs. *)
Fixpoint count_changes (prompt : list Label) : nat :=
  match prompt with
  | [] => 0
  | a :: rest =>
      match rest with
      | [] => 0
      | b :: _ => (if decide (a ≠ b) then 1 else 0) + count_changes rest
      end
  end.

(** The normal form of a graph that carries a word chain. *)
Definition chainG (id : option string) (prompt : list Label)
    (L : list (list Leaf)) (hs : Homophones) : PromptLMFST :=
  mkFST id (chain_words prompt) (dense L) (pred (length L)) true hs.

(** The arcs the skip recipe asks for at the words' start states, and the
    lists of the states it allocates. *)
Definition skip_in_leaves (W : Weights) (s : StateId) (pairs : list (Word * Word))
    : list Leaf :=
  (λ sp, skip_in_arc W sp.1 sp.2) <$> skip_states s pairs.

Definition skip_out_lists (W : Weights) (s : StateId) (pairs : list (Word * Word))
    : list (list Leaf) :=
  (λ sp, [skip_out_arc W sp.1 sp.2]) <$> skip_states s pairs.

(** *** Paths *)

(** The initial state is the number the state counter starts from. *)
Definition initial_state : StateId := state_counter (init ∅ None).

(** [path g s arcs t]: the arcs are in the graph and lead from [s] to [t]. *)
Inductive path (g : PromptLMFST) : StateId → list Leaf → StateId → Prop :=
| path_nil s : path g s [] s
| path_cons s t u i o w rest items :
    dict_get (states g) s = Some items →
    Arc s t i o w ∈ items →
    path g t rest u →
    path g s (Arc s t i o w :: rest) u.

Definition accepting (g : PromptLMFST) (s : StateId) : Prop :=
  ∃ items w, dict_get (states g) s = Some items ∧ FinalState s w ∈ items.

Definition is_special (l : Label) : Prop :=
  l = special_labels.Epsilon ∨ l = special_labels.Rubbish ∨ l = special_labels.Skip.

Global Instance is_special_dec l : Decision (is_special l).
Proof. unfold is_special. apply _. Defined.

(** The input labels along a path, epsilon and the markers left out. *)
Definition read_labels (arcs : list Leaf) : list Label :=
  filter (λ l, ¬ is_special l) (omap getattr_in_label arcs).

(** *** The recipes as the sentences about them read *)

(** The repeat recipe read without the guard of [addArc]: the self-loop is
    appended for every adjacent pair with different labels and for the last
    word, and nothing is appended for a pair with equal labels. *)
Definition repeat_unguarded (W : Weights) (prompt : list Label)
    (g g' : PromptLMFST) : Prop :=
  (∀ i a b items,
     prompt !! i = Some a → prompt !! S i = Some b →
     dict_get (states g) (S i) = Some items →
     dict_get (states g') (S i)
     = Some (items ++ if decide (a ≠ b) then [Arc (S i) (S i) a a (Repeat W)] else [])) ∧
  (∀ l items,
     last prompt = Some l →
     dict_get (states g) (length prompt) = Some items →
     dict_get (states g') (length prompt)
     = Some (items ++ [Arc (length prompt) (length prompt) l l (Repeat W)])).

(** The graph on which the repeat recipe runs: the word chain, then the
    correct, rubbish and skip recipes. *)
Definition before_repeat (hs : Homophones) (prompt : list Label) : result PromptLMFST :=
  exec (addWordSequence prompt;; addCorrectPaths weights;;
        addRubbishPaths weights;; addSkipPaths weights) (init hs None).

(** The graph on which the skip recipe runs. *)
Definition before_skip (hs : Homophones) (prompt : list Label) : result PromptLMFST :=
  exec (addWordSequence prompt;; addCorrectPaths weights;;
        addRubbishPaths weights) (init hs None).

(** The skip recipe read without the guard of [addArc]: a pair with
    different labels gets a new state with the arc out of it, and the arc
    into it is appended at the first word's start; a pair with equal labels
    gets nothing; the last word gets its epsilon arc. *)
Definition skip_unguarded (W : Weights) (prompt : list Label)
    (g g' : PromptLMFST) : Prop :=
  (∀ i a b items,
     prompt !! i = Some a → prompt !! S i = Some b →
     dict_get (states g) i = Some items →
     if decide (a ≠ b) then
       ∃ s, dict_get (states g) s = None ∧
            dict_get (states g') s
            = Some [Arc s (S (S i)) special_labels.Epsilon b (Correct W)] ∧
            dict_get (states g') i
            = Some (items ++ [Arc i s b special_labels.Skip (Skip W)])
     else dict_get (states g') i = Some items) ∧
  (∀ l items,
     last prompt = Some l →
     dict_get (states g) (pred (length prompt)) = Some items →
     dict_get (states g') (pred (length prompt))
     = Some (items ++ [Arc (pred (length prompt)) (length prompt)
                           special_labels.Epsilon special_labels.Skip (Skip W)])).

(** *** Call sequences *)

Inductive recipe := CorrectPaths | RubbishPaths | SkipPaths | RepeatPaths.

Definition run_recipe (r : recipe) (W : Weights) : M unit :=
  match r with
  | CorrectPaths => addCorrectPaths W
  | RubbishPaths => addRubbishPaths W
  | SkipPaths => addSkipPaths W
  | RepeatPaths => addRepeatPaths W
  end.

(** The calls that change a graph. *)
Inductive call :=
| CallAddNextWord (l : Label)
| CallAddWordSequence (sequence : list Label)
| CallNewState
| CallAddArc (f t : StateId) (i o : Label) (w : number)
| CallAddFinalState (s : StateId) (w : number)
| CallRecipe (r : recipe) (W : Weights).

Definition run_call (c : call) : M unit :=
  match c with
  | CallAddNextWord l => addNextWord l
  | CallAddWordSequence sequence => addWordSequence sequence
  | CallNewState => newState ;; mret ()
  | CallAddArc f t i o w => addArc f t i o w
  | CallAddFinalState s w => addFinalState s w
  | CallRecipe r W => run_recipe r W
  end.

Definition run_calls (cs : list call) : M unit := forM_ cs run_call.

(** The labels a call sequence appends to the word chain. *)
Fixpoint appended (cs : list call) : list Label :=
  match cs with
  | [] => []
  | CallAddNextWord l :: rest => l :: appended rest
  | CallAddWordSequence sequence :: rest => sequence ++ appended rest
  | _ :: rest => appended rest
  end.

(** What holds of every graph that calls can produce from a new one. *)
Definition graph_inv (g : PromptLMFST) : Prop :=
  (initialised g = true ↔ words g ≠ []) ∧
  (∀ k, k ∈ dict_keys (states g) → k ≤ state_counter g) ∧
  (∀ w, w ∈ words g → start w ≤ state_counter g ∧ final w ≤ state_counter g) ∧
  (∀ i a b, words g !! i = Some a → words g !! S i = Some b → start b = final a).

(** A computation keeps a property of the graph. *)
Definition preserves {A : Type} (P : PromptLMFST → Prop) (m : M A) : Prop :=
  ∀ g a g', P g → m g = Ok (a, g') → P g'.

(** The property kept by every call that appends no word. *)
Definition quiet (ws : list Word) (b : bool) (c0 : nat) (g : PromptLMFST) : Prop :=
  words g = ws ∧ initialised g = b ∧ c0 ≤ state_counter g ∧
  (∀ k, k ∈ dict_keys (states g) → k ≤ state_counter g).

(** The arcs of a state's list, the final-state markers left out. *)
Definition is_arc (item : Leaf) : bool :=
  match item with
  | Arc _ _ _ _ _ => true
  | FinalState _ _ => false
  end.

Definition arcs_of (items : list Leaf) : list Leaf := filter (λ x, is_arc x = true) items.

(** *** Determinism *)

(** Two labels are mutually homophonous when each is in the other's set. *)
Definition homophonous (hs : Homophones) (a b : Label) : Prop :=
  a ∈ defaultdict_get hs (Some b) ∧ b ∈ defaultdict_get hs (Some a).

(** No two arcs that leave one state have input labels that are equal or
    mutually homophonous. *)
Definition input_deterministic (g : PromptLMFST) : Prop :=
  ∀ s items j k f t a o w f' t' b o' w',
    dict_get (states g) s = Some items →
    j ≠ k →
    items !! j = Some (Arc f t a o w) →
    items !! k = Some (Arc f' t' b o' w') →
    a ≠ b ∧ ¬ homophonous (homophones g) a b.

(** What the guard of [addArc] does keep: at every state, the input label
    of an arc is in the homophone set of no item that comes before it in
    the state's list. *)
Definition guarded (hs : Homophones) (items : list Leaf) : Prop :=
  ∀ j k x f t l o w,
    j < k → items !! j = Some x → items !! k = Some (Arc f t l o w) →
    l ∉ defaultdict_get hs (getattr_in_label x).

Definition all_guarded (hs : Homophones) (g : PromptLMFST) : Prop :=
  homophones g = hs ∧
  ∀ s items, dict_get (states g) s = Some items → guarded hs items.

(** The lists of the states after the whole construction, stage by stage. *)
Definition after_correct (hs : Homophones) (W : Weights) (p : list Label)
    : list (list Leaf) :=
  foldl (try_leaf hs) (replicate (S (length p)) []) (correct_leaves W (chain_words p)).

Definition after_rubbish (hs : Homophones) (W : Weights) (p : list Label)
    : list (list Leaf) :=
  foldl (try_leaf hs) (after_correct hs W p) (rubbish_leaves W (chain_words p)).

Definition after_skip (hs : Homophones) (W : Weights) (p : list Label)
    : list (list Leaf) :=
  foldl (try_leaf hs) (after_rubbish hs W p)
        (skip_in_leaves W (S (length p)) (adjacent_pairs (chain_words p))
         ++ last_leaf (chain_words p) (skip_last_arc W))
  ++ skip_out_lists W (S (length p)) (adjacent_pairs (chain_words p)).

Definition after_repeat (hs : Homophones) (W : Weights) (p : list Label)
    : list (list Leaf) :=
  foldl (try_leaf hs) (after_skip hs W p) (repeat_leaves W (chain_words p)).

(** Every list of [L] is a prefix of the list at the same place in [L']. *)
Definition extends (L L' : list (list Leaf)) : Prop :=
  ∀ j items, L !! j = Some items → ∃ extra, L' !! j = Some (items ++ extra).

(** The input labels of a state's arcs. *)
Definition in_labels (items : list Leaf) : list Label := omap getattr_in_label items.

(** *** Costs *)

Definition number_to_R (x : number) : R :=
  match x with
  | PyInt z => IZR z
  | PyFloat q => Q2R q
  end.

(** The cost of a weight [w] that competes with the weights [ws] at a state:
    the negative logarithm of its share. *)
Definition normalised_cost (w : number) (ws : list number) : R :=
  (- ln (number_to_R w / foldr (λ x acc, number_to_R x + acc) 0 ws))%R.

(** *** The homophone file *)

(** Two words share a line of the file. *)
Definition same_line (lines_split : list (list Label)) (a b : Label) : Prop :=
  ∃ line, line ∈ lines_split ∧ a ∈ line ∧ b ∈ line.

(** The inner loop of [readHomophones] over the words [ws] of a line whose
    set of words is [S]. *)
Definition add_line (S : gset Label) (hs : Homophones) (ws : list Label) : Homophones :=
  foldl (λ hs' word, <[word := S ∪ defaultdict_get hs' (Some word)]> hs') hs ws.

(** A graph with one word and its arc, for the homophone file whose one line
    is "read red". *)
Definition read_red : gmap string (gset string) :=
  readHomophones (Some [["read"; "red"]]).

Definition read_graph : PromptLMFST :=
  mkFST None [mkWord "read" 0 1]
        [(0, [Arc 0 1 "read" "read" (PyInt 100)]); (1, [])] 1 true read_red.

(** *** States that exist *)

Definition has_key (g : PromptLMFST) (k : StateId) : Prop :=
  is_Some (dict_get (states g) k).

(** Every word starts and ends at a state of the graph. *)
Definition registered (g : PromptLMFST) : Prop :=
  ∀ w, w ∈ words g → has_key g (start w) ∧ has_key g (final w).

Definition keys_kept (g g' : PromptLMFST) : Prop :=
  ∀ k, has_key g k → has_key g' k.

(** A relation that holds between the graph before and after a computation,
    whenever it returns. *)
Definition steps {A : Type} (R : PromptLMFST → PromptLMFST → Prop) (m : M A) : Prop :=
  ∀ g a g', m g = Ok (a, g') → R g g'.

(** A computation that cannot fail on a graph whose words are [ws] and in
    which the states [K] exist, and that keeps the words and every state. *)
Definition safe_on {A : Type} (ws : list Word) (K : list StateId) (m : M A) : Prop :=
  ∀ g, words g = ws → (∀ k, k ∈ K → has_key g k) →
    ∃ a g', m g = Ok (a, g') ∧ words g' = ws ∧ keys_kept g g'.

(** The states the words of a graph use. *)
Definition word_states (ws : list Word) : list StateId :=
  (start <$> ws) ++ (final <$> ws).

(** A call sequence that allocates states between the appends, and the
    graph it leaves. *)
Definition sample_calls : list call :=
  [CallNewState; CallAddNextWord "the"; CallNewState;
   CallAddNextWord "cat"; CallRecipe SkipPaths weights].

Definition sample_graph : PromptLMFST :=
  Eval vm_compute in
    match exec (run_calls sample_calls) (init ∅ None) with
    | Ok g => g
    | Raise _ => init ∅ None
    end.

(** *** Lists that only grow *)

(** Every list of [g0] is a prefix of the list of the same state in [g]. *)
Definition grown_from (g0 g : PromptLMFST) : Prop :=
  ∀ s items, dict_get (states g0) s = Some items →
    ∃ extra, dict_get (states g) s = Some (items ++ extra).

(** The graphs on which no call resets a list: a word has been appended and
    no state is numbered past the counter. *)
Definition append_only (g0 g : PromptLMFST) : Prop :=
  initialised g = true ∧
  (∀ k, k ∈ dict_keys (states g) → k ≤ state_counter g) ∧
  grown_from g0 g.

Definition sample_graph_later : PromptLMFST :=
  Eval vm_compute in
    match exec (run_calls [CallRecipe RepeatPaths weights; CallAddNextWord "sat";
                           CallRecipe RubbishPaths weights]) sample_graph with
    | Ok g => g
    | Raise _ => init ∅ None
    end.

(** *** The check for duplicate labels *)

(** Two items at different places of a state's list read the same input
    label. *)
Definition duplicate_label (items : list Leaf) : Prop :=
  ∃ j k x y, j ≠ k ∧ items !! j = Some x ∧ items !! k = Some y ∧
             getattr_in_label x = getattr_in_label y.

(** One word and its correct path: the last state holds the marker. *)
Definition marked_graph : PromptLMFST :=
  Eval vm_compute in
    match exec (addWordSequence ["the"];; addCorrectPaths weights) (init ∅ None) with
    | Ok g => g
    | Raise _ => init ∅ None
    end.

(** A list the scan of [isDeterministic] runs through to its end: arcs only,
    their input labels pairwise different. *)
Definition scan_passes (items : list Leaf) : Prop :=
  Forall (λ x, is_arc x = true) items ∧ NoDup (in_labels items).

Global Instance scan_passes_dec items : Decision (scan_passes items).
Proof. unfold scan_passes. apply _. Defined.

(** An item at which the scan stops when the items [pre] of its list come
    before it: a final-state marker, or an arc whose input label one of
    [pre] has. *)
Definition scan_stops (pre : list Leaf) (x : Leaf) : Prop :=
  match getattr_in_label x with
  | None => True
  | Some l => l ∈ in_labels pre
  end.

(** The whole construction for the prompt a b a without a homophone file:
    the list of state 1 reads "a" twice, the list of state 3 holds the
    marker. *)
Definition aba_graph : PromptLMFST :=
  Eval vm_compute in
    match build ∅ ["a"; "b"; "a"] with
    | Ok g => g
    | Raise _ => init ∅ None
    end.

(** *** A homophone file that lists every label *)

(** The words of the prompt and the three special labels, each on a line of
    its own but "cat", which shares its line with "cut"; and the whole
    construction for the prompt the cat the with this table. *)
Definition listed_table : gmap string (gset string) :=
  readHomophones (Some [["the"]; ["cat"; "cut"]; ["<eps>"]; ["[RUB]"]; ["[SKP]"]]).

Definition listed_calls : list call :=
  [CallAddWordSequence ["the"; "cat"; "the"];
   CallRecipe CorrectPaths weights; CallRecipe RubbishPaths weights;
   CallRecipe SkipPaths weights; CallRecipe RepeatPaths weights].

Definition listed_graph : PromptLMFST :=
  Eval vm_compute in
    match exec (run_calls listed_calls) (init listed_table None) with
    | Ok g => g
    | Raise _ => init ∅ None
    end.

(** Every input label of the graph is in its own homophone set. *)
Definition labels_listed (hs : Homophones) (g : PromptLMFST) : Prop :=
  Forall (λ items, Forall (λ l, l ∈ defaultdict_get hs (Some l)) (in_labels items))
         (dict_values (states g)).

(** *** The table as Python stores it *)

(** The object behind [homophones]: a dict whose keys are words, and [None]
    once the guard has read it for a final-state marker. *)
Abbreviation stored_table := (gmap (option string) (gset string)) (only parsing).

(** [d[k]] on a [defaultdict(set)]: the set under [k]; a key that is absent
    first gets the empty set. *)
Definition defaultdict_getitem (d : stored_table) (k : option Label)
    : gset Label * stored_table :=
  match d !! k with
  | Some s => (s, d)
  | None => (∅, <[k := ∅]> d)
  end.

(** [any(label in self.homophones[other_label] for other_label in labels)],
    the labels visited in the order of the list; [any] stops at the first
    hit. *)
Fixpoint any_stored (d : stored_table) (lbl : Label) (labels : list (option Label))
    : bool * stored_table :=
  match labels with
  | [] => (false, d)
  | other_label :: rest =>
      if bool_decide (lbl ∈ (defaultdict_getitem d other_label).1)
      then (true, (defaultdict_getitem d other_label).2)
      else any_stored (defaultdict_getitem d other_label).2 lbl rest
  end.

(** The object [d] holds the table [hs]: every key reads as in [hs]; the
    keys of [d] that [hs] lacks hold the empty set. *)
Definition holds (d : stored_table) (hs : Homophones) : Prop :=
  ∀ k, default ∅ (d !! k) = defaultdict_get hs k.

(** The table [readHomophones] returns, as the object it is. *)
Definition as_stored (hs : Homophones) : stored_table := kmap Some hs.

(** * Properties *)

(** ** Equations of the methods *)

Lemma blocked_true_iff hs items lbl :
  blocked hs items lbl = true ↔
  ∃ item, item ∈ items ∧ lbl ∈ defaultdict_get hs (getattr_in_label item).
Proof.
  unfold blocked, any_homophone, labels_from_state.
  rewrite existsb_exists. split.
  - intros (o & Hin & Hdec).
    apply list_elem_of_In, elem_of_remove_dups, list_elem_of_fmap in Hin.
    destruct Hin as (item & -> & Hitem).
    exists item. split; [done|]. by apply bool_decide_eq_true in Hdec.
  - intros (item & Hitem & Hl).
    exists (getattr_in_label item). split.
    + apply list_elem_of_In, elem_of_remove_dups, list_elem_of_fmap. eauto.
    + by apply bool_decide_eq_true.
Qed.

Lemma blocked_false_iff hs items lbl :
  blocked hs items lbl = false ↔
  ∀ item, item ∈ items → lbl ∉ defaultdict_get hs (getattr_in_label item).
Proof.
  rewrite <- not_true_iff_false, blocked_true_iff. split.
  - intros Hno item Hin Hl. apply Hno. eauto.
  - intros Hall (item & Hin & Hl). by apply (Hall item).
Qed.

Lemma blocked_nil hs lbl : blocked hs [] lbl = false.
Proof. reflexivity. Qed.

Lemma newState_eq g :
  newState g =
  Ok (S (state_counter g),
      mkFST (ID g) (words g) (dict_set (states g) (S (state_counter g)) [])
            (S (state_counter g)) (initialised g) (homophones g)).
Proof. reflexivity. Qed.

Lemma states_append_eq k item g :
  states_append k item g =
  match dict_get (states g) k with
  | Some items => Ok ((), set_states (dict_set (states g) k (items ++ [item])) g)
  | None => Raise KeyError
  end.
Proof.
  unfold states_append, states_get, mbind, M_bind, gets. simpl.
  by destruct (dict_get (states g) k).
Qed.

Lemma addFinalState_eq s w g :
  addFinalState s w g =
  match dict_get (states g) s with
  | Some items => Ok ((), set_states (dict_set (states g) s (items ++ [FinalState s w])) g)
  | None => Raise KeyError
  end.
Proof. apply states_append_eq. Qed.

Lemma homophoneArcExists_eq f lbl g :
  homophoneArcExists f lbl g =
  match dict_get (states g) f with
  | Some items => Ok (blocked (homophones g) items lbl, g)
  | None => Raise KeyError
  end.
Proof.
  unfold homophoneArcExists, states_get, mbind, M_bind, gets. simpl.
  by destruct (dict_get (states g) f).
Qed.

Lemma addArc_eq f t i o w g :
  addArc f t i o w g =
  match dict_get (states g) f with
  | Some items =>
      if blocked (homophones g) items i then Ok ((), g)
      else Ok ((), set_states (dict_set (states g) f (items ++ [Arc f t i o w])) g)
  | None => Raise KeyError
  end.
Proof.
  unfold addArc. unfold mbind at 1. unfold M_bind.
  rewrite homophoneArcExists_eq.
  destruct (dict_get (states g) f) as [items|] eqn:E; [|done].
  destruct (blocked (homophones g) items i); simpl; [done|].
  by rewrite states_append_eq, E.
Qed.

Lemma curr_word_eq g :
  curr_word g =
  if initialised g then
    match last (words g) with
    | Some w => Ok (w, g)
    | None => Raise IndexError
    end
  else Raise RuntimeError.
Proof.
  unfold curr_word, mbind, M_bind, gets, list_last. simpl.
  destruct (initialised g); simpl; [|done].
  by destruct (last (words g)).
Qed.

Lemma bind_eq {A B} (m : M A) (k : A → M B) g :
  (m ≫= k) g = match m g with Ok (a, g') => k a g' | Raise e => Raise e end.
Proof. reflexivity. Qed.

Lemma forM__app {A} (l1 l2 : list A) (f : A → M unit) g :
  forM_ (l1 ++ l2) f g = (forM_ l1 f ;; forM_ l2 f) g.
Proof.
  revert g. induction l1 as [|x l1 IH]; intros g; simpl.
  - reflexivity.
  - rewrite !bind_eq. destruct (f x g) as [[[] g']|e]; [|done].
    rewrite IH. by rewrite bind_eq.
Qed.

(** ** Dense dictionaries are lists *)

Lemma dict_get_dense_from {V} n (L : list V) k :
  dict_get (dense_from n L) k = if decide (n ≤ k) then L !! (k - n) else None.
Proof.
  revert n; induction L as [|x L IH]; intros n; simpl.
  - by case_decide.
  - destruct (decide (k = n)) as [->|Hne].
    + rewrite decide_True by lia. by replace (n - n) with 0 by lia.
    + rewrite IH. repeat case_decide; try lia; try done.
      by replace (k - n) with (S (k - S n)) by lia.
Qed.

Lemma dict_get_dense {V} (L : list V) k : dict_get (dense L) k = L !! k.
Proof.
  unfold dense. rewrite dict_get_dense_from, decide_True by lia.
  by replace (k - 0) with k by lia.
Qed.

Lemma dict_set_dense_from_lt {V} n (L : list V) k v :
  n ≤ k → k < n + length L →
  dict_set (dense_from n L) k v = dense_from n (<[k - n := v]> L).
Proof.
  revert n; induction L as [|x L IH]; intros n Hle Hlt; simpl in *; [lia|].
  destruct (decide (k = n)) as [->|Hne].
  - by replace (n - n) with 0 by lia.
  - replace (k - n) with (S (k - S n)) by lia. simpl.
    f_equal. apply IH; lia.
Qed.

Lemma dict_set_dense_from_end {V} n (L : list V) v :
  dict_set (dense_from n L) (n + length L) v = dense_from n (L ++ [v]).
Proof.
  revert n; induction L as [|x L IH]; intros n; simpl.
  - by replace (n + 0) with n by lia.
  - rewrite decide_False by lia. f_equal.
    replace (n + S (length L)) with (S n + length L) by lia. apply IH.
Qed.

Lemma dict_set_dense_lt {V} (L : list V) k v :
  k < length L → dict_set (dense L) k v = dense (<[k := v]> L).
Proof.
  intros. unfold dense. rewrite dict_set_dense_from_lt by lia.
  by replace (k - 0) with k by lia.
Qed.

Lemma dict_set_dense_end {V} (L : list V) v :
  dict_set (dense L) (length L) v = dense (L ++ [v]).
Proof. apply (dict_set_dense_from_end 0). Qed.

Lemma dict_values_dense_from {V} n (L : list V) : dict_values (dense_from n L) = L.
Proof.
  revert n; induction L as [|x L IH]; intros n; simpl; [done|].
  unfold dict_values in *. simpl. by rewrite IH.
Qed.

Lemma dict_values_dense {V} (L : list V) : dict_values (dense L) = L.
Proof. apply dict_values_dense_from. Qed.

Lemma length_dense_from {V} n (L : list V) : length (dense_from n L) = length L.
Proof. revert n; induction L; intros; simpl; auto. Qed.

Lemma length_dense {V} (L : list V) : length (dense L) = length L.
Proof. apply length_dense_from. Qed.

(** ** Reads and writes of a dictionary *)

Lemma dict_get_set_eq {V} (d : list (nat * V)) k v :
  dict_get (dict_set d k v) k = Some v.
Proof.
  induction d as [|[k' v'] d IH]; simpl.
  - by rewrite decide_True.
  - destruct (decide (k = k')) as [->|Hne]; simpl.
    + by rewrite decide_True.
    + by rewrite decide_False.
Qed.

Lemma dict_get_set_ne {V} (d : list (nat * V)) k j v :
  j ≠ k → dict_get (dict_set d k v) j = dict_get d j.
Proof.
  intros Hne. induction d as [|[k' v'] d IH]; simpl.
  - by rewrite decide_False.
  - destruct (decide (k = k')) as [->|Hne']; simpl.
    + by rewrite !decide_False.
    + by rewrite IH.
Qed.

Lemma dict_set_set {V} (d : list (nat * V)) k v v' :
  dict_set (dict_set d k v) k v' = dict_set d k v'.
Proof.
  induction d as [|[k' v0] d IH]; simpl.
  - by rewrite decide_True.
  - destruct (decide (k = k')) as [->|Hne]; simpl.
    + by rewrite decide_True.
    + by rewrite decide_False, IH.
Qed.

Lemma dict_keys_set {V} (d : list (nat * V)) k v x :
  x ∈ dict_keys (dict_set d k v) ↔ x ∈ dict_keys d ∨ x = k.
Proof.
  unfold dict_keys. induction d as [|[k' v'] d IH]; simpl.
  - rewrite list_elem_of_singleton. split; [auto|]. intros [H|H]; [|done].
    by apply elem_of_nil in H.
  - destruct (decide (k = k')) as [->|Hne]; simpl.
    + rewrite !elem_of_cons. tauto.
    + rewrite !elem_of_cons, IH. tauto.
Qed.

Lemma dict_get_None {V} (d : list (nat * V)) k :
  dict_get d k = None ↔ k ∉ dict_keys d.
Proof.
  unfold dict_keys. induction d as [|[k' v'] d IH]; simpl.
  - split; [|done]. intros _ H. by apply elem_of_nil in H.
  - rewrite not_elem_of_cons. destruct (decide (k = k')) as [->|Hne]; simpl.
    + split; [done|]. by intros [? _].
    + rewrite IH. tauto.
Qed.

Arguments dense : simpl never.
Arguments dict_set : simpl never.
Arguments dict_get : simpl never.

(** ** The word chain *)

Lemma chain_from_app n p q :
  chain_from n (p ++ q) = chain_from n p ++ chain_from (n + length p) q.
Proof.
  revert n; induction p as [|l p IH]; intros n; simpl.
  - by replace (n + 0) with n by lia.
  - rewrite IH. by replace (S n + length p) with (n + S (length p)) by lia.
Qed.

Lemma length_chain_from n p : length (chain_from n p) = length p.
Proof. revert n; induction p; intros; simpl; auto. Qed.

Lemma chain_from_lookup n p i :
  chain_from n p !! i = (λ l, mkWord l (n + i) (S (n + i))) <$> p !! i.
Proof.
  revert n i; induction p as [|l p IH]; intros n i; simpl; [done|].
  destruct i as [|i]; simpl.
  - by replace (n + 0) with n by lia.
  - rewrite IH. by replace (S n + i) with (n + S i) by lia.
Qed.

Lemma chain_words_lookup p i :
  chain_words p !! i = (λ l, mkWord l i (S i)) <$> p !! i.
Proof. apply (chain_from_lookup 0). Qed.

Lemma last_chain_words p l :
  last (chain_words (p ++ [l])) = Some (mkWord l (length p) (S (length p))).
Proof.
  unfold chain_words. rewrite chain_from_app. simpl. by rewrite last_snoc.
Qed.

(** ** Guarded insertions on a dense dictionary *)

Lemma forM__ext {A} (l : list A) (f f' : A → M unit) g :
  (∀ x g, x ∈ l → f x g = f' x g) → forM_ l f g = forM_ l f' g.
Proof.
  revert g; induction l as [|x l IH]; intros g Hext; simpl; [done|].
  rewrite !bind_eq, Hext by left.
  destruct (f' x g) as [[[] g']|e]; [|done].
  apply IH. intros. apply Hext. by right.
Qed.

Lemma forM__fmap {A B} (h : A → B) (l : list A) (f : B → M unit) g :
  forM_ (h <$> l) f g = forM_ l (λ x, f (h x)) g.
Proof.
  revert g; induction l as [|x l IH]; intros g; simpl; [done|].
  rewrite !bind_eq. destruct (f (h x) g) as [[[] g']|e]; [|done]. apply IH.
Qed.

Lemma forM__filter {A} (P : A → Prop) `{∀ x, Decision (P x)}
    (l : list A) (f : A → M unit) g :
  forM_ l (λ x, if bool_decide (P x) then f x else mret ()) g
  = forM_ (filter P l) f g.
Proof.
  revert g; induction l as [|x l IH]; intros g; simpl; [done|].
  rewrite filter_cons. rewrite bind_eq.
  destruct (decide (P x)) as [HP|HP].
  - rewrite bool_decide_eq_true_2 by done. simpl. rewrite bind_eq.
    destruct (f x g) as [[[] g']|e]; [|done]. apply IH.
  - rewrite bool_decide_eq_false_2 by done. simpl. apply IH.
Qed.

Lemma length_try_leaf hs L a : length (try_leaf hs L a) = length L.
Proof.
  unfold try_leaf. destruct (L !! leaf_from a); [|done].
  destruct (leaf_blocked hs l a); [done|]. by rewrite length_insert.
Qed.

Lemma length_foldl_try_leaf hs leaves L :
  length (foldl (try_leaf hs) L leaves) = length L.
Proof.
  revert L; induction leaves as [|a leaves IH]; intros L; simpl; [done|].
  by rewrite IH, length_try_leaf.
Qed.

Lemma addLeaf_dense id ws L c i hs a :
  leaf_from a < length L →
  addLeaf a (mkFST id ws (dense L) c i hs)
  = Ok ((), mkFST id ws (dense (try_leaf hs L a)) c i hs).
Proof.
  intros Hlt. unfold try_leaf.
  destruct (lookup_lt_is_Some_2 L _ Hlt) as [items Hitems].
  destruct a as [f t il ol w|s w]; simpl in *.
  - rewrite addArc_eq. simpl. rewrite dict_get_dense, Hitems.
    destruct (blocked hs items il); [done|].
    unfold set_states; simpl. by rewrite dict_set_dense_lt.
  - rewrite addFinalState_eq. simpl. rewrite dict_get_dense, Hitems.
    unfold set_states; simpl. by rewrite dict_set_dense_lt.
Qed.

Lemma forM_addLeaf_dense id ws c i hs leaves L :
  Forall (λ a, leaf_from a < length L) leaves →
  forM_ leaves addLeaf (mkFST id ws (dense L) c i hs)
  = Ok ((), mkFST id ws (dense (foldl (try_leaf hs) L leaves)) c i hs).
Proof.
  revert L; induction leaves as [|a leaves IH]; intros L Hall; simpl; [done|].
  inversion Hall as [|? ? Ha Hrest]; subst.
  rewrite bind_eq, addLeaf_dense by done.
  apply IH. by rewrite length_try_leaf.
Qed.

Lemma try_leaf_lookup_ne hs L a j :
  leaf_from a ≠ j → try_leaf hs L a !! j = L !! j.
Proof.
  intros Hne. unfold try_leaf. destruct (L !! leaf_from a); [|done].
  destruct (leaf_blocked hs l a); [done|]. by rewrite list_lookup_insert_ne.
Qed.

Lemma try_leaf_lookup_eq hs L a items :
  L !! leaf_from a = Some items →
  try_leaf hs L a !! leaf_from a
  = Some (items ++ if leaf_blocked hs items a then [] else [a]).
Proof.
  intros Hitems. unfold try_leaf. rewrite Hitems.
  destruct (leaf_blocked hs items a).
  - by rewrite app_nil_r.
  - rewrite list_lookup_insert_eq; [done|]. by eapply lookup_lt_Some.
Qed.

Lemma foldl_try_leaf_lookup_other hs leaves L j :
  Forall (λ a, leaf_from a ≠ j) leaves →
  foldl (try_leaf hs) L leaves !! j = L !! j.
Proof.
  revert L; induction leaves as [|a leaves IH]; intros L Hall; simpl; [done|].
  inversion Hall; subst. rewrite IH by done. by apply try_leaf_lookup_ne.
Qed.

(** Every state is the source of at most one of the attempted leaves: each
    attempt meets the list its source state had at the start. *)
Lemma foldl_try_leaf_lookup_at hs leaves L a items :
  NoDup (leaf_from <$> leaves) →
  a ∈ leaves →
  L !! leaf_from a = Some items →
  foldl (try_leaf hs) L leaves !! leaf_from a
  = Some (items ++ if leaf_blocked hs items a then [] else [a]).
Proof.
  revert L; induction leaves as [|b leaves IH]; intros L Hnd Hin Hitems.
  - by apply elem_of_nil in Hin.
  - rewrite fmap_cons in Hnd. apply NoDup_cons in Hnd as [Hb Hnd]. simpl.
    apply elem_of_cons in Hin as [->|Hin].
    + rewrite foldl_try_leaf_lookup_other.
      * by apply try_leaf_lookup_eq.
      * apply Forall_forall. intros a' Ha' Heq. apply Hb.
        rewrite <- Heq. apply list_elem_of_fmap. eauto.
    + apply IH; [done|done|].
      rewrite try_leaf_lookup_ne; [done|].
      intros Heq. apply Hb. rewrite Heq. apply list_elem_of_fmap. eauto.
Qed.

Lemma foldl_try_leaf_lookup_fresh hs leaves L a :
  NoDup (leaf_from <$> leaves) →
  a ∈ leaves →
  L !! leaf_from a = Some [] →
  foldl (try_leaf hs) L leaves !! leaf_from a = Some [a].
Proof.
  intros Hnd Hin Hnil. rewrite (foldl_try_leaf_lookup_at hs leaves L a []) by done.
  destruct a; simpl; by rewrite ?blocked_nil.
Qed.

Lemma try_leaf_app hs L a X :
  leaf_from a < length L →
  try_leaf hs (L ++ X) a = try_leaf hs L a ++ X.
Proof.
  intros Hlt. unfold try_leaf. rewrite lookup_app_l by done.
  destruct (L !! leaf_from a); [|done].
  destruct (leaf_blocked hs l a); [done|].
  by rewrite insert_app_l.
Qed.

Lemma foldl_try_leaf_app hs leaves L X :
  Forall (λ a, leaf_from a < length L) leaves →
  foldl (try_leaf hs) (L ++ X) leaves = foldl (try_leaf hs) L leaves ++ X.
Proof.
  revert L; induction leaves as [|a leaves IH]; intros L Hall; simpl; [done|].
  inversion Hall; subst. rewrite try_leaf_app by done.
  apply IH. by rewrite length_try_leaf.
Qed.

(** ** Reading the prompt *)

Lemma exec_bind {A B} (m : M A) (k : A → M B) g :
  exec (m ≫= k) g =
  match m g with Ok (a, g') => exec (k a) g' | Raise e => Raise e end.
Proof. unfold exec. rewrite bind_eq. by destruct (m g) as [[a g']|e]. Qed.

Lemma addNextWord_first hs id l :
  addNextWord l (init hs id) = Ok ((), chain_init hs id [l]).
Proof. reflexivity. Qed.

Lemma addNextWord_dense id ws w L c hs l :
  last ws = Some w → length L = S c →
  addNextWord l (mkFST id ws (dense L) c true hs)
  = Ok ((), mkFST id (ws ++ [mkWord l (final w) (S c)]) (dense (L ++ [[]])) (S c) true hs).
Proof.
  intros Hlast Hlen.
  unfold addNextWord. rewrite bind_eq. cbn [gets initialised negb].
  rewrite bind_eq, curr_word_eq. cbn [initialised words]. rewrite Hlast.
  rewrite bind_eq, newState_eq. cbn [state_counter states words ID initialised homophones].
  unfold modify, words_append.
  cbn [state_counter states words ID initialised homophones final].
  by rewrite <- Hlen, dict_set_dense_end.
Qed.

Lemma addNextWord_chain hs id p l :
  p ≠ [] →
  addNextWord l (chain_init hs id p) = Ok ((), chain_init hs id (p ++ [l])).
Proof.
  intros Hp. destruct (exists_last Hp) as (p' & l' & ->). clear Hp.
  assert (Hc : ∀ q x, chain_init hs id (q ++ [x]) =
     mkFST id (chain_words (q ++ [x]))
           (dense (replicate (S (length (q ++ [x]))) [])) (length (q ++ [x])) true hs).
  { intros q x. unfold chain_init. destruct (q ++ [x]) eqn:E; [|done]. by destruct q. }
  rewrite !Hc.
  erewrite addNextWord_dense;
    [|apply last_chain_words|by rewrite length_replicate, !length_app; simpl; lia].
  do 2 f_equal.
  assert (Hlen : length ((p' ++ [l']) ++ [l]) = S (length (p' ++ [l']))).
  { rewrite (length_app (p' ++ [l'])). simpl. lia. }
  rewrite Hlen. f_equal.
  - unfold chain_words. rewrite (chain_from_app 0 (p' ++ [l'])).
    simpl. rewrite !length_app. simpl.
    by replace (length p' + 1) with (S (length p')) by lia.
  - f_equal.
    change ([[]] : list (list Leaf)) with (replicate 1 ([] : list Leaf)).
    rewrite <- replicate_add. f_equal. lia.
Qed.

Lemma addWordSequence_init hs id prompt :
  addWordSequence prompt (init hs id) = Ok ((), chain_init hs id prompt).
Proof.
  unfold addWordSequence.
  induction prompt as [|l p IH] using rev_ind; [done|].
  rewrite forM__app, bind_eq, IH. simpl. rewrite bind_eq.
  destruct p as [|x p].
  - reflexivity.
  - by rewrite addNextWord_chain.
Qed.

Lemma chain_init_chain_graph hs id prompt :
  prompt ≠ [] → chain_graph prompt (chain_init hs id prompt).
Proof.
  intros Hp. destruct prompt as [|l p]; [done|].
  unfold chain_graph, chain_init. simpl words. simpl initialised.
  simpl state_counter. cbv beta iota delta [states].
  rewrite dict_values_dense, length_dense, length_replicate. done.
Qed.

(** ** The recipes on a graph that carries a word chain *)

Lemma chain_graph_chainG prompt g :
  chain_graph prompt g →
  ∃ L, g = chainG (ID g) prompt L (homophones g) ∧
       L = dict_values (states g) ∧
       length L = S (state_counter g) ∧ length prompt < length L.
Proof.
  intros (Hw & Hd & Hlen & Hn & Hi).
  exists (dict_values (states g)).
  assert (Hl : length (dict_values (states g)) = S (state_counter g)).
  { unfold dict_values. by rewrite length_fmap. }
  split; [|split; [done|split; [done|lia]]].
  unfold chainG. rewrite <- Hw, <- Hd, Hl. simpl. rewrite <- Hi. by destruct g.
Qed.

Lemma chainG_chain_graph id prompt L hs :
  length prompt < length L → chain_graph prompt (chainG id prompt L hs).
Proof.
  intros Hlt. unfold chain_graph, chainG.
  cbn [words states state_counter initialised].
  rewrite dict_values_dense, length_dense. repeat split; lia.
Qed.

Lemma chain_words_start_lt p w : w ∈ chain_words p → start w < length p.
Proof.
  intros (i & Hi)%list_elem_of_lookup. rewrite chain_words_lookup in Hi.
  destruct (p !! i) as [l|] eqn:E; [|done]. injection Hi as <-. simpl.
  by eapply lookup_lt_Some.
Qed.

Lemma chain_words_final_le p w : w ∈ chain_words p → final w ≤ length p.
Proof.
  intros (i & Hi)%list_elem_of_lookup. rewrite chain_words_lookup in Hi.
  destruct (p !! i) as [l|] eqn:E; [|done]. injection Hi as <-. simpl.
  apply lookup_lt_Some in E. lia.
Qed.

Lemma last_leaf_from_le p mk w :
  (∀ w, w ∈ chain_words p → leaf_from (mk w) ≤ length p) →
  w ∈ last_leaf (chain_words p) mk → leaf_from w ≤ length p.
Proof.
  intros Hmk. unfold last_leaf.
  destruct (last (chain_words p)) as [lw|] eqn:E.
  - intros ->%list_elem_of_singleton. apply Hmk. by eapply last_Some_elem_of.
  - by intros ?%elem_of_nil.
Qed.

(** The tail of each recipe: the call on the last word. *)
Lemma last_call_dense id p L hs (mk : Word → Leaf) (k : Word → M unit) :
  p ≠ [] → length p < length L →
  (∀ w, w ∈ chain_words p → leaf_from (mk w) ≤ length p) →
  (∀ w g, k w g = addLeaf (mk w) g) →
  (ws' ← gets words; lastw ← list_last ws'; k lastw) (chainG id p L hs)
  = Ok ((), chainG id p (foldl (try_leaf hs) L (last_leaf (chain_words p) mk)) hs).
Proof.
  intros Hp Hlt Hmk Hk.
  rewrite bind_eq. cbn [gets chainG words].
  destruct (exists_last Hp) as (p' & l & ->).
  unfold last_leaf, list_last. rewrite last_chain_words.
  rewrite bind_eq. cbn [mret M_ret]. rewrite Hk.
  unfold chainG. rewrite addLeaf_dense.
  - cbn [foldl]. by rewrite length_try_leaf.
  - eapply Nat.le_lt_trans; [|exact Hlt]. apply Hmk.
    eapply last_Some_elem_of, last_chain_words.
Qed.

(** The loop of a recipe that allocates no state, followed by its call on
    the last word. *)
Lemma recipe_dense id p L hs (loop : M unit) (leaves : list Leaf)
    (mk : Word → Leaf) (k : Word → M unit) :
  p ≠ [] → length p < length L →
  (∀ g, loop g = forM_ leaves addLeaf g) →
  (∀ a, a ∈ leaves → leaf_from a ≤ length p) →
  (∀ w, w ∈ chain_words p → leaf_from (mk w) ≤ length p) →
  (∀ w g, k w g = addLeaf (mk w) g) →
  (loop ;; ws' ← gets words; lastw ← list_last ws'; k lastw) (chainG id p L hs)
  = Ok ((), chainG id p
              (foldl (try_leaf hs) L (leaves ++ last_leaf (chain_words p) mk)) hs).
Proof.
  intros Hp Hlt Hloop Hleaves Hmk Hk.
  rewrite bind_eq, Hloop. unfold chainG at 1.
  rewrite forM_addLeaf_dense.
  - rewrite foldl_app.
    pose proof (last_call_dense id p (foldl (try_leaf hs) L leaves) hs mk k) as Hl.
    unfold chainG at 1 in Hl. rewrite length_foldl_try_leaf in Hl.
    by rewrite Hl.
  - apply Forall_forall. intros a Ha. specialize (Hleaves a Ha). lia.
Qed.

Lemma addCorrectPaths_dense W id p L hs :
  p ≠ [] → length p < length L →
  addCorrectPaths W (chainG id p L hs)
  = Ok ((), chainG id p (foldl (try_leaf hs) L (correct_leaves W (chain_words p))) hs).
Proof.
  intros Hp Hlt. unfold addCorrectPaths. rewrite bind_eq. cbn [gets chainG words].
  apply recipe_dense; try done.
  - intros g. by rewrite forM__fmap.
  - intros a (w & -> & Hw)%list_elem_of_fmap. simpl.
    apply chain_words_start_lt in Hw. lia.
  - intros w Hw. simpl. by apply chain_words_final_le.
Qed.

Lemma addRubbishPaths_dense W id p L hs :
  p ≠ [] → length p < length L →
  addRubbishPaths W (chainG id p L hs)
  = Ok ((), chainG id p (foldl (try_leaf hs) L (rubbish_leaves W (chain_words p))) hs).
Proof.
  intros Hp Hlt. unfold addRubbishPaths. rewrite bind_eq. cbn [gets chainG words].
  apply (recipe_dense id p L hs _ _ (λ w, rubbish_arc W (final w))); try done.
  - intros g. by rewrite forM__fmap.
  - intros a (w & -> & Hw)%list_elem_of_fmap. simpl.
    apply chain_words_start_lt in Hw. lia.
  - intros w Hw. simpl. by apply chain_words_final_le.
Qed.

(** The adjacent pairs of a word chain. *)
Lemma adjacent_pairs_lookup p i pr :
  adjacent_pairs (chain_words p) !! i = Some pr ↔
  ∃ a b, p !! i = Some a ∧ p !! S i = Some b ∧
         pr = (mkWord a i (S i), mkWord b (S i) (S (S i))).
Proof.
  unfold adjacent_pairs. rewrite lookup_zip_with, lookup_tail, !chain_words_lookup.
  destruct (p !! i) as [a|]; simpl.
  - destruct (p !! S i) as [b|]; simpl.
    + split; [intros [= <-]; eauto|]. by intros (? & ? & [= <-] & [= <-] & ->).
    + split; [done|]. by intros (? & ? & _ & ? & _).
  - split; [done|]. by intros (? & ? & ? & _).
Qed.

Lemma adjacent_pairs_elem p pr :
  pr ∈ adjacent_pairs (chain_words p) ↔
  ∃ i a b, p !! i = Some a ∧ p !! S i = Some b ∧
           pr = (mkWord a i (S i), mkWord b (S i) (S (S i))).
Proof.
  rewrite list_elem_of_lookup. split.
  - intros (i & Hi). apply adjacent_pairs_lookup in Hi as (a & b & Hab).
    by exists i, a, b.
  - intros (i & a & b & Hab). exists i. apply adjacent_pairs_lookup. by exists a, b.
Qed.

Lemma NoDup_adjacent_pairs p : NoDup (adjacent_pairs (chain_words p)).
Proof.
  apply NoDup_alt. intros i j pr Hi Hj.
  apply adjacent_pairs_lookup in Hi as (a & b & _ & _ & ->).
  apply adjacent_pairs_lookup in Hj as (a' & b' & _ & _ & Heq).
  by injection Heq.
Qed.

Lemma addRepeatPaths_dense W id p L hs :
  p ≠ [] → length p < length L →
  addRepeatPaths W (chainG id p L hs)
  = Ok ((), chainG id p (foldl (try_leaf hs) L (repeat_leaves W (chain_words p))) hs).
Proof.
  intros Hp Hlt. unfold addRepeatPaths. rewrite bind_eq. cbn [gets chainG words].
  apply (recipe_dense id p L hs _ _ (repeat_arc W)); try done.
  - intros g. rewrite forM__fmap.
    rewrite <- (forM__filter distinct_pair).
    apply forM__ext. by intros [w nw] g' _.
  - intros a (pr & -> & Hpr)%list_elem_of_fmap.
    apply list_elem_of_filter in Hpr as [_ Hpr].
    apply adjacent_pairs_elem in Hpr as (i & x & y & _ & Hy & ->). simpl.
    apply lookup_lt_Some in Hy. lia.
  - intros w Hw. simpl. by apply chain_words_final_le.
Qed.

(** The skip recipe allocates a state for each pair it treats. *)
Lemma newState_dense id ws L hs i :
  L ≠ [] →
  newState (mkFST id ws (dense L) (pred (length L)) i hs)
  = Ok (length L, mkFST id ws (dense (L ++ [[]])) (pred (length (L ++ [[]]))) i hs).
Proof.
  intros HL. rewrite newState_eq.
  cbn [state_counter states words ID initialised homophones].
  assert (S (pred (length L)) = length L) as -> by (destruct L; [done|simpl; lia]).
  rewrite dict_set_dense_end, length_app. simpl.
  by replace (pred (length L + 1)) with (length L) by lia.
Qed.

Lemma skip_step_dense W id ws L hs pr :
  start pr.1 < length L →
  (skip_state ← newState;
   addArc (start pr.1) skip_state (label pr.2) special_labels.Skip (Skip W);;
   addArc skip_state (final pr.2) special_labels.Epsilon (label pr.2) (Correct W))
    (mkFST id ws (dense L) (pred (length L)) true hs)
  = Ok ((), let L' := try_leaf hs L (skip_in_arc W (length L) pr)
                      ++ [[skip_out_arc W (length L) pr]] in
            mkFST id ws (dense L') (pred (length L')) true hs).
Proof.
  intros Hlt. assert (HL : L ≠ []) by (destruct L; [simpl in Hlt; lia|done]).
  rewrite bind_eq, newState_dense by done.
  rewrite bind_eq.
  change (addArc (start pr.1) (length L) (label pr.2) special_labels.Skip (Skip W))
    with (addLeaf (skip_in_arc W (length L) pr)).
  rewrite addLeaf_dense by (rewrite length_app; simpl; lia).
  change (addArc (length L) (final pr.2) special_labels.Epsilon (label pr.2) (Correct W))
    with (addLeaf (skip_out_arc W (length L) pr)).
  rewrite addLeaf_dense
    by (rewrite length_try_leaf, length_app; simpl; lia).
  rewrite try_leaf_app by done.
  assert (Hout : try_leaf hs (try_leaf hs L (skip_in_arc W (length L) pr) ++ [[]])
                   (skip_out_arc W (length L) pr)
                 = try_leaf hs L (skip_in_arc W (length L) pr)
                   ++ [[skip_out_arc W (length L) pr]]).
  { set (X := try_leaf hs L (skip_in_arc W (length L) pr)).
    assert (HX : length X = length L) by apply length_try_leaf.
    unfold try_leaf, skip_out_arc, leaf_from, leaf_blocked. rewrite <- HX.
    rewrite list_lookup_middle by done. rewrite blocked_nil.
    rewrite (insert_app_r_alt _ _ (length X)) by lia.
    by rewrite Nat.sub_diag. }
  rewrite Hout. cbv zeta.
  by rewrite !length_app, length_try_leaf.
Qed.

Lemma skip_loop_dense W id ws hs pairs L :
  Forall (λ pr, start pr.1 < length L) pairs → L ≠ [] →
  forM_ pairs (λ '(word, next_word),
    if bool_decide (label word ≠ label next_word) then
      skip_state ← newState;
      addArc (start word) skip_state
             (label next_word) special_labels.Skip (Skip W);;
      addArc skip_state (final next_word)
             special_labels.Epsilon (label next_word) (Correct W)
    else mret ())
    (mkFST id ws (dense L) (pred (length L)) true hs)
  = Ok ((), let L' := foldl (try_leaf hs) L (skip_in_leaves W (length L) pairs)
                      ++ skip_out_lists W (length L) pairs in
            mkFST id ws (dense L') (pred (length L')) true hs).
Proof.
  revert L. induction pairs as [|[w nw] pairs IH]; intros L Hall HL.
  - simpl. by rewrite app_nil_r.
  - inversion Hall as [|? ? Hw Hrest]; subst.
    cbn [forM_]. rewrite bind_eq.
    unfold skip_in_leaves, skip_out_lists. cbn [skip_states].
    destruct (decide (distinct_pair (w, nw))) as [Hd|Hd].
    + rewrite bool_decide_eq_true_2 by exact Hd.
      pose proof (skip_step_dense W id ws L hs (w, nw) Hw) as Hs.
      cbn [fst snd] in Hs. rewrite Hs. clear Hs. cbv zeta.
      set (L1 := try_leaf hs L (skip_in_arc W (length L) (w, nw))
                 ++ [[skip_out_arc W (length L) (w, nw)]]).
      assert (Hlen1 : length L1 = S (length L)).
      { unfold L1. rewrite length_app, length_try_leaf. simpl. lia. }
      rewrite IH.
      * cbv zeta. rewrite Hlen1. rewrite !fmap_cons. cbn [foldl fst snd].
        unfold L1 at 1 2. unfold skip_in_leaves, skip_out_lists.
        rewrite foldl_try_leaf_app.
        -- by rewrite <- !app_assoc.
        -- apply Forall_forall.
           intros a ((s & pr) & -> & Hin)%list_elem_of_fmap.
           rewrite length_try_leaf. simpl.
           assert (pr ∈ pairs) as Hpr.
           { clear -Hin. revert Hin. generalize (S (length L)).
             induction pairs as [|q pairs IHp]; intros n; simpl.
             - by intros ?%elem_of_nil.
             - destruct (decide (distinct_pair q)).
               + intros [[= _ ->]|?]%elem_of_cons; [left|right; eauto].
               + intros ?. right; eauto. }
           by apply (proj1 (Forall_forall _ _) Hrest) in Hpr.
      * rewrite Hlen1. eapply Forall_impl; [exact Hrest|]. simpl. lia.
      * unfold L1. by destruct (try_leaf hs L _).
    + rewrite bool_decide_eq_false_2 by exact Hd. simpl.
      by rewrite IH.
Qed.

Lemma skip_states_snd s pairs :
  snd <$> skip_states s pairs = filter distinct_pair pairs.
Proof.
  revert s; induction pairs as [|pr pairs IH]; intros s; simpl; [done|].
  rewrite filter_cons. destruct (decide (distinct_pair pr)); simpl; by rewrite IH.
Qed.

Lemma skip_states_elem s sp pairs :
  sp ∈ skip_states s pairs → sp.2 ∈ pairs ∧ distinct_pair sp.2.
Proof.
  intros Hin.
  assert (sp.2 ∈ snd <$> skip_states s pairs) as Hsnd
    by (apply list_elem_of_fmap; eauto).
  rewrite skip_states_snd in Hsnd. apply list_elem_of_filter in Hsnd. tauto.
Qed.

Lemma skip_in_leaves_from W s pairs :
  leaf_from <$> skip_in_leaves W s pairs
  = (λ pr, start pr.1) <$> filter distinct_pair pairs.
Proof.
  rewrite <- (skip_states_snd s). unfold skip_in_leaves.
  rewrite <- !list_fmap_compose. by apply list_fmap_ext.
Qed.

Lemma addSkipPaths_dense W id p L hs :
  p ≠ [] → length p < length L →
  addSkipPaths W (chainG id p L hs)
  = Ok ((), chainG id p
              (foldl (try_leaf hs) L
                 (skip_in_leaves W (length L) (adjacent_pairs (chain_words p))
                  ++ last_leaf (chain_words p) (skip_last_arc W))
               ++ skip_out_lists W (length L) (adjacent_pairs (chain_words p))) hs).
Proof.
  intros Hp Hlt. unfold addSkipPaths. rewrite bind_eq. cbn [gets chainG words].
  rewrite bind_eq.
  assert (Hstarts : Forall (λ pr : Word * Word, start pr.1 < length L)
                      (adjacent_pairs (chain_words p))).
  { apply Forall_forall. intros pr (i & a & b & Ha & _ & ->)%adjacent_pairs_elem.
    simpl. apply lookup_lt_Some in Ha. lia. }
  unfold chainG at 1.
  rewrite skip_loop_dense; [|done|by destruct L; [simpl in Hlt; lia|]].
  cbv zeta.
  set (pairs := adjacent_pairs (chain_words p)) in *.
  set (L1 := foldl (try_leaf hs) L (skip_in_leaves W (length L) pairs)).
  assert (Hlen1 : length L1 = length L) by apply length_foldl_try_leaf.
  pose proof (last_call_dense id p (L1 ++ skip_out_lists W (length L) pairs) hs
                (skip_last_arc W)
                (λ w, addArc (start w) (final w) special_labels.Epsilon
                             special_labels.Skip (Skip W)) Hp) as Hl.
  unfold chainG at 1 in Hl. rewrite Hl; clear Hl.
  - do 2 f_equal. f_equal. rewrite foldl_app. fold L1.
    apply foldl_try_leaf_app.
    apply Forall_forall. intros a Ha. rewrite Hlen1.
    eapply Nat.le_lt_trans; [|exact Hlt].
    apply (last_leaf_from_le p (skip_last_arc W)); [|done].
    intros w Hw. simpl. apply chain_words_start_lt in Hw. lia.
  - rewrite length_app. lia.
  - intros w Hw. simpl. apply chain_words_start_lt in Hw. lia.
  - done.
Qed.

(** ** The sources of a recipe's leaves are pairwise distinct *)

Lemma last_chain_words_of p l :
  last p = Some l →
  last (chain_words p) = Some (mkWord l (pred (length p)) (length p)).
Proof.
  intros (p' & ->)%last_Some. rewrite last_chain_words, length_app. simpl.
  by replace (length p' + 1) with (S (length p')) by lia.
Qed.

Lemma last_leaf_chain p l mk :
  last p = Some l →
  last_leaf (chain_words p) mk = [mk (mkWord l (pred (length p)) (length p))].
Proof. intros Hl. unfold last_leaf. by rewrite (last_chain_words_of p l). Qed.

Lemma last_is_Some {A} (l : list A) : l ≠ [] → ∃ x, last l = Some x.
Proof.
  intros Hl. destruct (exists_last Hl) as (l' & x & ->).
  exists x. apply last_snoc.
Qed.

Lemma NoDup_chain_words p : NoDup (chain_words p).
Proof.
  apply NoDup_alt. intros i j w Hi Hj. rewrite chain_words_lookup in Hi, Hj.
  destruct (p !! i); [|done]. destruct (p !! j); [|done].
  simpl in *. congruence.
Qed.

Lemma chain_words_elem p w :
  w ∈ chain_words p ↔ ∃ i l, p !! i = Some l ∧ w = mkWord l i (S i).
Proof.
  rewrite list_elem_of_lookup. split.
  - intros (i & Hi). rewrite chain_words_lookup in Hi.
    destruct (p !! i) as [l|] eqn:E; [|done]. injection Hi as <-. eauto.
  - intros (i & l & Hl & ->). exists i. by rewrite chain_words_lookup, Hl.
Qed.

(** Sources below a bound, pairwise distinct, then one source at the bound. *)
Lemma NoDup_froms {A} (xs : list A) (arc : A → Leaf) (lastl : Leaf) bound :
  NoDup xs →
  (∀ x y, x ∈ xs → y ∈ xs → leaf_from (arc x) = leaf_from (arc y) → x = y) →
  (∀ x, x ∈ xs → leaf_from (arc x) < bound) →
  leaf_from lastl = bound →
  NoDup (leaf_from <$> ((arc <$> xs) ++ [lastl])).
Proof.
  intros Hnd Hinj Hlt Hlast. rewrite fmap_app. apply NoDup_app. split; [|split].
  - rewrite <- list_fmap_compose. by apply NoDup_fmap_2_strong.
  - intros j Hj ->%list_elem_of_singleton.
    rewrite <- list_fmap_compose in Hj.
    apply list_elem_of_fmap in Hj as (x & Hx & Hin). simpl in Hx.
    specialize (Hlt x Hin). lia.
  - apply NoDup_singleton.
Qed.

Lemma NoDup_correct_leaves W p :
  p ≠ [] → NoDup (leaf_from <$> correct_leaves W (chain_words p)).
Proof.
  intros Hp. destruct (last_is_Some p Hp) as (l & Hl).
  unfold correct_leaves. rewrite (last_leaf_chain p l) by done.
  apply (NoDup_froms _ _ _ (length p)).
  - apply NoDup_chain_words.
  - intros x y (i & a & Ha & ->)%chain_words_elem (j & b & Hb & ->)%chain_words_elem.
    simpl. intros ->. congruence.
  - intros x Hx. simpl. by apply chain_words_start_lt.
  - done.
Qed.

Lemma NoDup_repeat_leaves W p :
  p ≠ [] → NoDup (leaf_from <$> repeat_leaves W (chain_words p)).
Proof.
  intros Hp. destruct (last_is_Some p Hp) as (l & Hl).
  unfold repeat_leaves. rewrite (last_leaf_chain p l) by done.
  apply (NoDup_froms _ _ _ (length p)).
  - apply NoDup_filter, NoDup_adjacent_pairs.
  - intros x y [_ Hx]%list_elem_of_filter [_ Hy]%list_elem_of_filter.
    apply adjacent_pairs_elem in Hx as (i & a & b & Ha & Hb & ->).
    apply adjacent_pairs_elem in Hy as (j & a' & b' & Ha' & Hb' & ->).
    simpl. intros [= ->]. congruence.
  - intros x [_ Hx]%list_elem_of_filter.
    apply adjacent_pairs_elem in Hx as (i & a & b & _ & Hb & ->).
    simpl. by apply lookup_lt_Some in Hb.
  - done.
Qed.

Lemma NoDup_skip_states s pairs : NoDup pairs → NoDup (skip_states s pairs).
Proof.
  intros Hnd. apply (NoDup_fmap_1 snd). rewrite skip_states_snd.
  by apply NoDup_filter.
Qed.

Lemma NoDup_skip_leaves W s p :
  p ≠ [] →
  NoDup (leaf_from <$> (skip_in_leaves W s (adjacent_pairs (chain_words p))
                        ++ last_leaf (chain_words p) (skip_last_arc W))).
Proof.
  intros Hp. destruct (last_is_Some p Hp) as (l & Hl).
  rewrite (last_leaf_chain p l) by done. unfold skip_in_leaves.
  apply (NoDup_froms _ _ _ (pred (length p))).
  - apply NoDup_skip_states, NoDup_adjacent_pairs.
  - intros sp sp' Hsp Hsp' Hfrom.
    assert (Hsnd : sp.2 = sp'.2).
    { pose proof (skip_states_elem _ _ _ Hsp) as [Hx _].
      pose proof (skip_states_elem _ _ _ Hsp') as [Hy _].
      apply adjacent_pairs_elem in Hx as (i & a & b & Ha & Hb & Ex).
      apply adjacent_pairs_elem in Hy as (j & a' & b' & Ha' & Hb' & Ey).
      unfold skip_in_arc in Hfrom. simpl in Hfrom.
      rewrite Ex, Ey in Hfrom. simpl in Hfrom. subst j.
      rewrite Ex, Ey. congruence. }
    assert (Hnd2 : NoDup (snd <$> skip_states s (adjacent_pairs (chain_words p)))).
    { rewrite skip_states_snd. apply NoDup_filter, NoDup_adjacent_pairs. }
    apply list_elem_of_lookup in Hsp as (k & Hk).
    apply list_elem_of_lookup in Hsp' as (k' & Hk').
    assert (k = k') as ->.
    { eapply NoDup_lookup; [exact Hnd2| |].
      - by rewrite list_lookup_fmap, Hk.
      - by rewrite list_lookup_fmap, Hk', Hsnd. }
    congruence.
  - intros [s1 x] Hx. pose proof (skip_states_elem _ _ _ Hx) as [Hx' _].
    simpl in Hx'.
    apply adjacent_pairs_elem in Hx' as (i & a & b & _ & Hb & ->).
    simpl. apply lookup_lt_Some in Hb. lia.
  - done.
Qed.

(** ** The correct path *)

Lemma chain_init_chainG hs id p :
  p ≠ [] → chain_init hs id p = chainG id p (replicate (S (length p)) []) hs.
Proof.
  intros Hp. destruct p as [|l p]; [done|].
  unfold chain_init, chainG. by rewrite length_replicate.
Qed.

Lemma exec_correct_chain W hs id p :
  p ≠ [] →
  exec (addWordSequence p ;; addCorrectPaths W) (init hs id)
  = Ok (chainG id p (foldl (try_leaf hs) (replicate (S (length p)) [])
                       (correct_leaves W (chain_words p))) hs).
Proof.
  intros Hp. rewrite exec_bind, addWordSequence_init, chain_init_chainG by done.
  unfold exec. rewrite addCorrectPaths_dense; [done|done|].
  rewrite length_replicate. lia.
Qed.

Lemma correct_chain_lookup_word W hs p i l :
  p !! i = Some l →
  foldl (try_leaf hs) (replicate (S (length p)) []) (correct_leaves W (chain_words p)) !! i
  = Some [correct_arc W (mkWord l i (S i))].
Proof.
  intros Hl. assert (Hp : p ≠ []) by (by destruct p).
  apply (foldl_try_leaf_lookup_fresh hs _ _ (correct_arc W (mkWord l i (S i)))).
  - by apply NoDup_correct_leaves.
  - unfold correct_leaves. apply elem_of_app. left.
    apply list_elem_of_fmap. exists (mkWord l i (S i)). split; [done|].
    apply chain_words_elem. eauto.
  - apply lookup_replicate_2. apply lookup_lt_Some in Hl. simpl. lia.
Qed.

Lemma correct_chain_lookup_final W hs p :
  p ≠ [] →
  foldl (try_leaf hs) (replicate (S (length p)) []) (correct_leaves W (chain_words p))
    !! length p
  = Some [FinalState (length p) (FinalStateW W)].
Proof.
  intros Hp. destruct (last_is_Some p Hp) as (l & Hl).
  apply (foldl_try_leaf_lookup_fresh hs _ _
           (final_marker W (mkWord l (pred (length p)) (length p)))).
  - by apply NoDup_correct_leaves.
  - unfold correct_leaves. apply elem_of_app. right.
    rewrite (last_leaf_chain p l) by done. by apply list_elem_of_singleton.
  - apply lookup_replicate_2. simpl. lia.
Qed.

Lemma path_chain W g n q :
  (∀ i l, q !! i = Some l →
     ∃ items, dict_get (states g) (n + i) = Some items ∧
              correct_arc W (mkWord l (n + i) (S (n + i))) ∈ items) →
  path g n (correct_arc W <$> chain_from n q) (n + length q).
Proof.
  revert n. induction q as [|l q IH]; intros n Hq; simpl.
  - replace (n + 0) with n by lia. constructor.
  - destruct (Hq 0 l eq_refl) as (items & Hget & Hin).
    replace (n + 0) with n in Hget, Hin by lia.
    unfold correct_arc at 1. simpl.
    eapply path_cons; [exact Hget|exact Hin|].
    replace (n + S (length q)) with (S n + length q) by lia.
    apply IH. intros i l' Hl'.
    replace (S n + i) with (n + S i) by lia. by apply (Hq (S i)).
Qed.

Lemma read_labels_chain W n q :
  Forall (λ l, ¬ is_special l) q →
  read_labels (correct_arc W <$> chain_from n q) = q.
Proof.
  unfold read_labels. revert n. induction q as [|l q IH]; intros n Hq; [done|].
  inversion Hq as [|? ? Hl Hrest]; subst. simpl.
  rewrite filter_cons_True by done. f_equal. by apply IH.
Qed.

(** The words' arcs form a path from the initial state to the marked
    state. *)
Lemma correct_path_chain W hs id p :
  p ≠ [] →
  path (chainG id p (after_correct hs W p) hs) initial_state
       (correct_arc W <$> chain_words p) (length p) ∧
  accepting (chainG id p (after_correct hs W p) hs) (length p).
Proof.
  intros Hp. unfold chainG, after_correct. split.
  - apply (path_chain W _ 0 p). intros i l Hl. simpl. cbn [states].
    eexists. rewrite dict_get_dense.
    split; [by apply correct_chain_lookup_word|]. by apply list_elem_of_singleton.
  - exists [FinalState (length p) (FinalStateW W)], (FinalStateW W).
    cbn [states]. rewrite dict_get_dense.
    split; [by apply correct_chain_lookup_final|]. by apply list_elem_of_singleton.
Qed.

(** C5, for prompts without special labels.  For a non-empty prompt whose
    words are none of the special labels,
    run the correct-path recipe on the word chain.  Every word then has its
    arc from its start to its final state, labelled with the word on both
    sides at the Correct weight; the last word's final state carries the
    final-state marker with the FinalState weight; and some path from the
    initial state to an accepting state reads, once epsilon and the markers
    are left out, exactly the prompt. *)
Theorem C5_correct_path_exists (W : Weights) (hs : gmap string (gset string))
    (id : option string) (prompt : list string) :
  prompt ≠ [] →
  Forall (λ l, ¬ is_special l) prompt →
  ∃ g, exec (addWordSequence prompt ;; addCorrectPaths W) (init hs id) = Ok g ∧
    (∀ word, word ∈ words g →
       ∃ items, dict_get (states g) (start word) = Some items ∧
         Arc (start word) (final word) (label word) (label word) (Correct W) ∈ items) ∧
    (∀ lastw, last (words g) = Some lastw →
       ∃ items, dict_get (states g) (final lastw) = Some items ∧
         FinalState (final lastw) (FinalStateW W) ∈ items) ∧
    ∃ arcs s, path g initial_state arcs s ∧ accepting g s ∧
              read_labels arcs = prompt.
Proof.
  intros Hp Hspecial. eexists. split; [by apply exec_correct_chain|].
  unfold chainG. cbn [words states].
  assert (Hwords : ∀ i l, prompt !! i = Some l →
     ∃ items, dict_get (dense (foldl (try_leaf hs) (replicate (S (length prompt)) [])
                 (correct_leaves W (chain_words prompt)))) i = Some items ∧
              correct_arc W (mkWord l i (S i)) ∈ items).
  { intros i l Hl. eexists. rewrite dict_get_dense.
    split; [by apply correct_chain_lookup_word|]. by apply list_elem_of_singleton. }
  split; [|split].
  - intros word (i & l & Hl & ->)%chain_words_elem. by apply Hwords.
  - intros lastw Hlast. destruct (last_is_Some prompt Hp) as (l & Hl).
    rewrite (last_chain_words_of prompt l) in Hlast by done.
    injection Hlast as <-. simpl. eexists. rewrite dict_get_dense.
    split; [by apply correct_chain_lookup_final|]. by apply list_elem_of_singleton.
  - exists (correct_arc W <$> chain_words prompt), (length prompt).
    destruct (correct_path_chain W hs id prompt Hp) as [Hpath Hacc].
    split; [exact Hpath|]. split; [exact Hacc|]. by apply read_labels_chain.
Qed.

Lemma C5_correct_path_exists_witness :
  ∃ g, exec (addWordSequence ["the"; "cat"; "sat"] ;; addCorrectPaths weights)
            (init ∅ None) = Ok g ∧
    (∀ word, word ∈ words g →
       ∃ items, dict_get (states g) (start word) = Some items ∧
         Arc (start word) (final word) (label word) (label word) (Correct weights)
           ∈ items) ∧
    (∀ lastw, last (words g) = Some lastw →
       ∃ items, dict_get (states g) (final lastw) = Some items ∧
         FinalState (final lastw) (FinalStateW weights) ∈ items) ∧
    ∃ arcs s, path g initial_state arcs s ∧ accepting g s ∧
              read_labels arcs = ["the"; "cat"; "sat"].
Proof.
  apply (C5_correct_path_exists weights ∅ None ["the"; "cat"; "sat"]).
  - discriminate.
  - repeat constructor; unfold is_special; intros [H|[H|H]]; discriminate H.
Defined.

(** C5 as it is worded, for every non-empty prompt, fails: nothing keeps a
    prompt word from being the epsilon label.  For the prompt "<eps>" the
    recipe puts the word's arc and the marker as for any other word, but the
    reading of a path leaves the epsilon label out, so no path from the
    initial state to an accepting state reads the prompt. *)
Lemma C5_counterexample :
  ∃ g, exec (addWordSequence ["<eps>"] ;; addCorrectPaths weights) (init ∅ None) = Ok g ∧
       dict_get (states g) 0 = Some [Arc 0 1 "<eps>" "<eps>" (PyInt 100)] ∧
       dict_get (states g) 1 = Some [FinalState 1 (PyFloat 0)] ∧
       ¬ ∃ arcs s, path g initial_state arcs s ∧ accepting g s ∧
                   read_labels arcs = ["<eps>"].
Proof.
  eexists. split; [vm_compute; reflexivity|].
  split; [reflexivity|]. split; [reflexivity|].
  intros (arcs & s & _ & _ & Hread).
  assert (Hin : "<eps>" ∈ read_labels arcs) by (rewrite Hread; left).
  unfold read_labels in Hin. apply list_elem_of_filter in Hin as [Hnot _].
  apply Hnot. by left.
Qed.

(** ** The repeat recipe *)

Lemma repeat_leaves_elem W p x :
  x ∈ repeat_leaves W (chain_words p) ↔
  (∃ i a b, p !! i = Some a ∧ p !! S i = Some b ∧ a ≠ b ∧
            x = Arc (S i) (S i) a a (Repeat W)) ∨
  (∃ l, last p = Some l ∧ x = Arc (length p) (length p) l l (Repeat W)).
Proof.
  unfold repeat_leaves. rewrite elem_of_app, list_elem_of_fmap. split.
  - intros [(pr & -> & Hpr)|Hlast].
    + left. apply list_elem_of_filter in Hpr as [Hd Hpr].
      apply adjacent_pairs_elem in Hpr as (i & a & b & Ha & Hb & ->).
      exists i, a, b. repeat split; try done.
    + right. destruct (last p) as [l|] eqn:Hl.
      * rewrite (last_leaf_chain p l) in Hlast by done.
        apply list_elem_of_singleton in Hlast as ->. by exists l.
      * unfold last_leaf in Hlast. destruct p as [|x0 p] using rev_ind.
        -- by apply elem_of_nil in Hlast.
        -- by rewrite last_snoc in Hl.
  - intros [(i & a & b & Ha & Hb & Hab & ->)|(l & Hl & ->)].
    + left. exists (mkWord a i (S i), mkWord b (S i) (S (S i))). split; [done|].
      apply list_elem_of_filter. split; [done|].
      apply adjacent_pairs_elem. by exists i, a, b.
    + right. rewrite (last_leaf_chain p l) by done. by apply list_elem_of_singleton.
Qed.

(** C7, with the guard of [addArc].  On a graph that carries the word chain
    of a non-empty prompt, the repeat recipe succeeds, allocates no state
    and changes no word.  For each adjacent pair of words with different labels it appends
    to the list of the first word's final state the self-loop labelled with
    that word at the Repeat weight, unless the guard of [addArc] finds the
    word among the homophones of a label already at that state; for a pair
    with equal labels it appends nothing.  The last word's final state gets
    its self-loop under the same guard.  The first state and the states past
    the chain are left as they were. *)
Theorem C7_repeat_paths (W : Weights) (prompt : list string) (g : PromptLMFST) :
  chain_graph prompt g → prompt ≠ [] →
  ∃ g', exec (addRepeatPaths W) g = Ok g' ∧
    words g' = words g ∧ state_counter g' = state_counter g ∧
    (∀ i a b items,
       prompt !! i = Some a → prompt !! S i = Some b →
       dict_get (states g) (S i) = Some items →
       dict_get (states g') (S i)
       = Some (items ++
                 if decide (a ≠ b) then
                   if blocked (homophones g) items a then []
                   else [Arc (S i) (S i) a a (Repeat W)]
                 else [])) ∧
    (∀ l items,
       last prompt = Some l →
       dict_get (states g) (length prompt) = Some items →
       dict_get (states g') (length prompt)
       = Some (items ++
                 if blocked (homophones g) items l then []
                 else [Arc (length prompt) (length prompt) l l (Repeat W)])) ∧
    (∀ s, s = 0 ∨ length prompt < s →
       dict_get (states g') s = dict_get (states g) s).
Proof.
  intros Hg Hp.
  destruct (chain_graph_chainG _ _ Hg) as (L & Heq & _ & _ & Hlt).
  destruct g as [id ws st c ini hs]. cbn [ID homophones] in *.
  rewrite Heq. clear Heq Hg ws st c ini.
  exists (chainG id prompt (foldl (try_leaf hs) L (repeat_leaves W (chain_words prompt))) hs).
  unfold chainG at 2 3 4 5 6 7. cbn [words states state_counter homophones].
  split; [|split; [|split; [|split; [|split]]]].
  - unfold exec. by rewrite addRepeatPaths_dense.
  - done.
  - by rewrite length_foldl_try_leaf.
  - intros i a b items Ha Hb. unfold chainG. cbn [states].
    rewrite !dict_get_dense. intros Hitems.
    destruct (decide (a ≠ b)) as [Hab|Hab].
    + apply (foldl_try_leaf_lookup_at hs _ L (Arc (S i) (S i) a a (Repeat W)) items).
      * by apply NoDup_repeat_leaves.
      * apply repeat_leaves_elem. left. by exists i, a, b.
      * done.
    + rewrite app_nil_r, <- Hitems. apply foldl_try_leaf_lookup_other.
      apply Forall_forall. intros x Hx Hfrom.
      apply repeat_leaves_elem in Hx
        as [(j & a' & b' & Ha' & Hb' & Hab' & ->)|(l & Hl & ->)]; simpl in Hfrom.
      * injection Hfrom as ->. apply Hab. congruence.
      * apply lookup_lt_Some in Hb. lia.
  - intros l items Hl. unfold chainG. cbn [states].
    rewrite !dict_get_dense. intros Hitems.
    apply (foldl_try_leaf_lookup_at hs _ L
             (Arc (length prompt) (length prompt) l l (Repeat W)) items).
    + by apply NoDup_repeat_leaves.
    + apply repeat_leaves_elem. right. by exists l.
    + done.
  - intros s Hs. unfold chainG. cbn [states].
    rewrite !dict_get_dense. apply foldl_try_leaf_lookup_other.
    apply Forall_forall. intros x Hx Hfrom.
    apply repeat_leaves_elem in Hx
      as [(j & a' & b' & Ha' & Hb' & Hab' & ->)|(l & Hl & ->)]; simpl in Hfrom.
    + apply lookup_lt_Some in Hb'. lia.
    + destruct prompt; [done|simpl in *; lia].
Qed.

Lemma C7_repeat_paths_witness :
  ∃ g', exec (addRepeatPaths weights) (chain_init ∅ None ["A"; "A"; "B"]) = Ok g' ∧
    words g' = words (chain_init ∅ None ["A"; "A"; "B"]) ∧
    state_counter g' = state_counter (chain_init ∅ None ["A"; "A"; "B"]) ∧
    (∀ i a b items,
       ["A"; "A"; "B"] !! i = Some a → ["A"; "A"; "B"] !! S i = Some b →
       dict_get (states (chain_init ∅ None ["A"; "A"; "B"])) (S i) = Some items →
       dict_get (states g') (S i)
       = Some (items ++
                 if decide (a ≠ b) then
                   if blocked (homophones (chain_init ∅ None ["A"; "A"; "B"])) items a
                   then []
                   else [Arc (S i) (S i) a a (Repeat weights)]
                 else [])) ∧
    (∀ l items,
       last ["A"; "A"; "B"] = Some l →
       dict_get (states (chain_init ∅ None ["A"; "A"; "B"])) (length ["A"; "A"; "B"])
       = Some items →
       dict_get (states g') (length ["A"; "A"; "B"])
       = Some (items ++
                 if blocked (homophones (chain_init ∅ None ["A"; "A"; "B"])) items l
                 then []
                 else [Arc (length ["A"; "A"; "B"]) (length ["A"; "A"; "B"]) l l
                           (Repeat weights)])) ∧
    (∀ s, s = 0 ∨ length ["A"; "A"; "B"] < s →
       dict_get (states g') s
       = dict_get (states (chain_init ∅ None ["A"; "A"; "B"])) s).
Proof.
  apply (C7_repeat_paths weights ["A"; "A"; "B"] (chain_init ∅ None ["A"; "A"; "B"])).
  - repeat split; simpl; lia.
  - discriminate.
Defined.

(** C7 without the guard fails: with "a" listed in the homophone table and the
    prompt a b a, the skip recipe has put an arc that reads "a" at the
    state after the first word, and the repeat self-loop of the first pair
    is dropped by the guard. *)
Lemma C7_counterexample :
  ∃ g g', before_repeat (readHomophones (Some [["a"]])) ["a"; "b"; "a"] = Ok g ∧
          exec (addRepeatPaths weights) g = Ok g' ∧
          ¬ repeat_unguarded weights ["a"; "b"; "a"] g g'.
Proof.
  eexists _, _. split; [vm_compute; reflexivity|]. split; [vm_compute; reflexivity|].
  intros [H _]. specialize (H 0 "a" "b" _ eq_refl eq_refl eq_refl).
  vm_compute in H. discriminate H.
Qed.

(** The prompt A A B without homophones, after the whole construction
    order: no self-loop for the pair of equal words at the state between
    them, one self-loop reading A at the second A's final state, one
    reading B at the last state. *)
Example repeat_AAB :
  ∃ g g', before_repeat ∅ ["A"; "A"; "B"] = Ok g ∧
          exec (addRepeatPaths weights) g = Ok g' ∧
          dict_get (states g') 1 = dict_get (states g) 1 ∧
          (∀ items, dict_get (states g) 2 = Some items →
             dict_get (states g') 2 = Some (items ++ [Arc 2 2 "A" "A" (PyInt 30)])) ∧
          (∀ items, dict_get (states g) 3 = Some items →
             dict_get (states g') 3 = Some (items ++ [Arc 3 3 "B" "B" (PyInt 30)])).
Proof.
  eexists _, _. split; [vm_compute; reflexivity|]. split; [vm_compute; reflexivity|].
  split; [reflexivity|]. split; intros items [= <-]; reflexivity.
Qed.

(** ** The skip recipe *)

Lemma adjacent_pairs_chain_from_cons n a b q :
  adjacent_pairs (chain_from n (a :: b :: q))
  = (mkWord a n (S n), mkWord b (S n) (S (S n)))
    :: adjacent_pairs (chain_from (S n) (b :: q)).
Proof. reflexivity. Qed.

Lemma adjacent_pairs_chain_from_single n a :
  adjacent_pairs (chain_from n [a]) = [].
Proof. reflexivity. Qed.

Lemma skip_states_chain_lookup n s p i a b :
  p !! i = Some a → p !! S i = Some b → a ≠ b →
  skip_states s (adjacent_pairs (chain_from n p)) !! count_changes (take (S i) p)
  = Some (s + count_changes (take (S i) p),
          (mkWord a (n + i) (S (n + i)), mkWord b (S (n + i)) (S (S (n + i))))).
Proof.
  revert n s i. induction p as [|a0 p IH]; intros n s i Ha Hb Hab; [done|].
  destruct p as [|b0 q]; [done|].
  rewrite adjacent_pairs_chain_from_cons. cbn [skip_states].
  destruct i as [|i].
  - simpl in Ha, Hb. injection Ha as ->. injection Hb as ->.
    cbn [take count_changes]. rewrite decide_True by done. simpl.
    by replace (s + 0) with s by lia; replace (n + 0) with n by lia.
  - change (take (S (S i)) (a0 :: b0 :: q)) with (a0 :: take (S i) (b0 :: q)).
    assert (Hc : count_changes (a0 :: take (S i) (b0 :: q))
                 = (if decide (a0 ≠ b0) then 1 else 0)
                   + count_changes (take (S i) (b0 :: q))) by reflexivity.
    rewrite Hc. unfold distinct_pair. cbn [fst snd label].
    destruct (decide (a0 ≠ b0)); cbn [Nat.add lookup list_lookup].
    + etrans; [exact (IH (S n) (S s) i Ha Hb Hab)|]. do 2 f_equal; [lia|].
      by replace (S n + i) with (n + S i) by lia.
    + etrans; [exact (IH (S n) s i Ha Hb Hab)|]. do 2 f_equal.
      by replace (S n + i) with (n + S i) by lia.
Qed.

Lemma length_skip_states n s p :
  length (skip_states s (adjacent_pairs (chain_from n p))) = count_changes p.
Proof.
  revert n s. induction p as [|a0 p IH]; intros n s; [done|].
  destruct p as [|b0 q]; [done|].
  rewrite adjacent_pairs_chain_from_cons. cbn [skip_states].
  assert (Hc : count_changes (a0 :: b0 :: q)
               = (if decide (a0 ≠ b0) then 1 else 0) + count_changes (b0 :: q))
    by reflexivity.
  rewrite Hc. unfold distinct_pair. cbn [fst snd label].
  destruct (decide (a0 ≠ b0)); cbn [length Nat.add]; [f_equal|]; apply IH.
Qed.

Lemma skip_states_chain_elem s p sp :
  sp ∈ skip_states s (adjacent_pairs (chain_words p)) →
  ∃ i a b, p !! i = Some a ∧ p !! S i = Some b ∧ a ≠ b ∧
    sp = (s + count_changes (take (S i) p),
          (mkWord a i (S i), mkWord b (S i) (S (S i)))).
Proof.
  intros Hsp. pose proof (skip_states_elem _ _ _ Hsp) as [Hpr Hd].
  apply adjacent_pairs_elem in Hpr as (i & a & b & Ha & Hb & Hpr).
  exists i, a, b. rewrite Hpr in Hd. repeat split; try done.
  pose proof (skip_states_chain_lookup 0 s p i a b Ha Hb Hd) as Hlk.
  simpl in Hlk. fold (chain_words p) in Hlk.
  apply list_elem_of_lookup in Hsp as (k & Hk).
  assert (Hnd : NoDup (snd <$> skip_states s (adjacent_pairs (chain_words p)))).
  { rewrite skip_states_snd. apply NoDup_filter, NoDup_adjacent_pairs. }
  assert (k = count_changes (take (S i) p)) as ->.
  { eapply NoDup_lookup; [exact Hnd| |].
    - by rewrite list_lookup_fmap, Hk.
    - rewrite list_lookup_fmap, Hlk. simpl. by rewrite Hpr. }
  congruence.
Qed.

Lemma skip_leaves_elem W s p x :
  x ∈ skip_in_leaves W s (adjacent_pairs (chain_words p))
      ++ last_leaf (chain_words p) (skip_last_arc W) ↔
  (∃ i a b, p !! i = Some a ∧ p !! S i = Some b ∧ a ≠ b ∧
     x = Arc i (s + count_changes (take (S i) p)) b special_labels.Skip (Skip W)) ∨
  (∃ l, last p = Some l ∧
     x = Arc (pred (length p)) (length p)
             special_labels.Epsilon special_labels.Skip (Skip W)).
Proof.
  rewrite elem_of_app. unfold skip_in_leaves. rewrite list_elem_of_fmap. split.
  - intros [(sp & -> & Hsp)|Hlast].
    + left. apply skip_states_chain_elem in Hsp as (i & a & b & Ha & Hb & Hab & ->).
      by exists i, a, b.
    + right. destruct (last p) as [l|] eqn:Hl.
      * rewrite (last_leaf_chain p l) in Hlast by done.
        apply list_elem_of_singleton in Hlast as ->. by exists l.
      * unfold last_leaf in Hlast. destruct p as [|x0 p] using rev_ind.
        -- by apply elem_of_nil in Hlast.
        -- by rewrite last_snoc in Hl.
  - intros [(i & a & b & Ha & Hb & Hab & ->)|(l & Hl & ->)].
    + left. eexists. split; [|eapply list_elem_of_lookup_2;
                               apply (skip_states_chain_lookup 0 s p i a b Ha Hb Hab)].
      done.
    + right. rewrite (last_leaf_chain p l) by done. by apply list_elem_of_singleton.
Qed.

Lemma skip_out_lists_lookup W s p i a b :
  p !! i = Some a → p !! S i = Some b → a ≠ b →
  skip_out_lists W s (adjacent_pairs (chain_words p)) !! count_changes (take (S i) p)
  = Some [Arc (s + count_changes (take (S i) p)) (S (S i))
              special_labels.Epsilon b (Correct W)].
Proof.
  intros Ha Hb Hab. unfold skip_out_lists. rewrite list_lookup_fmap.
  unfold chain_words. by rewrite (skip_states_chain_lookup 0 s p i a b).
Qed.

(** C6, with the guard of [addArc].  On a graph that carries the word chain
    of a non-empty prompt, the skip recipe succeeds and allocates one state
    for each
    adjacent pair of words with different labels, numbered upwards from the
    first free number in the order of the pairs.  For such a pair the new
    state's list is exactly the arc to the next word's final state with
    epsilon as input, the next word as output and the Correct weight; the
    arc from the first word's start to the new state, reading the next word
    and writing the skip marker at the Skip weight, is appended unless the
    guard of [addArc] finds the next word among the homophones of a label
    already at that start state.  A pair with equal labels gets neither a
    state nor an arc.  The last word's arc from its start to its final
    state, with epsilon as input and the skip marker as output, is appended
    under the same guard.  The other states are left as they were. *)
Theorem C6_skip_paths (W : Weights) (prompt : list string) (g : PromptLMFST) :
  chain_graph prompt g → prompt ≠ [] →
  ∃ g', exec (addSkipPaths W) g = Ok g' ∧
    words g' = words g ∧
    state_counter g' = state_counter g + count_changes prompt ∧
    (∀ i a b items,
       prompt !! i = Some a → prompt !! S i = Some b →
       dict_get (states g) i = Some items →
       if decide (a ≠ b) then
         let s := S (state_counter g) + count_changes (take (S i) prompt) in
         dict_get (states g) s = None ∧
         dict_get (states g') s
         = Some [Arc s (S (S i)) special_labels.Epsilon b (Correct W)] ∧
         dict_get (states g') i
         = Some (items ++
                   if blocked (homophones g) items b then []
                   else [Arc i s b special_labels.Skip (Skip W)])
       else dict_get (states g') i = Some items) ∧
    (∀ l items,
       last prompt = Some l →
       dict_get (states g) (pred (length prompt)) = Some items →
       dict_get (states g') (pred (length prompt))
       = Some (items ++
                 if blocked (homophones g) items special_labels.Epsilon then []
                 else [Arc (pred (length prompt)) (length prompt)
                           special_labels.Epsilon special_labels.Skip (Skip W)])) ∧
    (∀ s, length prompt ≤ s ≤ state_counter g →
       dict_get (states g') s = dict_get (states g) s).
Proof.
  intros Hg Hp.
  destruct (chain_graph_chainG _ _ Hg) as (L & Heq & _ & _ & Hlt).
  destruct g as [id ws st c ini hs]. cbn [ID homophones] in *.
  rewrite Heq. clear Heq Hg ws st c ini.
  set (pairs := adjacent_pairs (chain_words prompt)).
  set (ins := skip_in_leaves W (length L) pairs
              ++ last_leaf (chain_words prompt) (skip_last_arc W)).
  set (outs := skip_out_lists W (length L) pairs).
  exists (chainG id prompt (foldl (try_leaf hs) L ins ++ outs) hs).
  assert (HS : S (pred (length L)) = length L) by lia.
  assert (Hnd : NoDup (leaf_from <$> ins)) by (by apply NoDup_skip_leaves).
  assert (HlenX : length (foldl (try_leaf hs) L ins) = length L)
    by apply length_foldl_try_leaf.
  unfold chainG at 2 3 4 5 6 7 8 9.
  cbn [words states state_counter homophones]. rewrite HS.
  split; [|split; [|split; [|split; [|split]]]].
  - unfold exec. by rewrite addSkipPaths_dense.
  - done.
  - rewrite length_app, HlenX. unfold outs, skip_out_lists, pairs, chain_words.
    rewrite length_fmap, length_skip_states. lia.
  - intros i a b items Ha Hb. unfold chainG. cbn [states state_counter homophones]. rewrite ?HS.
    rewrite !dict_get_dense. intros Hitems.
    assert (Hi : i < length L) by (by eapply lookup_lt_Some).
    destruct (decide (a ≠ b)) as [Hab|Hab]; cbv zeta.
    + split; [|split].
      * apply lookup_ge_None. lia.
      * rewrite lookup_app_r by (rewrite HlenX; lia). rewrite HlenX.
        replace (length L + count_changes (take (S i) prompt) - length L)
          with (count_changes (take (S i) prompt)) by lia.
        by apply (skip_out_lists_lookup W (length L) prompt i a b).
      * rewrite lookup_app_l by (rewrite HlenX; lia).
        apply (foldl_try_leaf_lookup_at hs ins L
                 (Arc i (length L + count_changes (take (S i) prompt)) b
                      special_labels.Skip (Skip W)) items); [done| |done].
        apply skip_leaves_elem. left. by exists i, a, b.
    + rewrite lookup_app_l by (rewrite HlenX; lia). rewrite <- Hitems.
      apply foldl_try_leaf_lookup_other.
      apply Forall_forall. intros x Hx Hfrom.
      apply skip_leaves_elem in Hx
        as [(j & a' & b' & Ha' & Hb' & Hab' & ->)|(l & Hl & ->)]; simpl in Hfrom.
      * subst j. apply Hab. congruence.
      * apply lookup_lt_Some in Hb. lia.
  - intros l items Hl. unfold chainG. cbn [states state_counter homophones]. rewrite ?HS.
    rewrite !dict_get_dense. intros Hitems.
    assert (Hi : pred (length prompt) < length L) by lia.
    rewrite lookup_app_l by (rewrite HlenX; lia).
    apply (foldl_try_leaf_lookup_at hs ins L
             (Arc (pred (length prompt)) (length prompt)
                  special_labels.Epsilon special_labels.Skip (Skip W)) items);
      [done| |done].
    apply skip_leaves_elem. right. by exists l.
  - intros s. unfold chainG. cbn [states state_counter homophones]. intros Hs.
    rewrite !dict_get_dense. rewrite lookup_app_l by (rewrite HlenX; lia).
    apply foldl_try_leaf_lookup_other.
    apply Forall_forall. intros x Hx Hfrom.
    apply skip_leaves_elem in Hx
      as [(j & a' & b' & Ha' & Hb' & Hab' & ->)|(l & Hl & ->)]; simpl in Hfrom.
    + apply lookup_lt_Some in Hb'. lia.
    + destruct prompt; [done|simpl in *; lia].
Qed.

Lemma C6_skip_paths_witness :
  ∃ g', exec (addSkipPaths weights) (chain_init ∅ None ["A"; "A"; "B"]) = Ok g' ∧
    words g' = words (chain_init ∅ None ["A"; "A"; "B"]) ∧
    state_counter g'
    = state_counter (chain_init ∅ None ["A"; "A"; "B"]) + count_changes ["A"; "A"; "B"] ∧
    (∀ i a b items,
       ["A"; "A"; "B"] !! i = Some a → ["A"; "A"; "B"] !! S i = Some b →
       dict_get (states (chain_init ∅ None ["A"; "A"; "B"])) i = Some items →
       if decide (a ≠ b) then
         let s := S (state_counter (chain_init ∅ None ["A"; "A"; "B"]))
                  + count_changes (take (S i) ["A"; "A"; "B"]) in
         dict_get (states (chain_init ∅ None ["A"; "A"; "B"])) s = None ∧
         dict_get (states g') s
         = Some [Arc s (S (S i)) special_labels.Epsilon b (Correct weights)] ∧
         dict_get (states g') i
         = Some (items ++
                   if blocked (homophones (chain_init ∅ None ["A"; "A"; "B"])) items b
                   then []
                   else [Arc i s b special_labels.Skip (Skip weights)])
       else dict_get (states g') i = Some items) ∧
    (∀ l items,
       last ["A"; "A"; "B"] = Some l →
       dict_get (states (chain_init ∅ None ["A"; "A"; "B"])) (pred (length ["A"; "A"; "B"]))
       = Some items →
       dict_get (states g') (pred (length ["A"; "A"; "B"]))
       = Some (items ++
                 if blocked (homophones (chain_init ∅ None ["A"; "A"; "B"])) items
                            special_labels.Epsilon
                 then []
                 else [Arc (pred (length ["A"; "A"; "B"])) (length ["A"; "A"; "B"])
                           special_labels.Epsilon special_labels.Skip (Skip weights)])) ∧
    (∀ s, length ["A"; "A"; "B"] ≤ s ≤ state_counter (chain_init ∅ None ["A"; "A"; "B"]) →
       dict_get (states g') s = dict_get (states (chain_init ∅ None ["A"; "A"; "B"])) s).
Proof.
  apply (C6_skip_paths weights ["A"; "A"; "B"] (chain_init ∅ None ["A"; "A"; "B"])).
  - repeat split; simpl; lia.
  - discriminate.
Defined.

(** C6 without the guard fails: with "read" and "red" on one line of the homophone
    file and the prompt read red, the start state already has the arc that
    reads "read", and the arc into the new skip state is dropped. *)
Lemma C6_counterexample :
  ∃ g g', before_skip (readHomophones (Some [["read"; "red"]])) ["read"; "red"] = Ok g ∧
          exec (addSkipPaths weights) g = Ok g' ∧
          ¬ skip_unguarded weights ["read"; "red"] g g'.
Proof.
  eexists _, _. split; [vm_compute; reflexivity|]. split; [vm_compute; reflexivity|].
  intros [H _]. specialize (H 0 "read" "red" _ eq_refl eq_refl eq_refl).
  rewrite decide_True in H by done. destruct H as (s & _ & _ & H).
  vm_compute in H. discriminate H.
Qed.

(** The prompt A A B without homophones, in the construction order: nothing
    at the boundary between the two A, one new state and its two arcs at
    the boundary from A to B, and the last word's epsilon arc. *)
Example skip_AAB :
  ∃ g g', before_skip ∅ ["A"; "A"; "B"] = Ok g ∧
          exec (addSkipPaths weights) g = Ok g' ∧
          state_counter g' = S (state_counter g) ∧
          dict_get (states g') 0 = dict_get (states g) 0 ∧
          (∀ items, dict_get (states g) 1 = Some items →
             dict_get (states g') 1 = Some (items ++ [Arc 1 4 "B" "[SKP]" (PyInt 10)])) ∧
          dict_get (states g') 4 = Some [Arc 4 3 "<eps>" "B" (PyInt 100)] ∧
          (∀ items, dict_get (states g) 2 = Some items →
             dict_get (states g') 2 = Some (items ++ [Arc 2 3 "<eps>" "[SKP]" (PyInt 10)])).
Proof.
  eexists _, _. split; [vm_compute; reflexivity|]. split; [vm_compute; reflexivity|].
  split; [reflexivity|]. split; [reflexivity|].
  split; [intros items [= <-]; reflexivity|].
  split; [reflexivity|]. intros items [= <-]; reflexivity.
Qed.

(** ** Invariants of call sequences *)

Lemma preserves_bind {A B} P (m : M A) (k : A → M B) :
  preserves P m → (∀ a, preserves P (k a)) → preserves P (m ≫= k).
Proof.
  intros Hm Hk g b g' HP. rewrite bind_eq.
  destruct (m g) as [[a g1]|e] eqn:E; [|done].
  intros Hkg. eapply Hk; [|exact Hkg]. eapply Hm; [exact HP|exact E].
Qed.

Lemma preserves_mret {A} P (a : A) : preserves P (mret a).
Proof. intros g a' g' HP [= _ <-]. exact HP. Qed.

Lemma preserves_gets {A} P (f : PromptLMFST → A) : preserves P (gets f).
Proof. intros g a' g' HP [= _ <-]. exact HP. Qed.

Lemma preserves_raise {A} P e : preserves P (raise e : M A).
Proof. intros g a' g' HP [=]. Qed.

Lemma preserves_list_last {A} P (l : list A) : preserves P (list_last l).
Proof.
  unfold list_last. destruct (last l); [apply preserves_mret|apply preserves_raise].
Qed.

Lemma preserves_forM_ {A} P (l : list A) (f : A → M unit) :
  (∀ x, preserves P (f x)) → preserves P (forM_ l f).
Proof.
  intros Hf. induction l as [|x l IH]; simpl.
  - apply preserves_mret.
  - apply preserves_bind; [apply Hf|]. intros _. exact IH.
Qed.

Lemma quiet_newState ws b c0 : preserves (quiet ws b c0) newState.
Proof.
  intros g a g' (Hw & Hi & Hc & Hk). rewrite newState_eq. intros [= _ <-].
  unfold quiet. cbn [words initialised state_counter states].
  repeat split; [done|done|lia|].
  intros k [Hin| ->]%dict_keys_set; [|lia]. apply Hk in Hin. lia.
Qed.

Lemma quiet_states_append ws b c0 k item :
  preserves (quiet ws b c0) (states_append k item).
Proof.
  intros g a g' (Hw & Hi & Hc & Hk). rewrite states_append_eq.
  destruct (dict_get (states g) k) as [items|] eqn:E; [|done].
  intros [= _ <-]. unfold quiet, set_states.
  cbn [words initialised state_counter states].
  repeat split; [done|done|done|].
  intros j [Hin| ->]%dict_keys_set; [by apply Hk|].
  apply Hk. destruct (decide (k ∈ dict_keys (states g))) as [|Hn]; [done|].
  apply dict_get_None in Hn. congruence.
Qed.

Lemma quiet_addFinalState ws b c0 s w :
  preserves (quiet ws b c0) (addFinalState s w).
Proof. apply quiet_states_append. Qed.

Lemma quiet_addArc ws b c0 f t i o w :
  preserves (quiet ws b c0) (addArc f t i o w).
Proof.
  unfold addArc. apply preserves_bind.
  - intros g a g' HP. rewrite homophoneArcExists_eq.
    destruct (dict_get (states g) f); [|done]. by intros [= _ <-].
  - intros ex. destruct (negb ex); [apply quiet_states_append|apply preserves_mret].
Qed.

Lemma quiet_last_call ws b c0 (k : Word → M unit) :
  (∀ w, preserves (quiet ws b c0) (k w)) →
  preserves (quiet ws b c0) (ws' ← gets words; lastw ← list_last ws'; k lastw).
Proof.
  intros Hk. apply preserves_bind; [apply preserves_gets|]. intros ws'.
  apply preserves_bind; [apply preserves_list_last|]. exact Hk.
Qed.

Lemma quiet_run_recipe ws b c0 r W : preserves (quiet ws b c0) (run_recipe r W).
Proof.
  destruct r; simpl.
  - unfold addCorrectPaths. apply preserves_bind; [apply preserves_gets|]. intros ws0.
    apply preserves_bind.
    + apply preserves_forM_. intros x. apply quiet_addArc.
    + intros _. apply quiet_last_call. intros w. apply quiet_addFinalState.
  - unfold addRubbishPaths. apply preserves_bind; [apply preserves_gets|]. intros ws0.
    apply preserves_bind.
    + apply preserves_forM_. intros x. apply quiet_addArc.
    + intros _. apply quiet_last_call. intros w. apply quiet_addArc.
  - unfold addSkipPaths. apply preserves_bind; [apply preserves_gets|]. intros ws0.
    apply preserves_bind.
    + apply preserves_forM_. intros [word next_word].
      destruct (bool_decide _); [|apply preserves_mret].
      apply preserves_bind; [apply quiet_newState|]. intros s.
      apply preserves_bind; [apply quiet_addArc|]. intros _. apply quiet_addArc.
    + intros _. apply quiet_last_call. intros w. apply quiet_addArc.
  - unfold addRepeatPaths. apply preserves_bind; [apply preserves_gets|]. intros ws0.
    apply preserves_bind.
    + apply preserves_forM_. intros [word next_word].
      destruct (bool_decide _); [|apply preserves_mret]. apply quiet_addArc.
    + intros _. apply quiet_last_call. intros w. apply quiet_addArc.
Qed.

Lemma graph_inv_quiet g : graph_inv g → quiet (words g) (initialised g) (state_counter g) g.
Proof. intros (_ & Hk & _ & _). by repeat split. Qed.

Lemma quiet_graph_inv g g' :
  graph_inv g → quiet (words g) (initialised g) (state_counter g) g' →
  graph_inv g' ∧ words g' = words g.
Proof.
  intros (Hi & _ & Hw & Hc) (Hw' & Hi' & Hc' & Hk'). split; [|done].
  unfold graph_inv. rewrite Hw', Hi'. repeat split; try done; try apply Hi.
  - apply Hw in H. lia.
  - apply Hw in H. lia.
Qed.

Lemma graph_inv_init hs id : graph_inv (init hs id).
Proof.
  unfold graph_inv, init. simpl. repeat split; try done.
  - intros k Hk. by apply elem_of_nil in Hk.
  - by apply elem_of_nil in H.
  - by apply elem_of_nil in H.
Qed.

(** One append, from any graph that satisfies the invariant. *)
Lemma addNextWord_step g l :
  graph_inv g →
  ∃ g', addNextWord l g = Ok ((), g') ∧ graph_inv g' ∧
    words g' = words g ++
      [mkWord l (match last (words g) with
                 | Some p => final p
                 | None => state_counter g
                 end) (S (state_counter g))] ∧
    state_counter g' = S (state_counter g) ∧
    dict_get (states g) (S (state_counter g)) = None ∧
    dict_get (states g') (S (state_counter g)) = Some [].
Proof.
  intros (Hi & Hk & Hw & Hc).
  assert (Hfresh : dict_get (states g) (S (state_counter g)) = None).
  { apply dict_get_None. intros Hin. apply Hk in Hin. lia. }
  unfold addNextWord. rewrite bind_eq. cbn [gets].
  destruct (initialised g) eqn:Hini; cbn [negb].
  - assert (Hne : words g ≠ []) by (by apply Hi).
    destruct (exists_last Hne) as (ws & p & Hws).
    rewrite bind_eq, curr_word_eq, Hini, Hws, last_snoc.
    rewrite bind_eq, newState_eq. unfold modify, words_append.
    cbn [words states state_counter initialised ID homophones].
    eexists. split; [reflexivity|].
    cbn [words states state_counter initialised].
    rewrite Hws. split; [|split; [done|split; [done|split; [done|]]]].
    + unfold graph_inv. cbn [words states state_counter initialised].
      split; [|split; [|split]].
      * split; [|done]. intros _. by destruct ws.
      * intros k [Hin| ->]%dict_keys_set; [|lia]. apply Hk in Hin. lia.
      * intros w [Hin| ->%list_elem_of_singleton]%elem_of_app.
        -- rewrite <- Hws in Hin. apply Hw in Hin. lia.
        -- simpl. assert (p ∈ words g) as Hp
             by (rewrite Hws; apply elem_of_app; right; by left).
           apply Hw in Hp. lia.
      * intros i a b Ha Hb.
        destruct (decide (S i < length (ws ++ [p]))) as [Hlt|Hge].
        -- rewrite lookup_app_l in Hb by done.
           rewrite lookup_app_l in Ha by lia.
           rewrite <- Hws in Ha, Hb. by eapply Hc.
        -- apply lookup_lt_Some in Hb as Hb'. rewrite length_app in Hb'. simpl in Hb'.
           assert (S i = length (ws ++ [p])) as Hi' by lia.
           rewrite Hi', list_lookup_middle in Hb by done. injection Hb as <-.
           rewrite lookup_app_l in Ha by lia.
           rewrite length_app in Hi'. simpl in Hi'.
           assert (i = length ws) as -> by lia.
           rewrite list_lookup_middle in Ha by done. by injection Ha as <-.
    + apply dict_get_set_eq.
  - assert (Hnil : words g = []).
    { destruct (words g) eqn:E; [done|]. destruct Hi as [_ Hi].
      by discriminate Hi. }
    rewrite bind_eq. cbn [gets].
    rewrite bind_eq. unfold states_set_empty, modify at 1.
    rewrite bind_eq. cbn [gets].
    rewrite bind_eq, newState_eq. unfold modify, words_append, set_initialised, set_states.
    cbn [words states state_counter initialised ID homophones].
    eexists. split; [reflexivity|].
    cbn [words states state_counter initialised].
    rewrite Hnil. cbn [last app].
    split; [|split; [done|split; [done|split; [done|]]]].
    + unfold graph_inv. cbn [words states state_counter initialised].
      split; [|split; [|split]].
      * done.
      * intros k [[Hin| ->]%dict_keys_set| ->]%dict_keys_set; [|lia|lia].
        apply Hk in Hin. lia.
      * intros w ->%list_elem_of_singleton. simpl. lia.
      * intros i a b Ha Hb. by destruct i.
    + apply dict_get_set_eq.
Qed.

Lemma addWordSequence_steps g sequence :
  graph_inv g →
  ∃ g', addWordSequence sequence g = Ok ((), g') ∧ graph_inv g' ∧
        label <$> words g' = (label <$> words g) ++ sequence.
Proof.
  unfold addWordSequence. revert g.
  induction sequence as [|l sequence IH]; intros g Hg.
  - exists g. by rewrite app_nil_r.
  - destruct (addNextWord_step g l Hg) as (g1 & Hstep & Hg1 & Hw1 & _).
    destruct (IH g1 Hg1) as (g' & Hrest & Hg' & Hw').
    exists g'. cbn [forM_]. rewrite bind_eq, Hstep.
    split; [done|split; [done|]].
    rewrite Hw', Hw1, fmap_app. simpl. by rewrite <- app_assoc.
Qed.

Lemma run_call_inv g c g' :
  graph_inv g → exec (run_call c) g = Ok g' →
  graph_inv g' ∧ label <$> words g' = (label <$> words g) ++ appended [c].
Proof.
  intros Hg. unfold exec.
  assert (Hquiet : ∀ m : M unit,
            preserves (quiet (words g) (initialised g) (state_counter g)) m →
            match m g with Ok (_, g') => Ok g' | Raise e => Raise e end = Ok g' →
            graph_inv g' ∧ label <$> words g' = (label <$> words g) ++ []).
  { intros m Hm Hrun. destruct (m g) as [[[] g1]|e] eqn:E; [|done].
    injection Hrun as ->.
    destruct (quiet_graph_inv g g' Hg) as [Hg' Hw'].
    - eapply Hm; [by apply graph_inv_quiet|exact E].
    - by rewrite app_nil_r, Hw'. }
  destruct c as [l|sequence| |f t i o w|s w|r W]; cbn [run_call appended].
  - destruct (addNextWord_step g l Hg) as (g1 & -> & Hg1 & Hw1 & _).
    intros [= <-]. split; [done|]. by rewrite Hw1, fmap_app.
  - destruct (addWordSequence_steps g sequence Hg) as (g1 & -> & Hg1 & Hw1).
    intros [= <-]. split; [done|]. by rewrite app_nil_r.
  - apply Hquiet. apply preserves_bind; [apply quiet_newState|].
    intros _. apply preserves_mret.
  - apply Hquiet, quiet_addArc.
  - apply Hquiet, quiet_addFinalState.
  - apply Hquiet, quiet_run_recipe.
Qed.

Lemma run_calls_inv cs g g' :
  graph_inv g → exec (run_calls cs) g = Ok g' →
  graph_inv g' ∧ label <$> words g' = (label <$> words g) ++ appended cs.
Proof.
  unfold run_calls. revert g. induction cs as [|c cs IH]; intros g Hg.
  - intros [= <-]. by rewrite app_nil_r.
  - cbn [forM_]. rewrite exec_bind.
    destruct (run_call c g) as [[[] g1]|e] eqn:E; [|done].
    intros Hrest.
    destruct (run_call_inv g c g1 Hg) as [Hg1 Hw1].
    { unfold exec. by rewrite E. }
    destruct (IH g1 Hg1 Hrest) as [Hg' Hw'].
    split; [done|]. rewrite Hw', Hw1, <- app_assoc. f_equal.
    destruct c; simpl; try done. by rewrite app_nil_r.
Qed.

(** C9.  After any sequence of calls on a new graph, [curr_word] returns the
    last word of the chain, the word appended last, if a word has been
    appended, and raises the [RuntimeError] of the empty chain if none has. *)
Theorem C9_curr_word (hs : gmap string (gset string)) (id : option string)
    (cs : list call) (g : PromptLMFST) :
  exec (run_calls cs) (init hs id) = Ok g →
  label <$> words g = appended cs ∧
  curr_word g = match last (words g) with
                | Some w => Ok (w, g)
                | None => Raise RuntimeError
                end ∧
  (appended cs = [] ↔ curr_word g = Raise RuntimeError).
Proof.
  intros Hrun.
  destruct (run_calls_inv cs _ g (graph_inv_init hs id) Hrun) as [(Hi & _) Hw].
  simpl in Hw. split; [done|].
  assert (Hcw : curr_word g = match last (words g) with
                              | Some w => Ok (w, g)
                              | None => Raise RuntimeError
                              end).
  { rewrite curr_word_eq. destruct (initialised g) eqn:Hini.
    - destruct (last (words g)) eqn:Hl; [done|].
      apply last_None in Hl. by apply Hi in Hl.
    - destruct (words g) as [|w ws] eqn:E; [done|].
      destruct Hi as [_ Hi]. by discriminate Hi. }
  split; [done|]. rewrite Hcw, <- Hw.
  destruct (words g) as [|w ws] using rev_ind.
  - done.
  - rewrite last_snoc, fmap_app. split; [|done].
    intros Hnil. by apply app_eq_nil in Hnil as [_ ?].
Qed.

Lemma C9_curr_word_witness :
  ∃ g, exec (run_calls [CallAddNextWord "the"; CallNewState; CallAddNextWord "cat"])
            (init ∅ None) = Ok g ∧
       label <$> words g
       = appended [CallAddNextWord "the"; CallNewState; CallAddNextWord "cat"] ∧
       curr_word g = match last (words g) with
                     | Some w => Ok (w, g)
                     | None => Raise RuntimeError
                     end ∧
       (appended [CallAddNextWord "the"; CallNewState; CallAddNextWord "cat"] = []
        ↔ curr_word g = Raise RuntimeError).
Proof.
  eexists. split; [reflexivity|].
  apply (C9_curr_word ∅ None [CallAddNextWord "the"; CallNewState; CallAddNextWord "cat"]).
  reflexivity.
Defined.

(** On a new graph the call fails. *)
Example curr_word_empty hs id : curr_word (init hs id) = Raise RuntimeError.
Proof. reflexivity. Qed.

(** ** Chain continuity *)

Lemma fmap_label_chain_from n p : label <$> chain_from n p = p.
Proof. revert n; induction p as [|l p IH]; intros n; simpl; [done|]. by rewrite IH. Qed.

Lemma words_chain_init hs id p : words (chain_init hs id p) = chain_words p.
Proof. by destruct p. Qed.

Lemma state_counter_chain_init hs id p : state_counter (chain_init hs id p) = length p.
Proof. by destruct p. Qed.

Lemma graph_inv_chain_init hs id p : graph_inv (chain_init hs id p).
Proof.
  destruct (addWordSequence_steps (init hs id) p (graph_inv_init hs id))
    as (g' & Hrun & Hg' & _).
  rewrite addWordSequence_init in Hrun. by injection Hrun as ->.
Qed.

(** C8.  Appending the labels of any sequence one after the other to a new
    graph succeeds.  The words carry the labels in order; the first word
    starts at the initial state; each later word starts where the word
    before it ends; and the final state of each word is new when the word is
    appended: before that append it is no key of [states] and no word
    starts or ends there, after it it is a state with an empty list. *)
Theorem C8_chain_continuity (hs : gmap string (gset string)) (id : option string)
    (labels : list string) :
  ∃ g, exec (addWordSequence labels) (init hs id) = Ok g ∧
    label <$> words g = labels ∧
    (∀ w, words g !! 0 = Some w → start w = initial_state) ∧
    (∀ i a b, words g !! i = Some a → words g !! S i = Some b → final a = start b) ∧
    (∀ i w, words g !! i = Some w →
       ∃ gi gi',
         exec (addWordSequence (take i labels)) (init hs id) = Ok gi ∧
         exec (addNextWord (label w)) gi = Ok gi' ∧
         words gi' = words gi ++ [w] ∧
         dict_get (states gi) (final w) = None ∧
         (∀ w', w' ∈ words gi → start w' ≠ final w ∧ final w' ≠ final w) ∧
         dict_get (states gi') (final w) = Some []).
Proof.
  exists (chain_init hs id labels).
  split; [unfold exec; by rewrite addWordSequence_init|].
  rewrite words_chain_init.
  split; [apply fmap_label_chain_from|]. split; [|split].
  - intros w Hw. rewrite chain_words_lookup in Hw.
    destruct (labels !! 0); [|done]. by injection Hw as <-.
  - intros i a b Ha Hb. rewrite chain_words_lookup in Ha, Hb.
    destruct (labels !! i); [|done]. destruct (labels !! S i); [|done].
    injection Ha as <-. by injection Hb as <-.
  - intros i w Hw. rewrite chain_words_lookup in Hw.
    destruct (labels !! i) as [l|] eqn:Hl; [|done]. injection Hw as <-.
    cbn [label final].
    assert (Hlen : length (take i labels) = i).
    { apply length_take_le. apply lookup_lt_Some in Hl. lia. }
    set (gi := chain_init hs id (take i labels)).
    pose proof (graph_inv_chain_init hs id (take i labels)) as Hgi. fold gi in Hgi.
    assert (Hc : state_counter gi = i)
      by (unfold gi; by rewrite state_counter_chain_init).
    destruct (addNextWord_step gi l Hgi) as (gi' & Hstep & _ & Hw' & _ & Hfresh & Hnew).
    rewrite Hc in Hw', Hfresh, Hnew.
    exists gi, gi'. split; [unfold exec; by rewrite addWordSequence_init|].
    split; [unfold exec; by rewrite Hstep|].
    split; [|split; [done|split; [|done]]].
    + rewrite Hw'. do 2 f_equal. unfold gi. rewrite words_chain_init.
      destruct (take i labels) as [|x q] eqn:E using rev_ind.
      * simpl in Hlen. by subst i.
      * rewrite last_chain_words. simpl. rewrite length_app in Hlen.
        simpl in Hlen. f_equal. lia.
    + intros w' Hin. destruct Hgi as (_ & _ & Hb & _).
      apply Hb in Hin. rewrite Hc in Hin. lia.
Qed.

(** ** Final-state markers and the guard *)

Lemma blocked_arcs_of hs items lbl :
  blocked hs items lbl = blocked hs (arcs_of items) lbl.
Proof.
  apply eq_true_iff_eq. rewrite !blocked_true_iff. unfold arcs_of. split.
  - intros (item & Hin & Hl). exists item. split; [|done].
    apply list_elem_of_filter. split; [|done].
    destruct item; [done|]. simpl in Hl. by apply not_elem_of_empty in Hl.
  - intros (item & [_ Hin]%list_elem_of_filter & Hl). eauto.
Qed.

Lemma arcs_of_app items items' : arcs_of (items ++ items') = arcs_of items ++ arcs_of items'.
Proof. apply filter_app. Qed.

Lemma blocked_final_marker hs items s w lbl :
  blocked hs (items ++ [FinalState s w]) lbl = blocked hs items lbl.
Proof.
  rewrite (blocked_arcs_of hs (items ++ _)), arcs_of_app. cbn.
  by rewrite app_nil_r, <- blocked_arcs_of.
Qed.

(** C10.  Whatever the graph, the state, the marker's weight and the arc: the
    guard of [addArc] on a list is the guard on its arcs alone, the markers
    count for nothing; a final-state marker appended to a state's list does
    not change the guard there; and marking the state before the arc is
    tried or after it leaves the same arcs inserted, [new] in both orders
    (the two calls fail together when the state does not exist). *)
Theorem C10_final_marker_commutes (g : PromptLMFST) (s t : nat) (w w' : number)
    (i o : string) :
  (∀ items, blocked (homophones g) items i = blocked (homophones g) (arcs_of items) i) ∧
  match dict_get (states g) s with
  | Some items =>
      let new := if blocked (homophones g) items i then [] else [Arc s t i o w'] in
      blocked (homophones g) (items ++ [FinalState s w]) i
      = blocked (homophones g) items i ∧
      exec (addFinalState s w;; addArc s t i o w') g
      = Ok (set_states (dict_set (states g) s (items ++ [FinalState s w] ++ new)) g) ∧
      exec (addArc s t i o w';; addFinalState s w) g
      = Ok (set_states (dict_set (states g) s (items ++ new ++ [FinalState s w])) g)
  | None =>
      exec (addFinalState s w;; addArc s t i o w') g = Raise KeyError ∧
      exec (addArc s t i o w';; addFinalState s w) g = Raise KeyError
  end.
Proof.
  split; [intros items; apply blocked_arcs_of|].
  destruct (dict_get (states g) s) as [items|] eqn:E.
  - cbv zeta. split; [apply blocked_final_marker|]. split.
    + rewrite exec_bind, addFinalState_eq, E. unfold exec.
      rewrite addArc_eq. unfold set_states at 1 2 3.
      cbn [states homophones]. rewrite dict_get_set_eq, blocked_final_marker.
      destruct (blocked (homophones g) items i).
      * by rewrite app_nil_r.
      * unfold set_states. cbn [states ID words state_counter initialised homophones].
        by rewrite dict_set_set, <- app_assoc.
    + rewrite exec_bind, addArc_eq, E. unfold exec.
      destruct (blocked (homophones g) items i).
      * by rewrite addFinalState_eq, E.
      * rewrite addFinalState_eq. unfold set_states.
        cbn [states ID words state_counter initialised homophones].
        by rewrite dict_get_set_eq, dict_set_set, <- app_assoc.
  - split.
    + by rewrite exec_bind, addFinalState_eq, E.
    + by rewrite exec_bind, addArc_eq, E.
Qed.

(** "read" and "red" on one line of the homophone file: marking state 0 as
    final between the two arcs changes nothing, the arc that reads "red" is
    dropped either way. *)
Example final_marker_read_red :
  let hs := readHomophones (Some [["read"; "red"]]) in
  exec (addNextWord "read";; addArc 0 1 "read" "read" (PyInt 100);;
        addFinalState 0 (PyFloat 0);; addArc 0 1 "red" "red" (PyInt 100)) (init hs None)
  = exec (addNextWord "read";; addArc 0 1 "read" "read" (PyInt 100);;
          addFinalState 0 (PyFloat 0)) (init hs None).
Proof. vm_compute. reflexivity. Qed.

(** ** Where the code departs from the documented behaviour *)

(** On a graph without final-state markers [isDeterministic] returns, and
    returns [True] exactly when no state has two arcs with the same input
    label. *)
Lemma scan_state_arcs seen items :
  Forall (λ x, is_arc x = true) items →
  scan_state seen items
  = Ok (bool_decide (NoDup (in_labels items) ∧ Forall (λ l, l ∉ seen) (in_labels items))).
Proof.
  unfold in_labels. revert seen.
  induction items as [|item items IH]; intros seen Harcs.
  - reflexivity.
  - inversion Harcs as [|? ? Hitem Hrest]; subst.
    destruct item as [f t l o w|]; [|done].
    change (omap getattr_in_label (Arc f t l o w :: items))
      with (l :: omap getattr_in_label items).
    change (scan_state seen (Arc f t l o w :: items))
      with (if bool_decide (l ∈ seen) then Ok false
            else scan_state ({[ l ]} ∪ seen) items).
    destruct (decide (l ∈ seen)) as [Hin|Hnin].
    + rewrite (bool_decide_eq_true_2 (l ∈ seen)) by done.
      rewrite bool_decide_eq_false_2; [done|].
      intros [_ Hall]. by inversion Hall.
    + rewrite (bool_decide_eq_false_2 (l ∈ seen)) by done. rewrite IH by done.
      f_equal. apply bool_decide_ext.
      rewrite NoDup_cons, Forall_cons, !Forall_forall. split.
      * intros [Hnd Hall]. repeat split; try done.
        -- intros Hl. apply (Hall l Hl). set_solver.
        -- intros x Hx Hseen. apply (Hall x Hx). set_solver.
      * intros [[Hl Hnd] [_ Hall]]. split; [done|].
        intros x Hx [->%elem_of_singleton|Hseen]%elem_of_union; [done|].
        by apply (Hall x Hx).
Qed.

Lemma scan_states_arcs (L : list (list Leaf)) :
  Forall (Forall (λ x, is_arc x = true)) L →
  scan_states L = Ok (bool_decide (Forall (λ items, NoDup (in_labels items)) L)).
Proof.
  induction L as [|items L IH]; intros Harcs.
  - reflexivity.
  - inversion Harcs as [|? ? Hitems Hrest]; subst. cbn [scan_states].
    rewrite scan_state_arcs by done.
    destruct (decide (NoDup (in_labels items))) as [Hnd|Hnd].
    + rewrite bool_decide_eq_true_2.
      * rewrite IH by done. f_equal. apply bool_decide_ext.
        rewrite Forall_cons. tauto.
      * split; [done|]. apply Forall_forall. intros l _. apply not_elem_of_empty.
    + rewrite bool_decide_eq_false_2 by tauto.
      rewrite bool_decide_eq_false_2; [done|]. by intros [? _]%Forall_cons.
Qed.

Lemma isDeterministic_without_markers g :
  Forall (Forall (λ x, is_arc x = true)) (dict_values (states g)) →
  isDeterministic g
  = Ok (bool_decide (Forall (λ items, NoDup (in_labels items)) (dict_values (states g)))).
Proof. apply scan_states_arcs. Qed.

(** C1.  The prompt a b a with no homophone file.  At the state after the
    first word the skip recipe puts an arc that reads "a" (skipping "b") and
    the repeat recipe a self-loop that reads "a"; the guard does not stop
    the second, because a word that is in no line of the homophone file is
    not in its own homophone set.  The graph is not deterministic, and the
    graph's own check says so. *)
Theorem C1_duplicate_input_label :
  ∃ g, build (readHomophones None) ["a"; "b"; "a"] = Ok g ∧
       dict_get (states g) 1
       = Some [Arc 1 2 "b" "b" (PyInt 100); Arc 1 1 "[RUB]" "[RUB]" (PyInt 5);
               Arc 1 5 "a" "[SKP]" (PyInt 10); Arc 1 1 "a" "a" (PyInt 30)] ∧
       ¬ input_deterministic g ∧
       isDeterministic g = Ok false.
Proof.
  eexists. split; [vm_compute; reflexivity|]. split; [reflexivity|].
  split; [|reflexivity].
  intros Hdet.
  destruct (Hdet 1 _ 2 3 1 5 "a" "[SKP]" (PyInt 10) 1 1 "a" "a" (PyInt 30)
              eq_refl ltac:(lia) eq_refl eq_refl) as [Hne _].
  by apply Hne.
Qed.

(** C3.  With no homophone file, a second arc with the very label of an arc
    already at the state is appended, not dropped. *)
Theorem C3_equal_label_appended :
  ∃ g, exec (addNextWord "a";;
             addArc 0 1 "a" "a" (PyInt 100);;
             addArc 0 1 "a" "a" (PyInt 100)) (init (readHomophones None) None) = Ok g ∧
       dict_get (states g) 0
       = Some [Arc 0 1 "a" "a" (PyInt 100); Arc 0 1 "a" "a" (PyInt 100)].
Proof. eexists. split; [vm_compute; reflexivity|reflexivity]. Qed.

(** What [addArc] does, for every graph: nothing when some item already at
    the state has the new input label in the homophone set of its own input
    label, an append otherwise. *)
Lemma addArc_spec f t i o w g items :
  dict_get (states g) f = Some items →
  ((∃ item, item ∈ items ∧ i ∈ defaultdict_get (homophones g) (getattr_in_label item)) →
   addArc f t i o w g = Ok ((), g)) ∧
  ((∀ item, item ∈ items → i ∉ defaultdict_get (homophones g) (getattr_in_label item)) →
   addArc f t i o w g
   = Ok ((), set_states (dict_set (states g) f (items ++ [Arc f t i o w])) g)).
Proof.
  intros Hitems. rewrite addArc_eq, Hitems. split.
  - intros Hex. apply blocked_true_iff in Hex. by rewrite Hex.
  - intros Hall. apply blocked_false_iff in Hall. by rewrite Hall.
Qed.

(** The part of C3 on listed homophones holds: "read" and "red" on one line,
    an arc that reads "read" at state 0; the arc that reads "red" is dropped
    and the list of state 0 keeps its length. *)
Example homophone_merge_read_red :
  let hs := readHomophones (Some [["read"; "red"]]) in
  ∃ g g', exec (addNextWord "read";; addArc 0 1 "read" "read" (PyInt 100)) (init hs None)
          = Ok g ∧
          exec (addArc 0 1 "red" "red" (PyInt 100)) g = Ok g' ∧
          g' = g ∧
          length <$> dict_get (states g') 0 = length <$> dict_get (states g) 0.
Proof.
  eexists _, _. split; [vm_compute; reflexivity|]. split; [vm_compute; reflexivity|].
  split; reflexivity.
Qed.

(** C4.  One word and its correct path: the last state's list holds the
    final-state marker, and [isDeterministic] fails on it with an
    [AttributeError] instead of returning a boolean. *)
Theorem C4_isDeterministic_raises :
  ∃ g, exec (addWordSequence ["a"];; addCorrectPaths weights)
            (init (readHomophones None) None) = Ok g ∧
       dict_get (states g) 1 = Some [FinalState 1 (PyFloat 0)] ∧
       isDeterministic g = Raise AttributeError.
Proof. eexists. split; [vm_compute; reflexivity|]. split; reflexivity. Qed.

(** The same for every state list that starts with a marker, when the
    states before it pass the scan. *)
Lemma scan_states_marker (L : list (list Leaf)) k s w rest :
  L !! k = Some (FinalState s w :: rest) →
  (∀ j items, j < k → L !! j = Some items → scan_state ∅ items = Ok true) →
  scan_states L = Raise AttributeError.
Proof.
  revert k. induction L as [|items L IH]; intros k Hk Hbefore; [done|].
  destruct k as [|k]; simpl in *.
  - by injection Hk as ->.
  - rewrite (Hbefore 0 items) by (done || lia).
    apply (IH k Hk). intros j items' Hj. apply (Hbefore (S j)). lia.
Qed.

Lemma isDeterministic_after_correct W hs id prompt :
  prompt ≠ [] →
  ∃ g, exec (addWordSequence prompt;; addCorrectPaths W) (init hs id) = Ok g ∧
       isDeterministic g = Raise AttributeError.
Proof.
  intros Hp. eexists. split; [by apply exec_correct_chain|].
  unfold isDeterministic, chainG. cbn [states]. rewrite dict_values_dense.
  eapply (scan_states_marker _ (length prompt)).
  - by apply correct_chain_lookup_final.
  - intros j items Hj Hitems.
    destruct (lookup_lt_is_Some_2 prompt j Hj) as [l Hl].
    rewrite (correct_chain_lookup_word W hs prompt j l Hl) in Hitems.
    by injection Hitems as <-.
Qed.

(** ** The weights that are written out *)

Lemma ln_lt_self (x : R) : (0 < x)%R → (ln x < x)%R.
Proof.
  intros Hx. apply exp_lt_inv. rewrite exp_ln by exact Hx.
  pose proof (exp_ineq1_le x). lra.
Qed.

Lemma neg_ln_inv_lt (x : R) : (0 < x)%R → (- ln (/ x) < x)%R.
Proof.
  intros Hx. rewrite ln_Rinv by exact Hx.
  pose proof (ln_lt_self x Hx). lra.
Qed.

(** An arc that [addArc] inserts carries the weight it was given. *)
Lemma addArc_weight_stored f t i o w g g' items :
  addArc f t i o w g = Ok ((), g') →
  dict_get (states g') f = Some items →
  ∀ item, item ∈ items →
    (∃ old, dict_get (states g) f = Some old ∧ item ∈ old) ∨ item = Arc f t i o w.
Proof.
  rewrite addArc_eq. destruct (dict_get (states g) f) as [old|] eqn:E; [|done].
  destruct (blocked (homophones g) old i).
  - intros [= <-]. rewrite E. intros [= <-] item Hin. left. eauto.
  - intros [= <-]. unfold set_states. cbn [states]. rewrite dict_get_set_eq.
    intros [= <-] item [Hin| ->%list_elem_of_singleton]%elem_of_app; [left|right]; eauto.
Qed.

(** C2.  Two arcs that leave one state with the relative weights 10 and 30.
    The text written for the graph carries 10 and 30 themselves; nothing in
    the code divides by the sum of the weights at a state or takes a
    logarithm, and 10 and 30 are not the costs -ln 0.25 and -ln 0.75. *)
Theorem C2_raw_weights_written :
  ∃ g, exec (addNextWord "w";;
             addArc 0 1 "x" "x" (PyInt 10);;
             addArc 0 1 "y" "y" (PyInt 30)) (init (readHomophones None) None) = Ok g ∧
       leaves g = [Arc 0 1 "x" "x" (PyInt 10); Arc 0 1 "y" "y" (PyInt 30)] ∧
       (∀ str_float,
          inText str_float g
          = "0 1 x x 10" +:+ newline +:+ "0 1 y y 30" +:+ newline) ∧
       number_to_R (PyInt 10) ≠ normalised_cost (PyInt 10) [PyInt 10; PyInt 30] ∧
       number_to_R (PyInt 30) ≠ normalised_cost (PyInt 30) [PyInt 10; PyInt 30].
Proof.
  eexists. split; [vm_compute; reflexivity|]. split; [reflexivity|].
  split; [intros str_float; vm_compute; reflexivity|].
  unfold normalised_cost, number_to_R. cbn [foldr].
  split.
  - replace (10 / (10 + (30 + 0)))%R with (/ 4)%R by lra.
    pose proof (neg_ln_inv_lt 4 ltac:(lra)). lra.
  - replace (30 / (10 + (30 + 0)))%R with (/ (4 / 3))%R by lra.
    pose proof (neg_ln_inv_lt (4 / 3) ltac:(lra)). lra.
Qed.

(** The FinalState weight is written as it is in the table. *)
Example final_weight_written str_float :
  ∃ g, exec (addWordSequence ["a"];; addCorrectPaths weights)
            (init (readHomophones None) None) = Ok g ∧
       inText str_float g
       = "0 1 a a 100" +:+ newline +:+ "1 " +:+ str_float 0%Q +:+ newline.
Proof. eexists. split; [vm_compute; reflexivity|]. reflexivity. Qed.

(** ** What the guard does keep *)

Lemma guarded_nil hs : guarded hs [].
Proof. intros j k x f t l o w _ Hj. done. Qed.

Lemma guarded_snoc hs items item :
  guarded hs items →
  (∀ f t l o w, item = Arc f t l o w →
     ∀ x, x ∈ items → l ∉ defaultdict_get hs (getattr_in_label x)) →
  guarded hs (items ++ [item]).
Proof.
  intros Hg Hnew j k x f t l o w Hjk Hj Hk.
  apply lookup_lt_Some in Hk as Hlen. rewrite length_app in Hlen. simpl in Hlen.
  rewrite lookup_app_l in Hj by lia.
  destruct (decide (k < length items)) as [Hlt|Hge].
  - rewrite lookup_app_l in Hk by done. exact (Hg j k x f t l o w Hjk Hj Hk).
  - assert (k = length items) as -> by lia.
    rewrite list_lookup_middle in Hk by done. injection Hk as ->.
    apply (Hnew f t l o w eq_refl x). by eapply list_elem_of_lookup_2.
Qed.

Lemma all_guarded_set hs g k items :
  all_guarded hs g → guarded hs items →
  all_guarded hs (set_states (dict_set (states g) k items) g).
Proof.
  intros [Hh Hall] Hitems. split; [done|].
  unfold set_states. cbn [states]. intros s items' Hget.
  destruct (decide (s = k)) as [->|Hne].
  - rewrite dict_get_set_eq in Hget. by injection Hget as <-.
  - rewrite dict_get_set_ne in Hget by done. by eapply Hall.
Qed.

Lemma all_guarded_modify hs (f : PromptLMFST → PromptLMFST) :
  (∀ g, homophones (f g) = homophones g ∧ states (f g) = states g) →
  preserves (all_guarded hs) (modify f).
Proof.
  intros Hf g a g' [Hh Hall] [= _ <-]. destruct (Hf g) as [Hh' Hs'].
  split; [congruence|]. rewrite Hs'. exact Hall.
Qed.

Lemma all_guarded_states_set_empty hs k :
  preserves (all_guarded hs) (states_set_empty k).
Proof.
  intros g a g' Hg [= _ <-]. apply all_guarded_set; [done|apply guarded_nil].
Qed.

Lemma all_guarded_newState hs : preserves (all_guarded hs) newState.
Proof.
  intros g a g' [Hh Hall]. rewrite newState_eq. intros [= _ <-].
  split; [done|]. cbn [states]. intros s items Hget.
  destruct (decide (s = S (state_counter g))) as [->|Hne].
  - rewrite dict_get_set_eq in Hget. injection Hget as <-. apply guarded_nil.
  - rewrite dict_get_set_ne in Hget by done. by eapply Hall.
Qed.

Lemma all_guarded_addFinalState hs s w :
  preserves (all_guarded hs) (addFinalState s w).
Proof.
  intros g a g' Hg. rewrite addFinalState_eq.
  destruct (dict_get (states g) s) as [items|] eqn:E; [|done].
  intros [= _ <-]. apply all_guarded_set; [done|].
  apply guarded_snoc; [by eapply (proj2 Hg)|]. intros; discriminate.
Qed.

Lemma all_guarded_addArc hs f t i o w :
  preserves (all_guarded hs) (addArc f t i o w).
Proof.
  intros g a g' Hg. rewrite addArc_eq.
  destruct (dict_get (states g) f) as [items|] eqn:E; [|done].
  destruct (blocked (homophones g) items i) eqn:Hb.
  - by intros [= _ <-].
  - intros [= _ <-]. apply all_guarded_set; [done|].
    apply guarded_snoc; [by eapply (proj2 Hg)|].
    intros f' t' l o' w' [= _ _ <- _ _] x Hx.
    rewrite <- (proj1 Hg). by eapply blocked_false_iff.
Qed.

Lemma all_guarded_addNextWord hs l : preserves (all_guarded hs) (addNextWord l).
Proof.
  unfold addNextWord. apply preserves_bind; [apply preserves_gets|]. intros ini.
  destruct (negb ini).
  - apply preserves_bind; [apply preserves_gets|]. intros c.
    apply preserves_bind; [apply all_guarded_states_set_empty|]. intros _.
    apply preserves_bind; [apply preserves_gets|]. intros s.
    apply preserves_bind; [apply all_guarded_newState|]. intros f.
    apply preserves_bind; [by apply all_guarded_modify|]. intros _.
    by apply all_guarded_modify.
  - apply preserves_bind.
    + unfold curr_word. apply preserves_bind; [apply preserves_gets|]. intros i.
      destruct (negb i); [apply preserves_raise|].
      apply preserves_bind; [apply preserves_gets|]. intros ws.
      apply preserves_list_last.
    + intros w. apply preserves_bind; [apply all_guarded_newState|]. intros f.
      by apply all_guarded_modify.
Qed.

Lemma all_guarded_last_call hs (k : Word → M unit) :
  (∀ w, preserves (all_guarded hs) (k w)) →
  preserves (all_guarded hs) (ws' ← gets words; lastw ← list_last ws'; k lastw).
Proof.
  intros Hk. apply preserves_bind; [apply preserves_gets|]. intros ws'.
  apply preserves_bind; [apply preserves_list_last|]. exact Hk.
Qed.

Lemma all_guarded_run_recipe hs r W : preserves (all_guarded hs) (run_recipe r W).
Proof.
  destruct r; simpl.
  - unfold addCorrectPaths. apply preserves_bind; [apply preserves_gets|]. intros ws0.
    apply preserves_bind.
    + apply preserves_forM_. intros x. apply all_guarded_addArc.
    + intros _. apply all_guarded_last_call. intros w. apply all_guarded_addFinalState.
  - unfold addRubbishPaths. apply preserves_bind; [apply preserves_gets|]. intros ws0.
    apply preserves_bind.
    + apply preserves_forM_. intros x. apply all_guarded_addArc.
    + intros _. apply all_guarded_last_call. intros w. apply all_guarded_addArc.
  - unfold addSkipPaths. apply preserves_bind; [apply preserves_gets|]. intros ws0.
    apply preserves_bind.
    + apply preserves_forM_. intros [word next_word].
      destruct (bool_decide _); [|apply preserves_mret].
      apply preserves_bind; [apply all_guarded_newState|]. intros s.
      apply preserves_bind; [apply all_guarded_addArc|]. intros _.
      apply all_guarded_addArc.
    + intros _. apply all_guarded_last_call. intros w. apply all_guarded_addArc.
  - unfold addRepeatPaths. apply preserves_bind; [apply preserves_gets|]. intros ws0.
    apply preserves_bind.
    + apply preserves_forM_. intros [word next_word].
      destruct (bool_decide _); [|apply preserves_mret]. apply all_guarded_addArc.
    + intros _. apply all_guarded_last_call. intros w. apply all_guarded_addArc.
Qed.

Lemma all_guarded_run_call hs c : preserves (all_guarded hs) (run_call c).
Proof.
  destruct c; cbn [run_call].
  - apply all_guarded_addNextWord.
  - apply preserves_forM_. intros x. apply all_guarded_addNextWord.
  - apply preserves_bind; [apply all_guarded_newState|]. intros _. apply preserves_mret.
  - apply all_guarded_addArc.
  - apply all_guarded_addFinalState.
  - apply all_guarded_run_recipe.
Qed.

(** After any sequence of calls on a new graph, every state's list is
    guarded. *)
Lemma guard_invariant hs id cs g :
  exec (run_calls cs) (init hs id) = Ok g → all_guarded hs g.
Proof.
  unfold exec. destruct (run_calls cs (init hs id)) as [[[] g']|e] eqn:E; [|done].
  intros [= <-].
  eapply (preserves_forM_ (all_guarded hs) cs run_call); [|split|exact E].
  - apply all_guarded_run_call.
  - done.
  - intros s items Hget. done.
Qed.

(** When every input label in the graph is in its own homophone set, as the
    words listed in the homophone file are, the guard gives determinism. *)
Lemma listed_labels_deterministic hs id cs g :
  exec (run_calls cs) (init hs id) = Ok g →
  (∀ s items f t l o w,
     dict_get (states g) s = Some items → Arc f t l o w ∈ items →
     l ∈ defaultdict_get hs (Some l)) →
  input_deterministic g.
Proof.
  intros Hrun Hrefl. destruct (guard_invariant hs id cs g Hrun) as [Hh Hall].
  intros s items j k f t a o w f' t' b o' w' Hget Hjk Hj Hk.
  specialize (Hall s items Hget). rewrite Hh. unfold homophonous.
  destruct (decide (j < k)) as [Hlt|Hge].
  - pose proof (Hall j k _ _ _ _ _ _ Hlt Hj Hk) as Hno. simpl in Hno.
    split; [|tauto]. intros ->. apply Hno.
    eapply Hrefl; [exact Hget|]. by eapply list_elem_of_lookup_2.
  - assert (Hlt : k < j) by lia.
    pose proof (Hall k j _ _ _ _ _ _ Hlt Hk Hj) as Hno. simpl in Hno.
    split; [|tauto]. intros <-. apply Hno.
    eapply Hrefl; [exact Hget|]. by eapply list_elem_of_lookup_2.
Qed.

(** ** The whole construction *)

Lemma length_after_correct hs W p : length (after_correct hs W p) = S (length p).
Proof. unfold after_correct. by rewrite length_foldl_try_leaf, length_replicate. Qed.

Lemma length_after_rubbish hs W p : length (after_rubbish hs W p) = S (length p).
Proof. unfold after_rubbish. by rewrite length_foldl_try_leaf, length_after_correct. Qed.

Lemma length_after_skip hs W p :
  length (after_skip hs W p) = S (length p) + count_changes p.
Proof.
  unfold after_skip. rewrite length_app, length_foldl_try_leaf, length_after_rubbish.
  unfold skip_out_lists, chain_words. by rewrite length_fmap, length_skip_states.
Qed.

(** For a non-empty prompt the construction succeeds, and its result is
    known in closed form. *)
Lemma construct_chainG W hs id p :
  p ≠ [] →
  exec (construct W p) (init hs id) = Ok (chainG id p (after_repeat hs W p) hs).
Proof.
  intros Hp. unfold construct.
  rewrite exec_bind, addWordSequence_init, chain_init_chainG by done.
  rewrite exec_bind, addCorrectPaths_dense
    by (done || rewrite length_replicate; lia).
  fold (after_correct hs W p).
  rewrite exec_bind, addRubbishPaths_dense
    by (done || rewrite length_after_correct; lia).
  fold (after_rubbish hs W p).
  rewrite exec_bind, addSkipPaths_dense
    by (done || rewrite length_after_rubbish; lia).
  rewrite length_after_rubbish. fold (after_skip hs W p).
  unfold exec. rewrite addRepeatPaths_dense; [done|done|].
  rewrite length_after_skip. lia.
Qed.

Lemma extends_refl L : extends L L.
Proof. intros j items Hj. exists []. by rewrite app_nil_r. Qed.

Lemma extends_trans L1 L2 L3 : extends L1 L2 → extends L2 L3 → extends L1 L3.
Proof.
  intros H12 H23 j items Hj. destruct (H12 j items Hj) as (e1 & H1).
  destruct (H23 j _ H1) as (e2 & H2). exists (e1 ++ e2). by rewrite app_assoc.
Qed.

Lemma extends_try_leaf hs L a : extends L (try_leaf hs L a).
Proof.
  intros j items Hj. destruct (decide (leaf_from a = j)) as [<-|Hne].
  - rewrite (try_leaf_lookup_eq hs L a items Hj). eauto.
  - rewrite try_leaf_lookup_ne by done. exists []. by rewrite app_nil_r.
Qed.

Lemma extends_foldl hs leaves L : extends L (foldl (try_leaf hs) L leaves).
Proof.
  revert L. induction leaves as [|a leaves IH]; intros L; simpl.
  - apply extends_refl.
  - eapply extends_trans; [apply extends_try_leaf|apply IH].
Qed.

Lemma extends_app L X : extends L (L ++ X).
Proof.
  intros j items Hj. exists []. rewrite app_nil_r.
  rewrite lookup_app_l; [done|]. by eapply lookup_lt_Some.
Qed.

Lemma extends_after_repeat hs W p : extends (after_correct hs W p) (after_repeat hs W p).
Proof.
  unfold after_repeat, after_skip, after_rubbish.
  eapply extends_trans; [apply extends_foldl|].
  eapply extends_trans; [apply extends_foldl|].
  eapply extends_trans; [apply extends_app|]. apply extends_foldl.
Qed.

Lemma path_extends id p hs L L' s arcs t :
  extends L L' →
  path (chainG id p L hs) s arcs t → path (chainG id p L' hs) s arcs t.
Proof.
  intros Hext Hpath. induction Hpath as [s|s t u i o w rest items Hget Hin _ IH].
  - constructor.
  - unfold chainG in Hget. cbn [states] in Hget. rewrite dict_get_dense in Hget.
    destruct (Hext s items Hget) as (extra & Hget').
    eapply path_cons; [|by apply elem_of_app; left; exact Hin|exact IH].
    unfold chainG. cbn [states]. by rewrite dict_get_dense.
Qed.

Lemma accepting_extends id p hs L L' s :
  extends L L' →
  accepting (chainG id p L hs) s → accepting (chainG id p L' hs) s.
Proof.
  intros Hext (items & w & Hget & Hin).
  unfold chainG in Hget. cbn [states] in Hget. rewrite dict_get_dense in Hget.
  destruct (Hext s items Hget) as (extra & Hget').
  exists (items ++ extra), w. split.
  - unfold chainG. cbn [states]. by rewrite dict_get_dense.
  - apply elem_of_app. by left.
Qed.

(** The correct path is still there when the other recipes have run. *)
Lemma correct_path_in_construct W hs id prompt :
  prompt ≠ [] →
  Forall (λ l, ¬ is_special l) prompt →
  ∃ g, exec (construct W prompt) (init hs id) = Ok g ∧
    ∃ arcs s, path g initial_state arcs s ∧ accepting g s ∧
              read_labels arcs = prompt.
Proof.
  intros Hp Hspecial.
  destruct (correct_path_chain W hs id prompt Hp) as [Hpath Hacc].
  eexists. split; [by apply construct_chainG|].
  exists (correct_arc W <$> chain_words prompt), (length prompt).
  split; [|split].
  - eapply path_extends; [apply extends_after_repeat|exact Hpath].
  - eapply accepting_extends; [apply extends_after_repeat|exact Hacc].
  - by apply read_labels_chain.
Qed.

(** * Further properties of the code *)

(** ** The homophone table *)

Lemma defaultdict_get_insert (hs : gmap string (gset string)) w S a :
  defaultdict_get (<[w := S]> hs) (Some a)
  = if decide (w = a) then S else defaultdict_get hs (Some a).
Proof.
  unfold defaultdict_get. destruct (decide (w = a)) as [->|Hne].
  - by rewrite lookup_insert_eq.
  - by rewrite lookup_insert_ne.
Qed.

Lemma add_line_elem S (hs : gmap string (gset string)) ws a x :
  x ∈ defaultdict_get (add_line S hs ws) (Some a) ↔
  x ∈ defaultdict_get hs (Some a) ∨ (a ∈ ws ∧ x ∈ S).
Proof.
  unfold add_line. revert hs. induction ws as [|w ws IH]; intros hs.
  - simpl. split; [auto|]. intros [?|[Hin _]]; [done|]. by apply elem_of_nil in Hin.
  - cbn [foldl]. rewrite IH, defaultdict_get_insert, elem_of_cons.
    destruct (decide (w = a)) as [->|Hne].
    + rewrite elem_of_union. tauto.
    + split; [tauto|]. intros [?|[[->|?] ?]]; tauto.
Qed.

Lemma readHomophones_elem lines_split a x :
  x ∈ defaultdict_get (readHomophones (Some lines_split)) (Some a) ↔
  same_line lines_split a x.
Proof.
  unfold readHomophones, same_line.
  change (foldl (λ hs line,
            foldl (λ hs' word,
                     <[word := list_to_set line ∪ defaultdict_get hs' (Some word)]> hs')
                  hs line) ∅ lines_split)
    with (foldl (λ hs line, add_line (list_to_set line) hs line)
                (∅ : gmap string (gset string)) lines_split).
  assert (Hgen : ∀ hs : gmap string (gset string),
            x ∈ defaultdict_get
                  (foldl (λ hs line, add_line (list_to_set line) hs line) hs lines_split)
                  (Some a) ↔
            x ∈ defaultdict_get hs (Some a) ∨
            ∃ line, line ∈ lines_split ∧ a ∈ line ∧ x ∈ line).
  { induction lines_split as [|line rest IH]; intros hs.
    - simpl. split; [auto|]. intros [?|(line & Hin & _)]; [done|].
      by apply elem_of_nil in Hin.
    - cbn [foldl]. rewrite IH, add_line_elem, elem_of_list_to_set. split.
      + intros [[?|[? ?]]|(l & ? & ? & ?)]; [by left| |].
        * right. exists line. split; [by left|done].
        * right. exists l. split; [by right|done].
      + intros [?|(l & [->|?]%elem_of_cons & ? & ?)]; [tauto|tauto|].
        right. by exists l. }
  rewrite Hgen. unfold defaultdict_get at 1. rewrite lookup_empty. simpl.
  split; [|auto]. intros [Hin|?]; [|done]. by apply not_elem_of_empty in Hin.
Qed.

(** X1.  What [readHomophones] builds from the lines of a file: a word is in
    the set of another exactly when some line holds both.  So the relation
    is symmetric, every word that is on a line is in its own set, and a word
    on no line has the empty set; without a file every set is empty. *)
Theorem X1_readHomophones_same_line (lines_split : list (list string)) (a b : string) :
  (b ∈ defaultdict_get (readHomophones (Some lines_split)) (Some a)
   ↔ same_line lines_split a b) ∧
  (b ∈ defaultdict_get (readHomophones (Some lines_split)) (Some a)
   → a ∈ defaultdict_get (readHomophones (Some lines_split)) (Some b)) ∧
  ((∃ line, line ∈ lines_split ∧ a ∈ line)
   ↔ a ∈ defaultdict_get (readHomophones (Some lines_split)) (Some a)) ∧
  ((∀ line, line ∈ lines_split → a ∉ line)
   → defaultdict_get (readHomophones (Some lines_split)) (Some a) = ∅) ∧
  defaultdict_get (readHomophones None) (Some a) = ∅.
Proof.
  split; [apply readHomophones_elem|]. split; [|split; [|split]].
  - rewrite !readHomophones_elem. intros (line & Hin & Ha & Hb). by exists line.
  - rewrite readHomophones_elem. split.
    + intros (line & Hin & Ha). by exists line.
    + intros (line & Hin & Ha & _). by exists line.
  - intros Hno. apply set_eq. intros x. rewrite readHomophones_elem. split.
    + intros (line & Hin & Ha & _). by destruct (Hno line Hin).
    + by intros ?%not_elem_of_empty.
  - reflexivity.
Qed.

(** ** The guard and the homophone file *)

(** X2.  An arc whose input label is on no line of the homophone file (or
    when there is no file) is never dropped: [addArc] appends it to the list
    of every state that exists, whatever the list holds, arcs with the same
    label included. *)
Theorem X2_unlisted_label_appended (file : option (list (list string)))
    (g : PromptLMFST) (f t : nat) (i o : string) (w : number) (items : list Leaf) :
  homophones g = readHomophones file →
  (∀ lines_split line, file = Some lines_split → line ∈ lines_split → i ∉ line) →
  dict_get (states g) f = Some items →
  addArc f t i o w g
  = Ok ((), set_states (dict_set (states g) f (items ++ [Arc f t i o w])) g).
Proof.
  intros Hh Hno Hitems. rewrite addArc_eq, Hitems.
  assert (Hb : blocked (homophones g) items i = false).
  { apply blocked_false_iff. intros item _. rewrite Hh.
    destruct (getattr_in_label item) as [l|]; [|apply not_elem_of_empty].
    destruct file as [lines_split|]; [|apply not_elem_of_empty].
    rewrite readHomophones_elem. intros (line & Hin & _ & Hi).
    by apply (Hno lines_split line). }
  by rewrite Hb.
Qed.

Lemma X2_unlisted_label_appended_witness :
  homophones read_graph = readHomophones (Some [["read"; "red"]]) ∧
  dict_get (states read_graph) 0 = Some [Arc 0 1 "read" "read" (PyInt 100)] ∧
  addArc 0 1 "rod" "rod" (PyInt 5) read_graph
  = Ok ((), set_states
              (dict_set (states read_graph) 0
                 ([Arc 0 1 "read" "read" (PyInt 100)] ++ [Arc 0 1 "rod" "rod" (PyInt 5)]))
              read_graph).
Proof.
  split; [reflexivity|]. split; [reflexivity|].
  apply (X2_unlisted_label_appended (Some [["read"; "red"]])).
  - reflexivity.
  - intros lines_split line [= <-] ->%list_elem_of_singleton Hin.
    apply elem_of_cons in Hin as [Hin|Hin]; [discriminate Hin|].
    apply list_elem_of_singleton in Hin. discriminate Hin.
  - reflexivity.
Defined.

(** X3.  An arc whose input label shares a line of the homophone file with
    the input label of an arc already at the state is dropped: [addArc]
    returns without raising and appends nothing, so that the states with
    their lists, the words, the counter and the flag are as they were.  The
    two labels may be the same word.  The table of the graph is taken by its
    answers: it gives every key the set the table of the file gives it,
    whatever empty entries earlier reads have left in it. *)
Theorem X3_same_line_label_dropped (lines_split : list (list string))
    (g : PromptLMFST) (f t f0 t0 : nat) (a b o o0 : string) (w w0 : number)
    (items : list Leaf) :
  (∀ k, defaultdict_get (homophones g) k
        = defaultdict_get (readHomophones (Some lines_split)) k) →
  same_line lines_split b a →
  dict_get (states g) f = Some items →
  Arc f0 t0 b o0 w0 ∈ items →
  ∃ g', addArc f t a o w g = Ok ((), g') ∧
    states g' = states g ∧ words g' = words g ∧
    state_counter g' = state_counter g ∧ initialised g' = initialised g ∧
    ID g' = ID g.
Proof.
  intros Hh Hline Hitems Hin. rewrite addArc_eq, Hitems.
  assert (Hb : blocked (homophones g) items a = true).
  { apply blocked_true_iff. exists (Arc f0 t0 b o0 w0). split; [done|].
    rewrite Hh. simpl. by apply readHomophones_elem. }
  rewrite Hb. by exists g.
Qed.

Lemma X3_same_line_label_dropped_witness :
  same_line [["read"; "red"]] "read" "red" ∧
  ∃ g', addArc 0 1 "red" "red" (PyInt 100) read_graph = Ok ((), g') ∧
    states g' = states read_graph ∧ words g' = words read_graph ∧
    state_counter g' = state_counter read_graph ∧
    initialised g' = initialised read_graph ∧ ID g' = ID read_graph.
Proof.
  assert (Hline : same_line [["read"; "red"]] "read" "red").
  { exists ["read"; "red"]. split; [by left|]. split; [by left|].
    right. by left. }
  split; [exact Hline|].
  apply (X3_same_line_label_dropped [["read"; "red"]] read_graph 0 1 0 1
           "red" "read" "red" "read" (PyInt 100) (PyInt 100)
           [Arc 0 1 "read" "read" (PyInt 100)]).
  - intros k. reflexivity.
  - exact Hline.
  - reflexivity.
  - by left.
Defined.

(** ** The correct and rubbish recipes on any graph with a word chain *)

Lemma last_leaf_elem p mk x :
  x ∈ last_leaf (chain_words p) mk ↔
  ∃ l, last p = Some l ∧ x = mk (mkWord l (pred (length p)) (length p)).
Proof.
  destruct (last p) as [l|] eqn:Hl.
  - rewrite (last_leaf_chain p l) by done. rewrite list_elem_of_singleton. split.
    + intros ->. by exists l.
    + by intros (l' & [= <-] & ->).
  - apply last_None in Hl as ->. split.
    + by intros ?%elem_of_nil.
    + by intros (l & ? & _).
Qed.

Lemma correct_leaves_elem W p x :
  x ∈ correct_leaves W (chain_words p) ↔
  (∃ i l, p !! i = Some l ∧ x = Arc i (S i) l l (Correct W)) ∨
  (∃ l, last p = Some l ∧ x = FinalState (length p) (FinalStateW W)).
Proof.
  unfold correct_leaves. rewrite elem_of_app, list_elem_of_fmap, last_leaf_elem. split.
  - intros [(w & -> & (i & l & Hl & ->)%chain_words_elem)|(l & Hl & ->)].
    + left. by exists i, l.
    + right. by exists l.
  - intros [(i & l & Hl & ->)|(l & Hl & ->)].
    + left. exists (mkWord l i (S i)). split; [done|]. apply chain_words_elem. eauto.
    + right. by exists l.
Qed.

Lemma rubbish_leaves_elem W p x :
  x ∈ rubbish_leaves W (chain_words p) ↔
  (∃ i l, p !! i = Some l ∧ x = rubbish_arc W i) ∨
  (∃ l, last p = Some l ∧ x = rubbish_arc W (length p)).
Proof.
  unfold rubbish_leaves. rewrite elem_of_app, list_elem_of_fmap, last_leaf_elem. split.
  - intros [(w & -> & (i & l & Hl & ->)%chain_words_elem)|(l & Hl & ->)].
    + left. by exists i, l.
    + right. by exists l.
  - intros [(i & l & Hl & ->)|(l & Hl & ->)].
    + left. exists (mkWord l i (S i)). split; [done|]. apply chain_words_elem. eauto.
    + right. by exists l.
Qed.

Lemma NoDup_rubbish_leaves W p :
  p ≠ [] → NoDup (leaf_from <$> rubbish_leaves W (chain_words p)).
Proof.
  intros Hp. destruct (last_is_Some p Hp) as (l & Hl).
  unfold rubbish_leaves. rewrite (last_leaf_chain p l) by done.
  apply (NoDup_froms _ (λ w, rubbish_arc W (start w)) _ (length p)).
  - apply NoDup_chain_words.
  - intros x y (i & a & Ha & ->)%chain_words_elem (j & b & Hb & ->)%chain_words_elem.
    simpl. intros ->. congruence.
  - intros x Hx. simpl. by apply chain_words_start_lt.
  - done.
Qed.

(** X4.  On a graph that carries the word chain of a non-empty prompt the
    rubbish recipe succeeds, allocates no state and changes no word.  Every
    state of the chain, the start of each word and the final state of the
    last, gets the self-loop that reads and writes the rubbish marker at the
    Rubbish weight, unless the guard of [addArc] finds the marker among the
    homophones of a label already at the state.  The states past the chain
    are left as they were. *)
Theorem X4_rubbish_paths (W : Weights) (prompt : list string) (g : PromptLMFST) :
  chain_graph prompt g → prompt ≠ [] →
  ∃ g', exec (addRubbishPaths W) g = Ok g' ∧
    words g' = words g ∧ state_counter g' = state_counter g ∧
    (∀ s items,
       s ≤ length prompt →
       dict_get (states g) s = Some items →
       dict_get (states g') s
       = Some (items ++
                 if blocked (homophones g) items special_labels.Rubbish then []
                 else [Arc s s special_labels.Rubbish special_labels.Rubbish (Rubbish W)])) ∧
    (∀ s, length prompt < s → dict_get (states g') s = dict_get (states g) s).
Proof.
  intros Hg Hp.
  destruct (chain_graph_chainG _ _ Hg) as (L & Heq & _ & _ & Hlt).
  destruct g as [id ws st c ini hs]. cbn [ID homophones] in *.
  rewrite Heq. clear Heq Hg ws st c ini.
  exists (chainG id prompt (foldl (try_leaf hs) L (rubbish_leaves W (chain_words prompt))) hs).
  unfold chainG at 2 3 4 5 6. cbn [words states state_counter homophones].
  split; [|split; [|split; [|split]]].
  - unfold exec. by rewrite addRubbishPaths_dense.
  - done.
  - by rewrite length_foldl_try_leaf.
  - intros s items Hs. unfold chainG. cbn [states].
    rewrite !dict_get_dense. intros Hitems.
    apply (foldl_try_leaf_lookup_at hs _ L (rubbish_arc W s) items).
    + by apply NoDup_rubbish_leaves.
    + apply rubbish_leaves_elem.
      destruct (decide (s < length prompt)) as [Hlt'|Hge].
      * left. destruct (lookup_lt_is_Some_2 prompt s Hlt') as [l Hl]. by exists s, l.
      * right. destruct (last_is_Some prompt Hp) as (l & Hl). exists l.
        split; [done|]. f_equal. lia.
    + done.
  - intros s Hs. unfold chainG. cbn [states].
    rewrite !dict_get_dense. apply foldl_try_leaf_lookup_other.
    apply Forall_forall. intros x Hx Hfrom.
    apply rubbish_leaves_elem in Hx as [(i & l & Hl & ->)|(l & Hl & ->)];
      simpl in Hfrom.
    + apply lookup_lt_Some in Hl. lia.
    + lia.
Qed.

Lemma X4_rubbish_paths_witness :
  ∃ g', exec (addRubbishPaths weights) (chain_init ∅ None ["the"; "cat"]) = Ok g' ∧
    words g' = words (chain_init ∅ None ["the"; "cat"]) ∧
    state_counter g' = state_counter (chain_init ∅ None ["the"; "cat"]) ∧
    (∀ s items,
       s ≤ length ["the"; "cat"] →
       dict_get (states (chain_init ∅ None ["the"; "cat"])) s = Some items →
       dict_get (states g') s
       = Some (items ++
                 if blocked (homophones (chain_init ∅ None ["the"; "cat"])) items
                            special_labels.Rubbish
                 then []
                 else [Arc s s special_labels.Rubbish special_labels.Rubbish
                           (Rubbish weights)])) ∧
    (∀ s, length ["the"; "cat"] < s →
       dict_get (states g') s = dict_get (states (chain_init ∅ None ["the"; "cat"])) s).
Proof.
  apply (X4_rubbish_paths weights ["the"; "cat"] (chain_init ∅ None ["the"; "cat"])).
  - repeat split; simpl; lia.
  - discriminate.
Defined.

(** X5.  On a graph that carries the word chain of a non-empty prompt the
    correct recipe succeeds, allocates no state and changes no word.  Each
    word's arc from its start to its final state is appended unless the
    guard of [addArc] drops it; the final-state marker of the last word is
    appended whatever the last state's list holds, a marker that is already
    there included. *)
Theorem X5_correct_paths (W : Weights) (prompt : list string) (g : PromptLMFST) :
  chain_graph prompt g → prompt ≠ [] →
  ∃ g', exec (addCorrectPaths W) g = Ok g' ∧
    words g' = words g ∧ state_counter g' = state_counter g ∧
    (∀ i l items,
       prompt !! i = Some l →
       dict_get (states g) i = Some items →
       dict_get (states g') i
       = Some (items ++
                 if blocked (homophones g) items l then []
                 else [Arc i (S i) l l (Correct W)])) ∧
    (∀ items,
       dict_get (states g) (length prompt) = Some items →
       dict_get (states g') (length prompt)
       = Some (items ++ [FinalState (length prompt) (FinalStateW W)])) ∧
    (∀ s, length prompt < s → dict_get (states g') s = dict_get (states g) s).
Proof.
  intros Hg Hp.
  destruct (chain_graph_chainG _ _ Hg) as (L & Heq & _ & _ & Hlt).
  destruct g as [id ws st c ini hs]. cbn [ID homophones] in *.
  rewrite Heq. clear Heq Hg ws st c ini.
  exists (chainG id prompt (foldl (try_leaf hs) L (correct_leaves W (chain_words prompt))) hs).
  unfold chainG at 2 3 4 5 6 7. cbn [words states state_counter homophones].
  split; [|split; [|split; [|split; [|split]]]].
  - unfold exec. by rewrite addCorrectPaths_dense.
  - done.
  - by rewrite length_foldl_try_leaf.
  - intros i l items Hl. unfold chainG. cbn [states].
    rewrite !dict_get_dense. intros Hitems.
    apply (foldl_try_leaf_lookup_at hs _ L (Arc i (S i) l l (Correct W)) items).
    + by apply NoDup_correct_leaves.
    + apply correct_leaves_elem. left. by exists i, l.
    + done.
  - intros items. unfold chainG. cbn [states].
    rewrite !dict_get_dense. intros Hitems.
    destruct (last_is_Some prompt Hp) as (l & Hl).
    apply (foldl_try_leaf_lookup_at hs _ L
             (FinalState (length prompt) (FinalStateW W)) items).
    + by apply NoDup_correct_leaves.
    + apply correct_leaves_elem. right. by exists l.
    + done.
  - intros s Hs. unfold chainG. cbn [states].
    rewrite !dict_get_dense. apply foldl_try_leaf_lookup_other.
    apply Forall_forall. intros x Hx Hfrom.
    apply correct_leaves_elem in Hx as [(i & l & Hl & ->)|(l & Hl & ->)];
      simpl in Hfrom.
    + apply lookup_lt_Some in Hl. lia.
    + lia.
Qed.

Lemma X5_correct_paths_witness :
  ∃ g', exec (addCorrectPaths weights) (chain_init ∅ None ["the"; "cat"]) = Ok g' ∧
    words g' = words (chain_init ∅ None ["the"; "cat"]) ∧
    state_counter g' = state_counter (chain_init ∅ None ["the"; "cat"]) ∧
    (∀ i l items,
       ["the"; "cat"] !! i = Some l →
       dict_get (states (chain_init ∅ None ["the"; "cat"])) i = Some items →
       dict_get (states g') i
       = Some (items ++
                 if blocked (homophones (chain_init ∅ None ["the"; "cat"])) items l
                 then []
                 else [Arc i (S i) l l (Correct weights)])) ∧
    (∀ items,
       dict_get (states (chain_init ∅ None ["the"; "cat"])) (length ["the"; "cat"])
       = Some items →
       dict_get (states g') (length ["the"; "cat"])
       = Some (items ++ [FinalState (length ["the"; "cat"]) (FinalStateW weights)])) ∧
    (∀ s, length ["the"; "cat"] < s →
       dict_get (states g') s = dict_get (states (chain_init ∅ None ["the"; "cat"])) s).
Proof.
  apply (X5_correct_paths weights ["the"; "cat"] (chain_init ∅ None ["the"; "cat"])).
  - repeat split; simpl; lia.
  - discriminate.
Defined.

(** ** The recipes and the empty chain *)

Lemma last_call_empty (k : Word → M unit) g :
  words g = [] →
  (ws' ← gets words; lastw ← list_last ws'; k lastw) g = Raise IndexError.
Proof. intros Hw. rewrite bind_eq. cbn [gets]. by rewrite Hw. Qed.

(** X6.  On a graph with no word each of the four recipes raises the
    [IndexError] of [words[-1]]: its loop runs over nothing and the call on
    the last word fails. *)
Theorem X6_recipe_empty_chain (r : recipe) (W : Weights) (g : PromptLMFST) :
  words g = [] → exec (run_recipe r W) g = Raise IndexError.
Proof.
  intros Hw. unfold exec.
  destruct r; cbn [run_recipe];
    [unfold addCorrectPaths|unfold addRubbishPaths
    |unfold addSkipPaths|unfold addRepeatPaths];
    rewrite bind_eq; cbn [gets]; rewrite Hw; cbn [adjacent_pairs zip_with forM_];
    rewrite bind_eq; cbn [mret M_ret]; by rewrite last_call_empty.
Qed.

Lemma X6_recipe_empty_chain_witness :
  words (init ∅ None) = [] ∧
  exec (run_recipe SkipPaths weights) (init ∅ None) = Raise IndexError.
Proof.
  split; [reflexivity|].
  apply (X6_recipe_empty_chain SkipPaths weights (init ∅ None)). reflexivity.
Defined.

(** ** The recipes never miss a state *)

Lemma has_key_set g k v j :
  has_key g j → has_key (set_states (dict_set (states g) k v) g) j.
Proof.
  unfold has_key, set_states. cbn [states]. intros Hj.
  destruct (decide (j = k)) as [->|Hne].
  - by rewrite dict_get_set_eq.
  - by rewrite dict_get_set_ne.
Qed.

Lemma safe_bind {A B} ws K (m : M A) (k : A → M B) :
  safe_on ws K m → (∀ a, safe_on ws K (k a)) → safe_on ws K (m ≫= k).
Proof.
  intros Hm Hk g Hw HK. destruct (Hm g Hw HK) as (a & g1 & Hrun & Hw1 & Hk1).
  destruct (Hk a g1 Hw1) as (b & g2 & Hrun2 & Hw2 & Hk2).
  { intros j Hj. apply Hk1, HK, Hj. }
  exists b, g2. rewrite bind_eq, Hrun. split; [done|]. split; [done|].
  intros j Hj. apply Hk2, Hk1, Hj.
Qed.

Lemma safe_mret {A} ws K (a : A) : safe_on ws K (mret a).
Proof.
  intros g Hw HK. exists a, g. split; [reflexivity|]. split; [done|].
  intros j Hj. exact Hj.
Qed.

Lemma safe_gets_words {A} ws K (k : list Word → M A) :
  safe_on ws K (k ws) → safe_on ws K (gets words ≫= k).
Proof.
  intros Hk g Hw HK. rewrite bind_eq. cbn [gets]. rewrite Hw. by apply Hk.
Qed.

Lemma safe_forM_ {A} ws K (l : list A) (f : A → M unit) :
  (∀ x, x ∈ l → safe_on ws K (f x)) → safe_on ws K (forM_ l f).
Proof.
  induction l as [|x l IH]; intros Hf; cbn [forM_].
  - apply safe_mret.
  - apply safe_bind; [apply Hf; by left|]. intros _. apply IH.
    intros y Hy. apply Hf. by right.
Qed.

Lemma safe_list_last {A} ws K (l : list Word) (w : Word) (k : Word → M A) :
  last l = Some w → safe_on ws K (k w) → safe_on ws K (list_last l ≫= k).
Proof.
  intros Hl Hk g Hw HK. rewrite bind_eq. unfold list_last. rewrite Hl.
  cbn [mret M_ret]. by apply Hk.
Qed.

Lemma safe_states_append ws K k item :
  k ∈ K → safe_on ws K (states_append k item).
Proof.
  intros Hin g Hw HK. rewrite states_append_eq.
  destruct (HK k Hin) as [items Hitems]. unfold has_key in Hitems. rewrite Hitems.
  eexists _, _. split; [reflexivity|]. split; [done|].
  intros j Hj. by apply has_key_set.
Qed.

Lemma safe_addArc ws K f t i o w : f ∈ K → safe_on ws K (addArc f t i o w).
Proof.
  intros Hin g Hw HK. rewrite addArc_eq.
  destruct (HK f Hin) as [items Hitems]. rewrite Hitems.
  destruct (blocked (homophones g) items i).
  - exists (), g. split; [reflexivity|]. split; [done|]. intros j Hj. exact Hj.
  - eexists _, _. split; [reflexivity|]. split; [done|].
    intros j Hj. by apply has_key_set.
Qed.

Lemma safe_newState_bind {A} ws K (k : StateId → M A) :
  (∀ s, safe_on ws (s :: K) (k s)) → safe_on ws K (newState ≫= k).
Proof.
  intros Hk g Hw HK. rewrite bind_eq, newState_eq.
  set (g1 := mkFST (ID g) (words g) (dict_set (states g) (S (state_counter g)) [])
                   (S (state_counter g)) (initialised g) (homophones g)).
  assert (Hkept : keys_kept g g1).
  { intros j Hj. apply (has_key_set g (S (state_counter g)) [] j Hj). }
  destruct (Hk (S (state_counter g)) g1) as (a & g2 & Hrun & Hw2 & Hk2).
  - done.
  - intros j [->|Hj]%elem_of_cons.
    + unfold has_key, g1. cbn [states]. by rewrite dict_get_set_eq.
    + apply Hkept, HK, Hj.
  - exists a, g2. split; [done|]. split; [done|].
    intros j Hj. apply Hk2, Hkept, Hj.
Qed.

Lemma safe_last_call ws K (k : Word → M unit) :
  ws ≠ [] → (∀ w, w ∈ ws → safe_on ws K (k w)) →
  safe_on ws K (ws' ← gets words; lastw ← list_last ws'; k lastw).
Proof.
  intros Hne Hk. apply safe_gets_words.
  destruct (last_is_Some ws Hne) as (w & Hl).
  apply (safe_list_last ws K ws w); [done|]. apply Hk. by eapply last_Some_elem_of.
Qed.

Lemma word_states_start ws w : w ∈ ws → start w ∈ word_states ws.
Proof.
  intros Hw. apply elem_of_app. left. apply list_elem_of_fmap. eauto.
Qed.

Lemma word_states_final ws w : w ∈ ws → final w ∈ word_states ws.
Proof.
  intros Hw. apply elem_of_app. right. apply list_elem_of_fmap. eauto.
Qed.

Lemma adjacent_pairs_in ws w nw :
  (w, nw) ∈ adjacent_pairs ws → w ∈ ws ∧ nw ∈ ws.
Proof.
  unfold adjacent_pairs. intros Hin. split.
  - by eapply elem_of_zip_l.
  - apply elem_of_zip_r in Hin. destruct ws as [|x ws]; [done|]. by right.
Qed.

Lemma safe_run_recipe ws r W :
  ws ≠ [] → safe_on ws (word_states ws) (run_recipe r W).
Proof.
  intros Hne. destruct r; cbn [run_recipe].
  - unfold addCorrectPaths. apply safe_gets_words. apply safe_bind.
    + apply safe_forM_. intros w Hw. by apply safe_addArc, word_states_start.
    + intros _. apply safe_last_call; [done|]. intros w Hw.
      by apply safe_states_append, word_states_final.
  - unfold addRubbishPaths. apply safe_gets_words. apply safe_bind.
    + apply safe_forM_. intros w Hw. by apply safe_addArc, word_states_start.
    + intros _. apply safe_last_call; [done|]. intros w Hw.
      by apply safe_addArc, word_states_final.
  - unfold addSkipPaths. apply safe_gets_words. apply safe_bind.
    + apply safe_forM_. intros [w nw] [Hw Hnw]%adjacent_pairs_in.
      destruct (bool_decide _); [|apply safe_mret].
      apply safe_newState_bind. intros s. apply safe_bind.
      * apply safe_addArc. right. by apply word_states_start.
      * intros _. apply safe_addArc. by left.
    + intros _. apply safe_last_call; [done|]. intros w Hw.
      by apply safe_addArc, word_states_start.
  - unfold addRepeatPaths. apply safe_gets_words. apply safe_bind.
    + apply safe_forM_. intros [w nw] [Hw Hnw]%adjacent_pairs_in.
      destruct (bool_decide _); [|apply safe_mret].
      by apply safe_addArc, word_states_final.
    + intros _. apply safe_last_call; [done|]. intros w Hw.
      by apply safe_addArc, word_states_final.
Qed.

(** ** States are never removed *)

Lemma keys_kept_refl g : keys_kept g g.
Proof. intros k Hk. exact Hk. Qed.

Lemma keys_kept_trans g1 g2 g3 : keys_kept g1 g2 → keys_kept g2 g3 → keys_kept g1 g3.
Proof. intros H12 H23 k Hk. apply H23, H12, Hk. Qed.

Lemma steps_bind {A B} (m : M A) (k : A → M B) :
  steps keys_kept m → (∀ a, steps keys_kept (k a)) → steps keys_kept (m ≫= k).
Proof.
  intros Hm Hk g b g'. rewrite bind_eq.
  destruct (m g) as [[a g1]|e] eqn:E; [|done].
  intros Hrun. eapply keys_kept_trans; [by eapply Hm|by eapply Hk].
Qed.

Lemma steps_mret {A} (a : A) : steps keys_kept (mret a).
Proof. intros g a' g' [= _ <-]. apply keys_kept_refl. Qed.

Lemma steps_gets {A} (f : PromptLMFST → A) : steps keys_kept (gets f).
Proof. intros g a' g' [= _ <-]. apply keys_kept_refl. Qed.

Lemma steps_raise {A} e : steps keys_kept (raise e : M A).
Proof. intros g a' g' [=]. Qed.

Lemma steps_list_last {A} (l : list A) : steps keys_kept (list_last l).
Proof. unfold list_last. destruct (last l); [apply steps_mret|apply steps_raise]. Qed.

Lemma steps_forM_ {A} (l : list A) (f : A → M unit) :
  (∀ x, steps keys_kept (f x)) → steps keys_kept (forM_ l f).
Proof.
  intros Hf. induction l as [|x l IH]; cbn [forM_].
  - apply steps_mret.
  - apply steps_bind; [apply Hf|]. intros _. exact IH.
Qed.

Lemma steps_modify (f : PromptLMFST → PromptLMFST) :
  (∀ g, states (f g) = states g) → steps keys_kept (modify f).
Proof. intros Hf g a g' [= _ <-] k. unfold has_key. by rewrite Hf. Qed.

Lemma steps_states_set_empty k : steps keys_kept (states_set_empty k).
Proof. intros g a g' [= _ <-] j Hj. by apply has_key_set. Qed.

Lemma steps_newState : steps keys_kept newState.
Proof.
  intros g a g'. rewrite newState_eq. intros [= _ <-] j Hj.
  apply (has_key_set g (S (state_counter g)) [] j Hj).
Qed.

Lemma steps_states_append k item : steps keys_kept (states_append k item).
Proof.
  intros g a g'. rewrite states_append_eq.
  destruct (dict_get (states g) k); [|done]. intros [= _ <-] j Hj.
  by apply has_key_set.
Qed.

Lemma steps_addArc f t i o w : steps keys_kept (addArc f t i o w).
Proof.
  intros g a g'. rewrite addArc_eq.
  destruct (dict_get (states g) f) as [items|]; [|done].
  destruct (blocked (homophones g) items i).
  - intros [= _ <-]. apply keys_kept_refl.
  - intros [= _ <-] j Hj. by apply has_key_set.
Qed.

Lemma steps_curr_word : steps keys_kept curr_word.
Proof.
  intros g a g'. rewrite curr_word_eq. destruct (initialised g); [|done].
  destruct (last (words g)); [|done]. intros [= _ <-]. apply keys_kept_refl.
Qed.

Lemma steps_addNextWord l : steps keys_kept (addNextWord l).
Proof.
  unfold addNextWord. apply steps_bind; [apply steps_gets|]. intros ini.
  destruct (negb ini).
  - apply steps_bind; [apply steps_gets|]. intros c.
    apply steps_bind; [apply steps_states_set_empty|]. intros _.
    apply steps_bind; [apply steps_gets|]. intros s.
    apply steps_bind; [apply steps_newState|]. intros f.
    apply steps_bind; [by apply steps_modify|]. intros _. by apply steps_modify.
  - apply steps_bind; [apply steps_curr_word|]. intros w.
    apply steps_bind; [apply steps_newState|]. intros f. by apply steps_modify.
Qed.

Lemma steps_last_call (k : Word → M unit) :
  (∀ w, steps keys_kept (k w)) →
  steps keys_kept (ws' ← gets words; lastw ← list_last ws'; k lastw).
Proof.
  intros Hk. apply steps_bind; [apply steps_gets|]. intros ws'.
  apply steps_bind; [apply steps_list_last|]. exact Hk.
Qed.

Lemma steps_run_recipe r W : steps keys_kept (run_recipe r W).
Proof.
  destruct r; cbn [run_recipe].
  - unfold addCorrectPaths. apply steps_bind; [apply steps_gets|]. intros ws0.
    apply steps_bind.
    + apply steps_forM_. intros x. apply steps_addArc.
    + intros _. apply steps_last_call. intros w. apply steps_states_append.
  - unfold addRubbishPaths. apply steps_bind; [apply steps_gets|]. intros ws0.
    apply steps_bind.
    + apply steps_forM_. intros x. apply steps_addArc.
    + intros _. apply steps_last_call. intros w. apply steps_addArc.
  - unfold addSkipPaths. apply steps_bind; [apply steps_gets|]. intros ws0.
    apply steps_bind.
    + apply steps_forM_. intros [word next_word].
      destruct (bool_decide _); [|apply steps_mret].
      apply steps_bind; [apply steps_newState|]. intros s.
      apply steps_bind; [apply steps_addArc|]. intros _. apply steps_addArc.
    + intros _. apply steps_last_call. intros w. apply steps_addArc.
  - unfold addRepeatPaths. apply steps_bind; [apply steps_gets|]. intros ws0.
    apply steps_bind.
    + apply steps_forM_. intros [word next_word].
      destruct (bool_decide _); [|apply steps_mret]. apply steps_addArc.
    + intros _. apply steps_last_call. intros w. apply steps_addArc.
Qed.

Lemma steps_run_call c : steps keys_kept (run_call c).
Proof.
  destruct c; cbn [run_call].
  - apply steps_addNextWord.
  - apply steps_forM_. intros x. apply steps_addNextWord.
  - apply steps_bind; [apply steps_newState|]. intros _. apply steps_mret.
  - apply steps_addArc.
  - apply steps_states_append.
  - apply steps_run_recipe.
Qed.

Lemma steps_run_calls cs : steps keys_kept (run_calls cs).
Proof. apply steps_forM_. intros c. apply steps_run_call. Qed.

(** The first append registers the state the counter stands at. *)
Lemma addNextWord_first_key l g g' :
  initialised g = false → addNextWord l g = Ok ((), g') →
  has_key g' (state_counter g).
Proof.
  intros Hini. unfold addNextWord. rewrite bind_eq. cbn [gets]. rewrite Hini.
  cbn [negb]. rewrite bind_eq. cbn [gets].
  rewrite bind_eq. unfold states_set_empty, modify at 1.
  rewrite bind_eq. cbn [gets].
  rewrite bind_eq, newState_eq. unfold modify, words_append, set_initialised, set_states.
  cbn [words states state_counter initialised ID homophones].
  intros [= <-]. unfold has_key. cbn [states].
  rewrite dict_get_set_ne by lia. by rewrite dict_get_set_eq.
Qed.

Lemma addNextWord_registered g l :
  graph_inv g → registered g →
  ∃ g', addNextWord l g = Ok ((), g') ∧ graph_inv g' ∧ registered g'.
Proof.
  intros Hg Hreg.
  destruct (addNextWord_step g l Hg) as (g' & Hstep & Hg' & Hw' & _ & _ & Hnew).
  exists g'. split; [done|]. split; [done|].
  pose proof (steps_addNextWord l g () g' Hstep) as Hkept.
  intros w. rewrite Hw'. intros [Hin| ->%list_elem_of_singleton]%elem_of_app.
  - destruct (Hreg w Hin). split; by apply Hkept.
  - cbn [start final]. split; [|unfold has_key; by rewrite Hnew].
    destruct (last (words g)) as [p|] eqn:Hl.
    + apply Hkept, (Hreg p). by eapply last_Some_elem_of.
    + apply (addNextWord_first_key l g g'); [|done].
      apply last_None in Hl. destruct Hg as (Hi & _).
      destruct (initialised g); [|done]. by destruct Hi as [Hi _]; destruct Hi.
Qed.

Lemma registered_run_call g c g' :
  graph_inv g → registered g → exec (run_call c) g = Ok g' → registered g'.
Proof.
  intros Hg Hreg Hrun.
  assert (Hquiet : ∀ m : M unit,
            preserves (quiet (words g) (initialised g) (state_counter g)) m →
            steps keys_kept m → exec m g = Ok g' → registered g').
  { intros m Hm Hs. unfold exec. destruct (m g) as [[[] g1]|e] eqn:E; [|done].
    intros [= ->].
    destruct (quiet_graph_inv g g' Hg) as [_ Hw'].
    - eapply Hm; [by apply graph_inv_quiet|exact E].
    - intros w. rewrite Hw'. intros Hin. destruct (Hreg w Hin).
      split; by apply (Hs g () g' E). }
  destruct c as [l|sequence| |f t i o w|s w|r W]; cbn [run_call] in *.
  - destruct (addNextWord_registered g l Hg Hreg) as (g1 & Hstep & _ & Hreg1).
    unfold exec in Hrun. rewrite Hstep in Hrun. by injection Hrun as <-.
  - clear Hquiet. revert g Hg Hreg Hrun. unfold addWordSequence.
    induction sequence as [|l sequence IH]; intros g Hg Hreg Hrun.
    + by injection Hrun as <-.
    + destruct (addNextWord_registered g l Hg Hreg) as (g1 & Hstep & Hg1 & Hreg1).
      cbn [forM_] in Hrun. rewrite exec_bind, Hstep in Hrun.
      apply (IH g1 Hg1 Hreg1 Hrun).
  - apply (Hquiet (newState;; mret ())); [| |done].
    + apply preserves_bind; [apply quiet_newState|]. intros _. apply preserves_mret.
    + apply steps_bind; [apply steps_newState|]. intros _. apply steps_mret.
  - apply (Hquiet (addArc f t i o w)); [apply quiet_addArc|apply steps_addArc|done].
  - apply (Hquiet (addFinalState s w));
      [apply quiet_addFinalState|apply steps_states_append|done].
  - apply (Hquiet (run_recipe r W));
      [apply quiet_run_recipe|apply steps_run_recipe|done].
Qed.

Lemma registered_run_calls cs g g' :
  graph_inv g → registered g → exec (run_calls cs) g = Ok g' → registered g'.
Proof.
  unfold run_calls. revert g. induction cs as [|c cs IH]; intros g Hg Hreg.
  - by intros [= <-].
  - cbn [forM_]. rewrite exec_bind.
    destruct (run_call c g) as [[[] g1]|e] eqn:E; [|done]. intros Hrest.
    assert (Hrun1 : exec (run_call c) g = Ok g1) by (unfold exec; by rewrite E).
    apply (IH g1); [|by eapply registered_run_call|done].
    by destruct (run_call_inv g c g1 Hg Hrun1).
Qed.

Lemma registered_init hs id : registered (init hs id).
Proof. intros w Hw. by apply elem_of_nil in Hw. Qed.

(** X7.  After any sequence of calls on a new graph, every word starts and
    ends at a state of the graph, and if at least one word has been
    appended each of the four recipes runs to its end: no state it adds an
    arc to is missing, whatever the earlier calls did.  It leaves the words
    as they are and removes no state. *)
Theorem X7_recipe_never_misses_a_state (hs : gmap string (gset string))
    (id : option string) (cs : list call) (g : PromptLMFST) (r : recipe) (W : Weights) :
  exec (run_calls cs) (init hs id) = Ok g →
  words g ≠ [] →
  registered g ∧
  ∃ g', exec (run_recipe r W) g = Ok g' ∧ words g' = words g ∧ keys_kept g g'.
Proof.
  intros Hrun Hne.
  pose proof (registered_run_calls cs _ g (graph_inv_init hs id)
                (registered_init hs id) Hrun) as Hreg.
  split; [done|].
  destruct (safe_run_recipe (words g) r W Hne g eq_refl) as (a & g' & Hr & Hw & Hk).
  - intros k [(w & -> & Hw)%list_elem_of_fmap|(w & -> & Hw)%list_elem_of_fmap]%elem_of_app;
      by apply Hreg.
  - exists g'. unfold exec. rewrite Hr. done.
Qed.

Lemma sample_graph_run : exec (run_calls sample_calls) (init ∅ None) = Ok sample_graph.
Proof. vm_compute. reflexivity. Qed.

Lemma X7_recipe_never_misses_a_state_witness :
  words sample_graph ≠ [] ∧
  registered sample_graph ∧
  ∃ g', exec (run_recipe RepeatPaths weights) sample_graph = Ok g' ∧
        words g' = words sample_graph ∧ keys_kept sample_graph g'.
Proof.
  split; [discriminate|].
  apply (X7_recipe_never_misses_a_state ∅ None sample_calls).
  - vm_compute. reflexivity.
  - discriminate.
Defined.

(** ** Lists only grow *)

Lemma dict_get_Some_key {V} (d : list (nat * V)) k v :
  dict_get d k = Some v → k ∈ dict_keys d.
Proof.
  intros Hget. destruct (decide (k ∈ dict_keys d)) as [|Hn]; [done|].
  apply dict_get_None in Hn. congruence.
Qed.

Lemma append_only_set g0 g k items extra :
  append_only g0 g →
  dict_get (states g) k = Some items →
  append_only g0 (set_states (dict_set (states g) k (items ++ extra)) g).
Proof.
  intros (Hi & Hk & Hgrow) Hitems. split; [done|]. split.
  - unfold set_states. cbn [states state_counter].
    intros j [Hin| ->]%dict_keys_set; [by apply Hk|].
    by eapply Hk, dict_get_Some_key.
  - intros s its Hs. destruct (Hgrow s its Hs) as (e & He).
    unfold set_states. cbn [states]. destruct (decide (s = k)) as [->|Hne].
    + rewrite dict_get_set_eq. rewrite He in Hitems. injection Hitems as <-.
      exists (e ++ extra). by rewrite app_assoc.
    + rewrite dict_get_set_ne by done. eauto.
Qed.

Lemma append_only_newState g0 : preserves (append_only g0) newState.
Proof.
  intros g a g' (Hi & Hk & Hgrow). rewrite newState_eq. intros [= _ <-].
  split; [done|]. split; cbn [states state_counter].
  - intros j [Hin| ->]%dict_keys_set; [|lia]. apply Hk in Hin. lia.
  - intros s its Hs. destruct (Hgrow s its Hs) as (e & He). exists e.
    cbn [states]. rewrite dict_get_set_ne; [done|].
    apply dict_get_Some_key, Hk in He. lia.
Qed.

Lemma append_only_states_append g0 k item :
  preserves (append_only g0) (states_append k item).
Proof.
  intros g a g' HP. rewrite states_append_eq.
  destruct (dict_get (states g) k) as [items|] eqn:E; [|done].
  intros [= _ <-]. by apply append_only_set.
Qed.

Lemma append_only_addArc g0 f t i o w : preserves (append_only g0) (addArc f t i o w).
Proof.
  intros g a g' HP. rewrite addArc_eq.
  destruct (dict_get (states g) f) as [items|] eqn:E; [|done].
  destruct (blocked (homophones g) items i).
  - by intros [= _ <-].
  - intros [= _ <-]. by apply append_only_set.
Qed.

Lemma append_only_modify g0 (f : PromptLMFST → PromptLMFST) :
  (∀ g, states (f g) = states g ∧ state_counter (f g) = state_counter g ∧
        (initialised g = true → initialised (f g) = true)) →
  preserves (append_only g0) (modify f).
Proof.
  intros Hf g a g' (Hi & Hk & Hgrow) [= _ <-]. destruct (Hf g) as (Hs & Hc & Hi').
  split; [by apply Hi'|]. split.
  - rewrite Hs, Hc. exact Hk.
  - intros s its Hits. rewrite Hs. by apply Hgrow.
Qed.

Lemma append_only_addNextWord g0 l : preserves (append_only g0) (addNextWord l).
Proof.
  intros g a g' HP. pose proof HP as (Hi & _ & _).
  unfold addNextWord. rewrite bind_eq. cbn [gets]. rewrite Hi. cbn [negb].
  intros Hrun.
  refine (preserves_bind (append_only g0) curr_word _ _ _ g a g' HP Hrun).
  - clear. intros g a g' HP. rewrite curr_word_eq. destruct (initialised g); [|done].
    destruct (last (words g)); [|done]. by intros [= _ <-].
  - intros w. apply preserves_bind; [apply append_only_newState|]. intros f.
    by apply append_only_modify.
Qed.

Lemma append_only_last_call g0 (k : Word → M unit) :
  (∀ w, preserves (append_only g0) (k w)) →
  preserves (append_only g0) (ws' ← gets words; lastw ← list_last ws'; k lastw).
Proof.
  intros Hk. apply preserves_bind; [apply preserves_gets|]. intros ws'.
  apply preserves_bind; [apply preserves_list_last|]. exact Hk.
Qed.

Lemma append_only_run_recipe g0 r W : preserves (append_only g0) (run_recipe r W).
Proof.
  destruct r; cbn [run_recipe].
  - unfold addCorrectPaths. apply preserves_bind; [apply preserves_gets|]. intros ws0.
    apply preserves_bind.
    + apply preserves_forM_. intros x. apply append_only_addArc.
    + intros _. apply append_only_last_call. intros w. apply append_only_states_append.
  - unfold addRubbishPaths. apply preserves_bind; [apply preserves_gets|]. intros ws0.
    apply preserves_bind.
    + apply preserves_forM_. intros x. apply append_only_addArc.
    + intros _. apply append_only_last_call. intros w. apply append_only_addArc.
  - unfold addSkipPaths. apply preserves_bind; [apply preserves_gets|]. intros ws0.
    apply preserves_bind.
    + apply preserves_forM_. intros [word next_word].
      destruct (bool_decide _); [|apply preserves_mret].
      apply preserves_bind; [apply append_only_newState|]. intros s.
      apply preserves_bind; [apply append_only_addArc|]. intros _.
      apply append_only_addArc.
    + intros _. apply append_only_last_call. intros w. apply append_only_addArc.
  - unfold addRepeatPaths. apply preserves_bind; [apply preserves_gets|]. intros ws0.
    apply preserves_bind.
    + apply preserves_forM_. intros [word next_word].
      destruct (bool_decide _); [|apply preserves_mret]. apply append_only_addArc.
    + intros _. apply append_only_last_call. intros w. apply append_only_addArc.
Qed.

Lemma append_only_run_call g0 c : preserves (append_only g0) (run_call c).
Proof.
  destruct c; cbn [run_call].
  - apply append_only_addNextWord.
  - apply preserves_forM_. intros x. apply append_only_addNextWord.
  - apply preserves_bind; [apply append_only_newState|]. intros _. apply preserves_mret.
  - apply append_only_addArc.
  - apply append_only_states_append.
  - apply append_only_run_recipe.
Qed.

(** X8.  Once a word has been appended, no later call removes a state or
    changes an item that is already in a state's list: whatever calls
    follow, each list of the graph is a prefix of the list the same state
    has afterwards. *)
Theorem X8_lists_only_grow (hs : gmap string (gset string)) (id : option string)
    (cs0 cs : list call) (g0 g : PromptLMFST) :
  exec (run_calls cs0) (init hs id) = Ok g0 →
  words g0 ≠ [] →
  exec (run_calls cs) g0 = Ok g →
  ∀ s items, dict_get (states g0) s = Some items →
    ∃ extra, dict_get (states g) s = Some (items ++ extra).
Proof.
  intros Hrun0 Hne Hrun.
  destruct (run_calls_inv cs0 _ g0 (graph_inv_init hs id) Hrun0) as [(Hi & Hk & _) _].
  assert (HP0 : append_only g0 g0).
  { split; [by apply Hi|]. split; [done|].
    intros s items Hs. exists []. by rewrite app_nil_r. }
  unfold exec in Hrun. destruct (run_calls cs g0) as [[[] g1]|e] eqn:E; [|done].
  injection Hrun as ->.
  apply (preserves_forM_ (append_only g0) cs run_call (append_only_run_call g0)
           g0 () g HP0 E).
Qed.

Lemma X8_lists_only_grow_witness :
  words sample_graph ≠ [] ∧
  ∀ s items, dict_get (states sample_graph) s = Some items →
    ∃ extra, dict_get (states sample_graph_later) s = Some (items ++ extra).
Proof.
  split; [discriminate|].
  apply (X8_lists_only_grow ∅ None sample_calls
           [CallRecipe RepeatPaths weights; CallAddNextWord "sat";
            CallRecipe RubbishPaths weights]).
  - vm_compute. reflexivity.
  - discriminate.
  - vm_compute. reflexivity.
Defined.

(** X9.  The first append resets a list.  On a graph that has no word yet,
    [addNextWord] succeeds and leaves the state the counter stands at with
    an empty list, whatever that state held before (a state that
    [newState] allocated and arcs were added to loses them); the word runs
    from that state to the next number. *)
Theorem X9_first_append_resets (g : PromptLMFST) (l : string) :
  initialised g = false →
  ∃ g', exec (addNextWord l) g = Ok g' ∧
    dict_get (states g') (state_counter g) = Some [] ∧
    dict_get (states g') (S (state_counter g)) = Some [] ∧
    words g' = words g ++ [mkWord l (state_counter g) (S (state_counter g))] ∧
    state_counter g' = S (state_counter g) ∧
    initialised g' = true.
Proof.
  intros Hini. unfold exec, addNextWord. rewrite bind_eq. cbn [gets]. rewrite Hini.
  cbn [negb]. rewrite bind_eq. cbn [gets].
  rewrite bind_eq. unfold states_set_empty, modify at 1.
  rewrite bind_eq. cbn [gets].
  rewrite bind_eq, newState_eq. unfold modify, words_append, set_initialised, set_states.
  cbn [words states state_counter initialised ID homophones].
  eexists. split; [reflexivity|]. cbn [words states state_counter initialised].
  split; [|split; [|done]].
  - rewrite dict_get_set_ne by lia. by rewrite dict_get_set_eq.
  - by rewrite dict_get_set_eq.
Qed.

Lemma X9_first_append_resets_witness :
  dict_get (states (mkFST None [] [(1, [Arc 1 1 "x" "x" (PyInt 5)])] 1 false ∅)) 1
  = Some [Arc 1 1 "x" "x" (PyInt 5)] ∧
  ∃ g', exec (addNextWord "the")
             (mkFST None [] [(1, [Arc 1 1 "x" "x" (PyInt 5)])] 1 false ∅) = Ok g' ∧
    dict_get (states g') 1 = Some [] ∧
    dict_get (states g') 2 = Some [] ∧
    words g' = [] ++ [mkWord "the" 1 2] ∧
    state_counter g' = 2 ∧
    initialised g' = true.
Proof.
  split; [reflexivity|].
  apply (X9_first_append_resets
           (mkFST None [] [(1, [Arc 1 1 "x" "x" (PyInt 5)])] 1 false ∅) "the").
  reflexivity.
Defined.

(** ** The check for duplicate labels *)

Lemma in_labels_app items items' :
  in_labels (items ++ items') = in_labels items ++ in_labels items'.
Proof. unfold in_labels. apply omap_app. Qed.

Lemma scan_state_passes items : scan_passes items → scan_state ∅ items = Ok true.
Proof.
  intros [Harcs Hnd]. rewrite scan_state_arcs by done.
  rewrite bool_decide_eq_true_2; [done|]. split; [done|].
  apply Forall_forall. intros l _. apply not_elem_of_empty.
Qed.

(** The scan of one list stops at the first marker or repeated label. *)
Lemma scan_state_stops seen pre x post :
  Forall (λ x, is_arc x = true) pre → NoDup (in_labels pre) →
  Forall (λ l, l ∉ seen) (in_labels pre) →
  (∀ l, getattr_in_label x = Some l → l ∈ in_labels pre ∨ l ∈ seen) →
  scan_state seen (pre ++ x :: post)
  = match getattr_in_label x with
    | None => Raise AttributeError
    | Some _ => Ok false
    end.
Proof.
  revert seen. induction pre as [|item pre IH]; intros seen Harcs Hnd Hseen Hx.
  - destruct x as [f t l o w|s w]; [|done].
    change (scan_state seen ([] ++ Arc f t l o w :: post))
      with (if bool_decide (l ∈ seen) then Ok false
            else scan_state ({[ l ]} ∪ seen) post).
    destruct (Hx l eq_refl) as [Hin|Hin]; [by apply elem_of_nil in Hin|].
    by rewrite bool_decide_eq_true_2.
  - inversion Harcs as [|? ? Hitem Hrest]; subst.
    destruct item as [f t l0 o w|]; [|done].
    change (in_labels (Arc f t l0 o w :: pre)) with (l0 :: in_labels pre) in *.
    apply NoDup_cons in Hnd as [Hl0 Hnd].
    apply Forall_cons in Hseen as [Hl0s Hseen].
    change (scan_state seen ((Arc f t l0 o w :: pre) ++ x :: post))
      with (if bool_decide (l0 ∈ seen) then Ok false
            else scan_state ({[ l0 ]} ∪ seen) (pre ++ x :: post)).
    rewrite bool_decide_eq_false_2 by done.
    apply IH; [done|done| |].
    + apply Forall_forall. intros l Hl [->%elem_of_singleton|Hs]%elem_of_union; [done|].
      by apply (proj1 (Forall_forall _ _) Hseen l).
    + intros l Hxl. destruct (Hx l Hxl) as [[->|Hin]%elem_of_cons|Hin].
      * right. apply elem_of_union_l. by apply elem_of_singleton.
      * by left.
      * right. by apply elem_of_union_r.
Qed.

Lemma scan_states_stops (L1 L2 : list (list Leaf)) pre x post :
  Forall scan_passes L1 → scan_passes pre → scan_stops pre x →
  scan_states (L1 ++ (pre ++ x :: post) :: L2)
  = match getattr_in_label x with
    | None => Raise AttributeError
    | Some _ => Ok false
    end.
Proof.
  intros HL1 [Harcs Hnd] Hstop. induction HL1 as [|items L1 Hitems _ IH].
  - cbn [app scan_states]. rewrite scan_state_stops; try done.
    + by destruct (getattr_in_label x).
    + apply Forall_forall. intros l _. apply not_elem_of_empty.
    + intros l Hl. left. unfold scan_stops in Hstop. by rewrite Hl in Hstop.
  - change (scan_states ((items :: L1) ++ (pre ++ x :: post) :: L2))
      with (match scan_state ∅ items with
            | Ok true => scan_states (L1 ++ (pre ++ x :: post) :: L2)
            | Ok false => Ok false
            | Raise e => Raise e
            end).
    by rewrite scan_state_passes.
Qed.

(** A list either passes the scan or has a first item at which the scan
    stops. *)
Lemma scan_passes_or_stops acc items :
  scan_passes acc →
  scan_passes (acc ++ items) ∨
  ∃ pre x post, items = pre ++ x :: post ∧
                scan_passes (acc ++ pre) ∧ scan_stops (acc ++ pre) x.
Proof.
  revert acc. induction items as [|item items IH]; intros acc Hacc.
  - left. by rewrite app_nil_r.
  - destruct item as [f t l o w|s w].
    + destruct (decide (l ∈ in_labels acc)) as [Hin|Hnin].
      * right. exists [], (Arc f t l o w), items. rewrite app_nil_r.
        split; [done|]. split; [done|]. exact Hin.
      * assert (Hacc' : scan_passes (acc ++ [Arc f t l o w])).
        { destruct Hacc as [Harcs Hnd]. split.
          - apply Forall_app. split; [done|]. by repeat constructor.
          - rewrite in_labels_app. apply NoDup_app. split; [done|]. split.
            + intros l' Hl' ->%list_elem_of_singleton. done.
            + apply NoDup_singleton. }
        destruct (IH _ Hacc') as [Hpass|(pre & x & post & -> & Hpass & Hstop)].
        -- left. by rewrite <- app_assoc in Hpass.
        -- right. exists (Arc f t l o w :: pre), x, post.
           rewrite <- app_assoc in Hpass, Hstop.
           split; [done|]. split; [exact Hpass|exact Hstop].
    + right. exists [], (FinalState s w), items. rewrite app_nil_r.
      split; [done|]. split; [done|]. exact I.
Qed.

Lemma scan_states_first_stop (L : list (list Leaf)) :
  ¬ Forall scan_passes L →
  ∃ L1 pre x post L2,
    L = L1 ++ (pre ++ x :: post) :: L2 ∧
    Forall scan_passes L1 ∧ scan_passes pre ∧ scan_stops pre x.
Proof.
  induction L as [|items L IH]; intros Hnot.
  - destruct Hnot. constructor.
  - destruct (decide (scan_passes items)) as [Hpass|Hstop].
    + destruct IH as (L1 & pre & x & post & L2 & -> & HL1 & Hpre & Hx).
      * intros HL. apply Hnot. by constructor.
      * exists (items :: L1), pre, x, post, L2.
        split; [done|]. split; [by constructor|]. split; [exact Hpre|exact Hx].
    + destruct (scan_passes_or_stops [] items) as [Hpass|(pre & x & post & -> & Hpre & Hx)].
      * split; constructor.
      * done.
      * exists [], pre, x, post, L.
        split; [done|]. split; [constructor|]. split; [exact Hpre|exact Hx].
Qed.

(** X10.  [isDeterministic] stops at the first item, in the order of the
    states and of their lists, that is a final-state marker or an arc whose
    input label an earlier arc of the same list has: there it raises the
    [AttributeError] when the item is a marker and returns [False] when it
    is an arc.  On a graph in which some state's list holds a marker there
    is such an item, so the method never answers [True]: it returns [False]
    when a repeated label comes before every marker, and fails otherwise. *)
Theorem X10_isDeterministic_with_marker (g : PromptLMFST) (items : list Leaf)
    (s : nat) (w : number) :
  items ∈ dict_values (states g) →
  FinalState s w ∈ items →
  (∃ L1 pre x post L2,
     dict_values (states g) = L1 ++ (pre ++ x :: post) :: L2 ∧
     Forall scan_passes L1 ∧ scan_passes pre ∧ scan_stops pre x) ∧
  (∀ L1 pre x post L2,
     dict_values (states g) = L1 ++ (pre ++ x :: post) :: L2 →
     Forall scan_passes L1 → scan_passes pre → scan_stops pre x →
     isDeterministic g = match getattr_in_label x with
                         | None => Raise AttributeError
                         | Some _ => Ok false
                         end).
Proof.
  intros Hin Hm. split.
  - apply scan_states_first_stop. intros Hall.
    destruct (proj1 (Forall_forall _ _) Hall items Hin) as [Harcs _].
    by pose proof (proj1 (Forall_forall _ _) Harcs _ Hm).
  - intros L1 pre x post L2 Heq HL1 Hpre Hx. unfold isDeterministic.
    rewrite Heq. by apply scan_states_stops.
Qed.

(** One word and its correct path: the scan meets the marker first.  The
    whole construction for a b a: the scan meets the second arc that reads
    "a" at state 1 before it comes to the marker at state 3. *)
Lemma X10_isDeterministic_with_marker_witness :
  isDeterministic marked_graph = Raise AttributeError ∧
  isDeterministic aba_graph = Ok false.
Proof.
  split.
  - refine (proj2 (X10_isDeterministic_with_marker marked_graph
                     [FinalState 1 (PyFloat 0)] 1 (PyFloat 0) _ _)
              [[Arc 0 1 "the" "the" (PyInt 100)]] [] (FinalState 1 (PyFloat 0)) [] []
              _ _ _ _).
    + vm_compute. right. left.
    + left.
    + reflexivity.
    + by apply (bool_decide_unpack _).
    + by apply (bool_decide_unpack _).
    + exact I.
  - refine (proj2 (X10_isDeterministic_with_marker aba_graph
                     [FinalState 3 (PyFloat 0); Arc 3 3 "[RUB]" "[RUB]" (PyInt 5);
                      Arc 3 3 "a" "a" (PyInt 30)] 3 (PyFloat 0) _ _)
              [[Arc 0 1 "a" "a" (PyInt 100); Arc 0 0 "[RUB]" "[RUB]" (PyInt 5);
                Arc 0 4 "b" "[SKP]" (PyInt 10)]]
              [Arc 1 2 "b" "b" (PyInt 100); Arc 1 1 "[RUB]" "[RUB]" (PyInt 5);
               Arc 1 5 "a" "[SKP]" (PyInt 10)]
              (Arc 1 1 "a" "a" (PyInt 30)) []
              [[Arc 2 3 "a" "a" (PyInt 100); Arc 2 2 "[RUB]" "[RUB]" (PyInt 5);
                Arc 2 3 "<eps>" "[SKP]" (PyInt 10); Arc 2 2 "b" "b" (PyInt 30)];
               [FinalState 3 (PyFloat 0); Arc 3 3 "[RUB]" "[RUB]" (PyInt 5);
                Arc 3 3 "a" "a" (PyInt 30)];
               [Arc 4 2 "<eps>" "b" (PyInt 100)]; [Arc 5 3 "<eps>" "a" (PyInt 100)]]
              _ _ _ _).
    + vm_compute. do 3 right. left.
    + left.
    + reflexivity.
    + by apply (bool_decide_unpack _).
    + by apply (bool_decide_unpack _).
    + vm_compute. do 2 right. left.
Defined.

Lemma in_labels_lookup items j :
  Forall (λ x, is_arc x = true) items →
  in_labels items !! j = items !! j ≫= getattr_in_label.
Proof.
  unfold in_labels. revert j. induction items as [|x items IH]; intros j Harcs; [done|].
  inversion Harcs as [|? ? Hx Hrest]; subst.
  destruct x as [f t l o w|]; [|done]. cbn [omap getattr_in_label].
  fold (omap getattr_in_label items).
  destruct j as [|j]; [done|]. simpl. by apply IH.
Qed.

Lemma not_NoDup_lookup (l : list string) :
  ¬ NoDup l → ∃ j k x, j ≠ k ∧ l !! j = Some x ∧ l !! k = Some x.
Proof.
  induction l as [|x l IH]; intros Hnd.
  - destruct Hnd. constructor.
  - destruct (decide (x ∈ l)) as [Hin|Hnin].
    + apply list_elem_of_lookup in Hin as (i & Hi).
      exists 0, (S i), x. by repeat split.
    + destruct IH as (j & k & y & Hjk & Hj & Hk).
      * intros Hl. apply Hnd. by constructor.
      * exists (S j), (S k), y. repeat split; [lia|done|done].
Qed.

(** X11.  On a graph without final-state markers [isDeterministic] returns
    a boolean: [True] when no state's list has two items with the same input
    label, [False] when some state's list has. *)
Theorem X11_isDeterministic_without_markers (g : PromptLMFST) :
  Forall (Forall (λ x, is_arc x = true)) (dict_values (states g)) →
  (isDeterministic g = Ok true ∧
   ∀ items, items ∈ dict_values (states g) → ¬ duplicate_label items) ∨
  (isDeterministic g = Ok false ∧
   ∃ items, items ∈ dict_values (states g) ∧ duplicate_label items).
Proof.
  intros Harcs. unfold isDeterministic. rewrite scan_states_arcs by done.
  set (L := dict_values (states g)) in *.
  destruct (decide (Forall (λ items, NoDup (in_labels items)) L)) as [Hall|Hnot].
  - left. rewrite bool_decide_eq_true_2 by done. split; [done|].
    intros items Hin (j & k & x & y & Hjk & Hj & Hk & Hlab).
    pose proof (proj1 (Forall_forall _ _) Hall items Hin) as Hnd.
    pose proof (proj1 (Forall_forall _ _) Harcs items Hin) as Hitems.
    pose proof (proj1 (Forall_forall _ _) Hitems x (list_elem_of_lookup_2 _ _ _ Hj)) as Hx.
    destruct x as [f t l o w|]; [|done].
    apply Hjk. eapply NoDup_lookup; [exact Hnd| |].
    + rewrite in_labels_lookup, Hj by done. reflexivity.
    + rewrite in_labels_lookup, Hk by done. simpl. by rewrite <- Hlab.
  - right. rewrite bool_decide_eq_false_2 by done. split; [done|].
    apply not_Forall_Exists in Hnot; [|apply _].
    apply Exists_exists in Hnot as (items & Hin & Hnd).
    exists items. split; [done|].
    pose proof (proj1 (Forall_forall _ _) Harcs items Hin) as Hitems.
    destruct (not_NoDup_lookup _ Hnd) as (j & k & l & Hjk & Hj & Hk).
    rewrite in_labels_lookup in Hj, Hk by done.
    destruct (items !! j) as [x|] eqn:Ex; [|done].
    destruct (items !! k) as [y|] eqn:Ey; [|done].
    exists j, k, x, y. simpl in Hj, Hk. repeat split; try done. congruence.
Qed.

Lemma X11_isDeterministic_without_markers_witness :
  (isDeterministic sample_graph_later = Ok true ∧
   ∀ items, items ∈ dict_values (states sample_graph_later) → ¬ duplicate_label items) ∨
  (isDeterministic sample_graph_later = Ok false ∧
   ∃ items, items ∈ dict_values (states sample_graph_later) ∧ duplicate_label items).
Proof.
  apply (X11_isDeterministic_without_markers sample_graph_later).
  vm_compute. repeat constructor.
Defined.

(** ** The text and the states without leaves *)

Lemma dict_set_fresh {V} (d : list (nat * V)) k v :
  dict_get d k = None → dict_set d k v = d ++ [(k, v)].
Proof.
  induction d as [|[k' v'] d IH]; intros Hnone; [done|].
  unfold dict_get in Hnone. fold (@dict_get V) in Hnone.
  unfold dict_set. fold (@dict_set V).
  destruct (decide (k = k')) as [->|Hne]; [done|].
  simpl. f_equal. by apply IH.
Qed.

Lemma leaves_set_fresh g k :
  dict_get (states g) k = None →
  concat (dict_values (dict_set (states g) k [])) = leaves g.
Proof.
  intros Hnone. rewrite dict_set_fresh by done. unfold leaves, dict_values.
  rewrite fmap_app, concat_app. simpl. by rewrite app_nil_r.
Qed.

Lemma inText_same_leaves str_float g g' :
  ID g' = ID g → leaves g' = leaves g → inText str_float g' = inText str_float g.
Proof. intros HID Hl. unfold inText. by rewrite HID, Hl. Qed.

Lemma addNextWord_later_eq g l w :
  initialised g = true → last (words g) = Some w →
  addNextWord l g
  = Ok ((), mkFST (ID g) (words g ++ [mkWord l (final w) (S (state_counter g))])
                  (dict_set (states g) (S (state_counter g)) [])
                  (S (state_counter g)) (initialised g) (homophones g)).
Proof.
  intros Hini Hlast.
  unfold addNextWord. rewrite bind_eq. cbn [gets]. rewrite Hini. cbn [negb].
  rewrite bind_eq, curr_word_eq, Hini, Hlast.
  rewrite bind_eq, newState_eq. unfold modify, words_append.
  cbn [words states state_counter initialised ID homophones]. by rewrite Hini.
Qed.

(** X12.  States whose lists are empty leave no trace in the text.  After
    any sequence of calls on a new graph, allocating a state with
    [newState] does not change what [inText] returns, and once a word has
    been appended neither does appending another word. *)
Theorem X12_inText_ignores_new_states (hs : gmap string (gset string))
    (id : option string) (cs : list call) (g : PromptLMFST) (str_float : Q → string) :
  exec (run_calls cs) (init hs id) = Ok g →
  (∀ s g', newState g = Ok (s, g') → inText str_float g' = inText str_float g) ∧
  (words g ≠ [] →
   ∀ l g', exec (addNextWord l) g = Ok g' → inText str_float g' = inText str_float g).
Proof.
  intros Hrun.
  destruct (run_calls_inv cs _ g (graph_inv_init hs id) Hrun) as [(Hi & Hk & _) _].
  assert (Hfresh : dict_get (states g) (S (state_counter g)) = None).
  { apply dict_get_None. intros Hin. apply Hk in Hin. lia. }
  split.
  - intros s g'. rewrite newState_eq. intros [= _ <-].
    apply inText_same_leaves; [done|]. unfold leaves at 1. cbn [states].
    by apply leaves_set_fresh.
  - intros Hne l g'. destruct (last_is_Some _ Hne) as (w & Hw).
    unfold exec. rewrite (addNextWord_later_eq g l w) by (by apply Hi || done).
    intros [= <-]. apply inText_same_leaves; [done|]. unfold leaves at 1.
    cbn [states]. by apply leaves_set_fresh.
Qed.

Lemma X12_inText_ignores_new_states_witness :
  (∀ s g', newState sample_graph = Ok (s, g') →
     inText (λ _, "0.0") g' = inText (λ _, "0.0") sample_graph) ∧
  (words sample_graph ≠ [] →
   ∀ l g', exec (addNextWord l) sample_graph = Ok g' →
     inText (λ _, "0.0") g' = inText (λ _, "0.0") sample_graph).
Proof.
  apply (X12_inText_ignores_new_states ∅ None sample_calls sample_graph).
  vm_compute. reflexivity.
Defined.

(** ** The guard along call sequences *)

Lemma dict_get_Some_value {V} (d : list (nat * V)) k v :
  dict_get d k = Some v → v ∈ dict_values d.
Proof.
  unfold dict_values. induction d as [|[k' v'] d IH]; [done|].
  unfold dict_get. fold (@dict_get V).
  destruct (decide (k = k')) as [->|Hne].
  - intros [= ->]. by left.
  - intros Hget. right. by apply IH.
Qed.

Lemma labels_listed_elem hs g s items f t l o w :
  labels_listed hs g →
  dict_get (states g) s = Some items → Arc f t l o w ∈ items →
  l ∈ defaultdict_get hs (Some l).
Proof.
  intros Hall Hget Hin. apply dict_get_Some_value in Hget.
  pose proof (proj1 (Forall_forall _ _) Hall items Hget) as Hitems.
  apply (proj1 (Forall_forall _ _) Hitems l).
  unfold in_labels. apply list_elem_of_omap. by exists (Arc f t l o w).
Qed.

(** X13.  After any sequence of calls on a new graph, at every state the
    input label of an arc is in the homophone set of no item that was put
    in the state's list before it; the sets are those of the table the
    graph was created with.  So when every input label that occurs in the
    graph is in its own homophone set, no state has two arcs whose input
    labels are equal or mutually homophonous. *)
Theorem X13_guard_along_calls (hs : gmap string (gset string)) (id : option string)
    (cs : list call) (g : PromptLMFST) :
  exec (run_calls cs) (init hs id) = Ok g →
  (∀ s items j k x f t l o w,
     dict_get (states g) s = Some items →
     j < k → items !! j = Some x → items !! k = Some (Arc f t l o w) →
     l ∉ defaultdict_get hs (getattr_in_label x)) ∧
  (labels_listed hs g →
   ∀ s items j k f t a o w f' t' b o' w',
     dict_get (states g) s = Some items → j ≠ k →
     items !! j = Some (Arc f t a o w) → items !! k = Some (Arc f' t' b o' w') →
     a ≠ b ∧ ¬ homophonous hs a b).
Proof.
  intros Hrun. destruct (guard_invariant hs id cs g Hrun) as [Hh Hall].
  split.
  - intros s items j k x f t l o w Hget Hjk Hj Hk.
    exact (Hall s items Hget j k x f t l o w Hjk Hj Hk).
  - intros Hlisted s items j k f t a o w f' t' b o' w' Hget Hjk Hj Hk.
    rewrite <- Hh.
    refine (listed_labels_deterministic hs id cs g Hrun _ s items j k
              f t a o w f' t' b o' w' Hget Hjk Hj Hk).
    intros s0 items0 f0 t0 l0 o0 w0. by apply labels_listed_elem.
Qed.

(** The prompt the cat the with every label listed: the guard drops the
    self-loop that reads "the" at state 1, where the skip arc reads "the"
    already, and no state has two arcs with equal or homophonous labels. *)
Lemma X13_guard_along_calls_witness :
  dict_get (states listed_graph) 1
  = Some [Arc 1 2 "cat" "cat" (PyInt 100); Arc 1 1 "[RUB]" "[RUB]" (PyInt 5);
          Arc 1 5 "the" "[SKP]" (PyInt 10)] ∧
  (∀ s items j k x f t l o w,
     dict_get (states listed_graph) s = Some items →
     j < k → items !! j = Some x → items !! k = Some (Arc f t l o w) →
     l ∉ defaultdict_get listed_table (getattr_in_label x)) ∧
  labels_listed listed_table listed_graph ∧
  (∀ s items j k f t a o w f' t' b o' w',
     dict_get (states listed_graph) s = Some items → j ≠ k →
     items !! j = Some (Arc f t a o w) → items !! k = Some (Arc f' t' b o' w') →
     a ≠ b ∧ ¬ homophonous listed_table a b).
Proof.
  assert (Hrun : exec (run_calls listed_calls) (init listed_table None) = Ok listed_graph)
    by (vm_compute; reflexivity).
  assert (Hlisted : labels_listed listed_table listed_graph).
  { unfold labels_listed. apply (bool_decide_unpack _). vm_compute. exact I. }
  destruct (X13_guard_along_calls listed_table None listed_calls listed_graph Hrun)
    as [Hguard Hdet].
  split; [reflexivity|]. split; [exact Hguard|]. split; [exact Hlisted|].
  exact (Hdet Hlisted).
Defined.

(** ** The word chain along call sequences *)

(** X14.  After any sequence of calls on a new graph the words form a
    chain, each word starting at the state where the word before it ends,
    and no word uses a state numbered past the counter.  A further
    [addNextWord] always succeeds: the new word starts where the last word
    ends (at the state the counter stands at when there is no word yet) and
    ends at the next number, which was no state of the graph and is one
    with an empty list afterwards. *)
Theorem X14_chain_along_calls (hs : gmap string (gset string)) (id : option string)
    (cs : list call) (g : PromptLMFST) :
  exec (run_calls cs) (init hs id) = Ok g →
  (∀ i a b, words g !! i = Some a → words g !! S i = Some b → final a = start b) ∧
  (∀ w, w ∈ words g → start w ≤ state_counter g ∧ final w ≤ state_counter g) ∧
  ∀ l, ∃ g', exec (addNextWord l) g = Ok g' ∧
    words g' = words g ++
      [mkWord l (match last (words g) with
                 | Some p => final p
                 | None => state_counter g
                 end) (S (state_counter g))] ∧
    dict_get (states g) (S (state_counter g)) = None ∧
    dict_get (states g') (S (state_counter g)) = Some [].
Proof.
  intros Hrun.
  destruct (run_calls_inv cs _ g (graph_inv_init hs id) Hrun) as [Hg _].
  pose proof Hg as (_ & _ & Hw & Hc).
  split; [|split; [done|]].
  - intros i a b Ha Hb. symmetry. by eapply Hc.
  - intros l. destruct (addNextWord_step g l Hg) as (g' & Hstep & _ & Hw' & _ & Hf & Hn).
    exists g'. unfold exec. rewrite Hstep. done.
Qed.

Lemma X14_chain_along_calls_witness :
  (∀ i a b, words sample_graph !! i = Some a → words sample_graph !! S i = Some b →
     final a = start b) ∧
  (∀ w, w ∈ words sample_graph →
     start w ≤ state_counter sample_graph ∧ final w ≤ state_counter sample_graph) ∧
  ∀ l, ∃ g', exec (addNextWord l) sample_graph = Ok g' ∧
    words g' = words sample_graph ++
      [mkWord l (match last (words sample_graph) with
                 | Some p => final p
                 | None => state_counter sample_graph
                 end) (S (state_counter sample_graph))] ∧
    dict_get (states sample_graph) (S (state_counter sample_graph)) = None ∧
    dict_get (states g') (S (state_counter sample_graph)) = Some [].
Proof.
  apply (X14_chain_along_calls ∅ None sample_calls sample_graph).
  vm_compute. reflexivity.
Defined.

(** ** State numbers are never reused *)

Lemma run_call_counter g c g' :
  graph_inv g → exec (run_call c) g = Ok g' → state_counter g ≤ state_counter g'.
Proof.
  intros Hg. unfold exec.
  assert (Hquiet : ∀ m : M unit,
            preserves (quiet (words g) (initialised g) (state_counter g)) m →
            match m g with Ok (_, g') => Ok g' | Raise e => Raise e end = Ok g' →
            state_counter g ≤ state_counter g').
  { intros m Hm Hrun. destruct (m g) as [[[] g1]|e] eqn:E; [|done].
    injection Hrun as ->.
    by destruct (Hm g () g' (graph_inv_quiet g Hg) E) as (_ & _ & Hc & _). }
  destruct c as [l|sequence| |f t i o w|s w|r W]; cbn [run_call].
  - destruct (addNextWord_step g l Hg) as (g1 & -> & _ & _ & Hc & _).
    intros [= <-]. lia.
  - clear Hquiet. revert g Hg. unfold addWordSequence.
    induction sequence as [|l sequence IH]; intros g Hg.
    + by intros [= <-].
    + destruct (addNextWord_step g l Hg) as (g1 & Hstep & Hg1 & _ & Hc & _).
      cbn [forM_]. rewrite bind_eq, Hstep. intros Hrest.
      specialize (IH g1 Hg1 Hrest). lia.
  - apply Hquiet. apply preserves_bind; [apply quiet_newState|].
    intros _. apply preserves_mret.
  - apply Hquiet, quiet_addArc.
  - apply Hquiet, quiet_addFinalState.
  - apply Hquiet, quiet_run_recipe.
Qed.

Lemma run_calls_counter cs g g' :
  graph_inv g → exec (run_calls cs) g = Ok g' → state_counter g ≤ state_counter g'.
Proof.
  unfold run_calls. revert g. induction cs as [|c cs IH]; intros g Hg.
  - by intros [= <-].
  - cbn [forM_]. rewrite exec_bind.
    destruct (run_call c g) as [[[] g1]|e] eqn:E; [|done]. intros Hrest.
    assert (Hrun1 : exec (run_call c) g = Ok g1) by (unfold exec; by rewrite E).
    pose proof (run_call_counter g c g1 Hg Hrun1).
    destruct (run_call_inv g c g1 Hg Hrun1) as [Hg1 _].
    specialize (IH g1 Hg1 Hrest). lia.
Qed.

(** X15.  State numbers are never reused.  After any sequence of calls on a
    new graph every state of the graph is numbered at most by the counter,
    further calls never lower the counter, and the number [newState]
    returns is the counter plus one: it was no state of the graph, no word
    starts or ends there, it gets an empty list and the other states keep
    theirs. *)
Theorem X15_state_numbers_fresh (hs : gmap string (gset string)) (id : option string)
    (cs : list call) (g : PromptLMFST) :
  exec (run_calls cs) (init hs id) = Ok g →
  (∀ k, has_key g k → k ≤ state_counter g) ∧
  (∀ cs' g', exec (run_calls cs') g = Ok g' → state_counter g ≤ state_counter g') ∧
  ∃ g1, newState g = Ok (S (state_counter g), g1) ∧
    ¬ has_key g (S (state_counter g)) ∧
    (∀ w, w ∈ words g → start w ≠ S (state_counter g) ∧ final w ≠ S (state_counter g)) ∧
    dict_get (states g1) (S (state_counter g)) = Some [] ∧
    (∀ k, k ≠ S (state_counter g) → dict_get (states g1) k = dict_get (states g) k) ∧
    words g1 = words g.
Proof.
  intros Hrun.
  destruct (run_calls_inv cs _ g (graph_inv_init hs id) Hrun) as [Hg _].
  pose proof Hg as (_ & Hk & Hw & _).
  assert (Hkeys : ∀ k, has_key g k → k ≤ state_counter g).
  { intros k [v Hv]. by eapply Hk, dict_get_Some_key. }
  split; [done|]. split; [intros cs' g'; by apply run_calls_counter|].
  eexists. split; [apply newState_eq|]. cbn [states words].
  split; [|split; [|split; [|split; [|done]]]].
  - intros Hkey. apply Hkeys in Hkey. lia.
  - intros w Hin. apply Hw in Hin. lia.
  - apply dict_get_set_eq.
  - intros k Hne. by apply dict_get_set_ne.
Qed.

Lemma X15_state_numbers_fresh_witness :
  (∀ k, has_key sample_graph k → k ≤ state_counter sample_graph) ∧
  (∀ cs' g', exec (run_calls cs') sample_graph = Ok g' →
     state_counter sample_graph ≤ state_counter g') ∧
  ∃ g1, newState sample_graph = Ok (S (state_counter sample_graph), g1) ∧
    ¬ has_key sample_graph (S (state_counter sample_graph)) ∧
    (∀ w, w ∈ words sample_graph →
       start w ≠ S (state_counter sample_graph) ∧
       final w ≠ S (state_counter sample_graph)) ∧
    dict_get (states g1) (S (state_counter sample_graph)) = Some [] ∧
    (∀ k, k ≠ S (state_counter sample_graph) →
       dict_get (states g1) k = dict_get (states sample_graph) k) ∧
    words g1 = words sample_graph.
Proof.
  apply (X15_state_numbers_fresh ∅ None sample_calls sample_graph).
  vm_compute. reflexivity.
Defined.

(** ** What one insertion touches *)

Lemma dict_keys_set_present {V} (d : list (nat * V)) k v0 v :
  dict_get d k = Some v0 → dict_keys (dict_set d k v) = dict_keys d.
Proof.
  unfold dict_keys. induction d as [|[k' v'] d IH]; intros Hget; [done|].
  unfold dict_get in Hget. fold (@dict_get V) in Hget.
  unfold dict_set. fold (@dict_set V).
  destruct (decide (k = k')) as [->|Hne]; [done|].
  simpl. f_equal. by apply IH.
Qed.

(** X16.  [addArc] touches one list.  When the source state does not exist
    it raises the [KeyError]; otherwise it succeeds, and of the name, the
    words, the counter, the flag and the states it changes nothing but the
    list of the source state, to which it appends the arc or nothing: the
    states and their order and the lists of all other states stay as they
    are.  The target state need not exist. *)
Theorem X16_addArc_frame (f t : nat) (i o : string) (w : number) (g : PromptLMFST) :
  match dict_get (states g) f with
  | None => addArc f t i o w g = Raise KeyError
  | Some items =>
      ∃ g', addArc f t i o w g = Ok ((), g') ∧
        ID g' = ID g ∧ words g' = words g ∧ state_counter g' = state_counter g ∧
        initialised g' = initialised g ∧
        dict_keys (states g') = dict_keys (states g) ∧
        (∀ s, s ≠ f → dict_get (states g') s = dict_get (states g) s) ∧
        dict_get (states g') f
        = Some (items ++ if blocked (homophones g) items i then []
                         else [Arc f t i o w])
  end.
Proof.
  rewrite addArc_eq. destruct (dict_get (states g) f) as [items|] eqn:E; [|done].
  destruct (blocked (homophones g) items i).
  - exists g. rewrite app_nil_r. by repeat split.
  - eexists. split; [reflexivity|]. unfold set_states.
    cbn [ID words states state_counter initialised homophones].
    repeat split.
    + by eapply dict_keys_set_present.
    + intros s Hne. by apply dict_get_set_ne.
    + apply dict_get_set_eq.
Qed.

(** X17.  [addFinalState] checks nothing.  On a state that does not exist
    it raises the [KeyError]; on a state that exists it always appends its
    marker, so two calls leave two markers at the end of the list, and the
    rest of the graph is unchanged. *)
Theorem X17_addFinalState_appends (s : nat) (w w' : number) (g : PromptLMFST) :
  match dict_get (states g) s with
  | None => addFinalState s w g = Raise KeyError
  | Some items =>
      ∃ g', exec (addFinalState s w;; addFinalState s w') g = Ok g' ∧
        words g' = words g ∧ state_counter g' = state_counter g ∧
        dict_keys (states g') = dict_keys (states g) ∧
        (∀ k, k ≠ s → dict_get (states g') k = dict_get (states g) k) ∧
        dict_get (states g') s = Some (items ++ [FinalState s w; FinalState s w'])
  end.
Proof.
  destruct (dict_get (states g) s) as [items|] eqn:E.
  - rewrite exec_bind, addFinalState_eq, E. unfold exec.
    rewrite addFinalState_eq. unfold set_states at 1 2 3. cbn [states].
    rewrite dict_get_set_eq. eexists. split; [reflexivity|].
    unfold set_states. cbn [words states state_counter].
    rewrite dict_set_set. repeat split.
    + by eapply dict_keys_set_present.
    + intros k Hne. by apply dict_get_set_ne.
    + by rewrite dict_get_set_eq, <- app_assoc.
  - by rewrite addFinalState_eq, E.
Qed.

(** ** Reading the prompt in parts *)

(** X18.  On a graph produced by any sequence of calls on a new graph,
    [addWordSequence] succeeds for every sequence of labels and adds its
    words in order after those that are there; reading a sequence in two
    parts gives the same graph as reading it in one. *)
Theorem X18_addWordSequence_parts (hs : gmap string (gset string)) (id : option string)
    (cs : list call) (g : PromptLMFST) (p q : list string) :
  exec (run_calls cs) (init hs id) = Ok g →
  ∃ g', exec (addWordSequence (p ++ q)) g = Ok g' ∧
    exec (addWordSequence p;; addWordSequence q) g = Ok g' ∧
    label <$> words g' = (label <$> words g) ++ p ++ q ∧
    length (words g') = length (words g) + length p + length q.
Proof.
  intros Hrun.
  destruct (run_calls_inv cs _ g (graph_inv_init hs id) Hrun) as [Hg _].
  destruct (addWordSequence_steps g (p ++ q) Hg) as (g' & Hseq & _ & Hw).
  exists g'. unfold exec. rewrite Hseq. split; [done|]. split; [|split; [done|]].
  - unfold addWordSequence in *. by rewrite <- forM__app, Hseq.
  - apply (f_equal length) in Hw. rewrite !length_app, !length_fmap in Hw. lia.
Qed.

Lemma X18_addWordSequence_parts_witness :
  ∃ g', exec (addWordSequence (["sat"] ++ ["on"; "mats"])) sample_graph = Ok g' ∧
    exec (addWordSequence ["sat"];; addWordSequence ["on"; "mats"]) sample_graph = Ok g' ∧
    label <$> words g' = (label <$> words sample_graph) ++ ["sat"] ++ ["on"; "mats"] ∧
    length (words g')
    = length (words sample_graph) + length ["sat"] + length ["on"; "mats"].
Proof.
  apply (X18_addWordSequence_parts ∅ None sample_calls sample_graph).
  vm_compute. reflexivity.
Defined.

(** ** The reads of the homophone table *)

Lemma holds_as_stored hs : holds (as_stored hs) hs.
Proof.
  intros [l|]; unfold as_stored; simpl.
  - by rewrite (lookup_kmap Some hs l).
  - assert (kmap (M2:=gmap (option string)) Some hs !! None = None) as Hn.
    { apply (lookup_kmap_None Some). intros l [=]. }
    by rewrite Hn.
Qed.

Lemma defaultdict_getitem_spec d hs k :
  holds d hs →
  (defaultdict_getitem d k).1 = defaultdict_get hs k ∧
  holds (defaultdict_getitem d k).2 hs ∧
  (∀ k' s, d !! k' = Some s → (defaultdict_getitem d k).2 !! k' = Some s) ∧
  (∀ k', d !! k' = None →
     (defaultdict_getitem d k).2 !! k' = None ∨
     (k' = k ∧ (defaultdict_getitem d k).2 !! k' = Some ∅)) ∧
  is_Some ((defaultdict_getitem d k).2 !! k).
Proof.
  intros Hd. unfold defaultdict_getitem.
  destruct (d !! k) as [s|] eqn:E; simpl.
  - split; [by rewrite <- Hd, E|]. split; [done|]. split; [done|].
    split; [by left|]. by rewrite E.
  - split; [by rewrite <- Hd, E|]. split; [|split; [|split]].
    + intros k'. destruct (decide (k' = k)) as [->|Hne].
      * rewrite lookup_insert_eq. simpl. by rewrite <- Hd, E.
      * rewrite lookup_insert_ne by done. apply Hd.
    + intros k' s Hk'. rewrite lookup_insert_ne; [done|]. congruence.
    + intros k' Hk'. destruct (decide (k' = k)) as [->|Hne].
      * right. by rewrite lookup_insert_eq.
      * left. by rewrite lookup_insert_ne.
    + by rewrite lookup_insert_eq.
Qed.

Lemma any_stored_spec d hs lbl labels :
  holds d hs →
  (any_stored d lbl labels).1 = any_homophone hs lbl labels ∧
  holds (any_stored d lbl labels).2 hs ∧
  (∀ k s, d !! k = Some s → (any_stored d lbl labels).2 !! k = Some s) ∧
  (∀ k, d !! k = None →
     (any_stored d lbl labels).2 !! k = None ∨
     (k ∈ labels ∧ (any_stored d lbl labels).2 !! k = Some ∅)) ∧
  ((any_stored d lbl labels).1 = false →
   ∀ k, k ∈ labels → is_Some ((any_stored d lbl labels).2 !! k)).
Proof.
  revert d. induction labels as [|k0 rest IH]; intros d Hd.
  - simpl. split; [done|]. split; [done|]. split; [done|]. split; [by left|].
    intros _ k Hk. by apply elem_of_nil in Hk.
  - destruct (defaultdict_getitem_spec d hs k0 Hd) as (Hget & Hd' & Hkeep & Hnew & Hkey).
    cbn [any_stored]. unfold any_homophone. cbn [existsb].
    fold (any_homophone hs lbl rest). rewrite <- Hget.
    destruct (bool_decide (lbl ∈ (defaultdict_getitem d k0).1)) eqn:Hb; cbn [fst snd orb].
    + split; [done|]. split; [done|]. split; [done|]. split; [|done].
      intros k Hk. destruct (Hnew k Hk) as [Hn|[-> Hn]]; [by left|].
      right. split; [by left|done].
    + destruct (IH _ Hd') as (Hans & Hd'' & Hkeep' & Hnew' & Hkeys').
      split; [done|]. split; [done|]. split; [|split].
      * intros k s Hk. by apply Hkeep', Hkeep.
      * intros k Hk. destruct (Hnew k Hk) as [Hn|[-> Hn]].
        -- destruct (Hnew' k Hn) as [Hn'|[Hin Hn']]; [by left|].
           right. split; [by right|done].
        -- right. split; [by left|]. by apply Hkeep'.
      * intros Hfalse k [->|Hin]%elem_of_cons.
        -- destruct Hkey as [s Hs]. exists s. by apply Hkeep'.
        -- by apply Hkeys'.
Qed.

Lemma any_homophone_Permutation hs lbl labels labels' :
  labels ≡ₚ labels' → any_homophone hs lbl labels = any_homophone hs lbl labels'.
Proof.
  intros Hp. unfold any_homophone. apply eq_true_iff_eq.
  rewrite !existsb_exists. split; intros (x & Hin & Hx); exists x; split; try done.
  - apply list_elem_of_In. rewrite <- Hp. by apply list_elem_of_In.
  - apply list_elem_of_In. rewrite Hp. by apply list_elem_of_In.
Qed.

(** X19.  The reads of the guard, on the table as Python stores it.  Take
    an object that holds the table, with whatever empty entries earlier
    reads have left in it, and visit the labels of a state's list in any
    order.  The guard then answers as [homophoneArcExists] is modelled: it
    finds the label among the homophones of a label of the list or not, the
    same for every order.  The reads change no entry and no answer: what
    they add are empty sets under labels of the list that were no keys (a
    marker's [None] among them), and when the answer is [False] every label
    of the list has become a key. *)
Theorem X19_guard_reads (d : gmap (option string) (gset string))
    (hs : gmap string (gset string)) (lbl : string) (items : list Leaf)
    (labels : list (option string)) :
  holds d hs →
  labels ≡ₚ labels_from_state items →
  (any_stored d lbl labels).1 = blocked hs items lbl ∧
  holds (any_stored d lbl labels).2 hs ∧
  (∀ k s, d !! k = Some s → (any_stored d lbl labels).2 !! k = Some s) ∧
  (∀ k, d !! k = None →
     (any_stored d lbl labels).2 !! k = None ∨
     (k ∈ labels ∧ (any_stored d lbl labels).2 !! k = Some ∅)) ∧
  ((any_stored d lbl labels).1 = false →
   ∀ k, k ∈ labels → is_Some ((any_stored d lbl labels).2 !! k)).
Proof.
  intros Hd Hp. unfold blocked.
  rewrite <- (any_homophone_Permutation hs lbl _ _ Hp).
  by apply any_stored_spec.
Qed.

(** The table of the file "read red", a list with arcs that read "a" and
    "read" and a marker, visited in another order than that of the list:
    "rod" is not found, and "a" and [None] have become keys. *)
Lemma X19_guard_reads_witness :
  any_stored (as_stored read_red) "rod" [Some "read"; None; Some "a"]
  = (false, <[Some "a" := ∅]> (<[None := ∅]> (as_stored read_red))) ∧
  (any_stored (as_stored read_red) "rod" [Some "read"; None; Some "a"]).1
  = blocked read_red [Arc 0 1 "a" "a" (PyInt 100); FinalState 0 (PyFloat 0);
                      Arc 0 1 "read" "read" (PyInt 100)] "rod" ∧
  holds (any_stored (as_stored read_red) "rod" [Some "read"; None; Some "a"]).2 read_red.
Proof.
  split; [by vm_compute|].
  destruct (X19_guard_reads (as_stored read_red) read_red "rod"
              [Arc 0 1 "a" "a" (PyInt 100); FinalState 0 (PyFloat 0);
               Arc 0 1 "read" "read" (PyInt 100)]
              [Some "read"; None; Some "a"]) as (Hans & Hholds & _).
  - apply holds_as_stored.
  - change (labels_from_state _) with [Some "a"; None; Some "read"].
    etrans; [apply perm_swap|]. etrans; [apply perm_skip, perm_swap|].
    apply perm_swap.
  - split; [exact Hans|exact Hholds].
Defined.
